(** * Projection and label placement of the globe branch of maplibre-gl-js

    A shallow embedding of the projection engine (clipping plane, globe
    transition, GPU error measurement), of the tile coverage search and of
    the placement of glyphs along projected lines, with the properties the
    specification states about them.

    JavaScript numbers are modelled without rounding: as rationals [Q]
    where the code only adds, multiplies, divides by what is not zero and
    compares, and as reals [R] where it takes square roots or uses
    trigonometry.  In the placement of glyphs, where a division by zero
    decides what a call returns, the numbers computed are the reals
    extended by both infinities and [NaN].  Integer quantities (frame
    counters, vertex indices, tile coordinates, zoom levels) are [Z] or
    [nat]. *)

From Stdlib Require Import ZArith QArith Qminmax Qabs Reals Lqa Lra Lia Psatz.
From Stdlib Require Import List Bool Sorted Permutation.
From Stdlib Require Import Strings.Byte.
From stdpp Require Import gmap.
Import ListNotations.

#[local] Open Scope Z_scope.

(** ** Numbers shared by the modules *)

(** [a < b] on rationals, as a boolean. *)
Definition Qltb (a b : Q) : bool := negb (Qle_bool b a).

Lemma Qltb_lt (a b : Q) : Qltb a b = true <-> (a < b)%Q.
Proof.
  unfold Qltb. rewrite negb_true_iff. split; intros H.
  - apply Qnot_le_lt. intros Hle. apply Qle_bool_iff in Hle. congruence.
  - destruct (Qle_bool b a) eqn:E; [|reflexivity].
    apply Qle_bool_iff in E. exfalso. apply (Qlt_not_le _ _ H E).
Qed.

Lemma Qltb_ge (a b : Q) : Qltb a b = false <-> (b <= a)%Q.
Proof.
  unfold Qltb. rewrite negb_false_iff. apply Qle_bool_iff.
Qed.

(** ** 32-bit integer operators of JavaScript *)

Definition toInt32 (n : Z) : Z :=
  let m := n mod 2 ^ 32 in
  if m <? 2 ^ 31 then m else m - 2 ^ 32.

(** [a << n] *)
Definition shl (a n : Z) : Z := toInt32 (toInt32 a * 2 ^ (n mod 32)).

(** [a >> n] *)
Definition shr (a n : Z) : Z := Z.shiftr (toInt32 a) (n mod 32).

(** Linear arithmetic over [Q] after the divisions by literals have been
    turned into multiplications. *)
Ltac qinv_literals :=
  unfold Qdiv in *;
  repeat match goal with
  | |- context [Qinv (Qmake ?n ?d)] =>
      let v := eval cbv in (Qinv (Qmake n d)) in
      change (Qinv (Qmake n d)) with v
  | H : context [Qinv (Qmake ?n ?d)] |- _ =>
      let v := eval cbv in (Qinv (Qmake n d)) in
      change (Qinv (Qmake n d)) with v in H
  end.

Ltac qlra := qinv_literals; Lqa.lra.

(** * The GPU error measurement ([ProjectionErrorMeasurement]) *)

Module ErrorMeasurement.

(** The four bytes of the 1x1 RGBA read-back target ([Uint8Array(4)]). *)
Record ResultBuffer := {
  byte0 : byte;
  byte1 : byte;
  byte2 : byte;
  byte3 : byte
}.

(** The numeric value of one element of a [Uint8Array]. *)
Definition u8 (b : byte) : Z := Z.of_N (Byte.to_N b).

Definition parseRGBA8float (buffer : ResultBuffer) : Q :=
  let result := 0%Q in
  let result := (result + inject_Z (u8 (byte0 buffer)) / 256)%Q in
  let result := (result + inject_Z (u8 (byte1 buffer)) / 65536)%Q in
  let result := (result + inject_Z (u8 (byte2 buffer)) / 16777216)%Q in
  let result := if Qltb (inject_Z (u8 (byte3 buffer))) 127 then (- result)%Q else result in
  (result / 128)%Q.

(** The decoding as the specification words it: three mantissa bytes, a
    sign byte, and the range scaling. *)
Definition decodedError (b0 b1 b2 b3 : Z) : Q :=
  let value := (inject_Z b0 / 256 + inject_Z b1 / 65536 + inject_Z b2 / 16777216)%Q in
  let signed := if b3 <? 127 then (- value)%Q else value in
  (signed / 128)%Q.

(** What [gl.clientWaitSync] may answer. *)
Inductive WaitResult :=
| WAIT_FAILED
| TIMEOUT_EXPIRED
| CONDITION_SATISFIED
| ALREADY_SIGNALED.

(** What the GL context answers during one frame: the state of the fence,
    and the pixel a read would deliver. *)
Record GLFrame := {
  waitResult : WaitResult;
  pixels : ResultBuffer
}.

Record ReadbackQueue := {
  readbackIndex : nat;
  frameNumberIssued : Z;
  sync : bool
}.

(** The fields of [ProjectionErrorMeasurement] the loop reads and writes.
    [_pbos] is [Some n] for the ring of [n] pixel pack buffers of a WebGL2
    context and [None] for WebGL1. *)
Record State := {
  _pbos : option nat;
  _nextPboIndex : nat;
  _resultBuffer : ResultBuffer;
  _measuredError : Q;
  _updateCount : Z;
  _lastReadbackFrame : Z;
  _readbackQueue : option ReadbackQueue
}.

Definition _ringBufferSize : nat := 2.
Definition _readbackWaitFrames : Z := 4.
Definition _measureWaitFrames : Z := 4.

Definition zeroBuffer : ResultBuffer :=
  {| byte0 := x00; byte1 := x00; byte2 := x00; byte3 := x00 |}.

(** The state the constructor leaves. *)
Definition initial (webgl2 : bool) : State :=
  {| _pbos := if webgl2 then Some _ringBufferSize else None;
     _nextPboIndex := 0;
     _resultBuffer := zeroBuffer;
     _measuredError := 0;
     _updateCount := 0;
     _lastReadbackFrame := -1000;
     _readbackQueue := None |}.

Definition awaitingQuery (s : State) : bool :=
  match _readbackQueue s with Some _ => true | None => false end.

(** The GPU work the loop starts and finishes, in program order. *)
Inductive Event :=
| Issued (frame : Z) (pbo : option nat)
| Completed (frame : Z)
| Abandoned (frame : Z).

Definition _renderErrorTexture (s : State) : State * list Event :=
  match _pbos s with
  | Some n =>
      ({| _pbos := _pbos s;
          _nextPboIndex := Nat.modulo (_nextPboIndex s + 1) n;
          _resultBuffer := _resultBuffer s;
          _measuredError := _measuredError s;
          _updateCount := _updateCount s;
          _lastReadbackFrame := _lastReadbackFrame s;
          _readbackQueue := Some {| frameNumberIssued := _updateCount s;
                                    readbackIndex := _nextPboIndex s;
                                    sync := true |} |},
       [Issued (_updateCount s) (Some (_nextPboIndex s))])
  | None =>
      ({| _pbos := _pbos s;
          _nextPboIndex := _nextPboIndex s;
          _resultBuffer := _resultBuffer s;
          _measuredError := _measuredError s;
          _updateCount := _updateCount s;
          _lastReadbackFrame := _lastReadbackFrame s;
          _readbackQueue := Some {| frameNumberIssued := _updateCount s;
                                    readbackIndex := 0;
                                    sync := false |} |},
       [Issued (_updateCount s) None])
  end.

(** The tail of [_tryReadback]: [_resultBuffer] holds the new measurement. *)
Definition finishReadback (buffer : ResultBuffer) (s : State) : State * list Event :=
  ({| _pbos := _pbos s;
      _nextPboIndex := _nextPboIndex s;
      _resultBuffer := buffer;
      _measuredError := parseRGBA8float buffer;
      _updateCount := _updateCount s;
      _lastReadbackFrame := _updateCount s;
      _readbackQueue := None |},
   [Completed (_updateCount s)]).

Definition _tryReadback (gl : GLFrame) (s : State) : State * list Event :=
  match _pbos s, _readbackQueue s with
  | Some _, Some _ =>
      match waitResult gl with
      | WAIT_FAILED =>
          ({| _pbos := _pbos s;
              _nextPboIndex := _nextPboIndex s;
              _resultBuffer := _resultBuffer s;
              _measuredError := _measuredError s;
              _updateCount := _updateCount s;
              _lastReadbackFrame := _updateCount s;
              _readbackQueue := None |},
           [Abandoned (_updateCount s)])
      | TIMEOUT_EXPIRED => (s, [])
      | _ => finishReadback (pixels gl) s
      end
  | _, _ => finishReadback (pixels gl) s
  end.

Definition updateErrorLoop (gl : GLFrame) (s : State) : State * Q * list Event :=
  let currentFrame := _updateCount s in
  let '(s1, events) :=
    match _readbackQueue s with
    | Some q =>
        if frameNumberIssued q + _readbackWaitFrames <=? currentFrame
        then _tryReadback gl s
        else (s, [])
    | None =>
        if _lastReadbackFrame s + _measureWaitFrames <=? currentFrame
        then _renderErrorTexture s
        else (s, [])
    end in
  ({| _pbos := _pbos s1;
      _nextPboIndex := _nextPboIndex s1;
      _resultBuffer := _resultBuffer s1;
      _measuredError := _measuredError s1;
      _updateCount := _updateCount s1 + 1;
      _lastReadbackFrame := _lastReadbackFrame s1;
      _readbackQueue := _readbackQueue s1 |},
   _measuredError s1,
   events).

(** The loop over a sequence of frames, with everything it did. *)
Fixpoint runLoop (frames : list GLFrame) (s : State) : State * list Event :=
  match frames with
  | [] => (s, [])
  | gl :: rest =>
      let '(s1, _, events) := updateErrorLoop gl s in
      let '(s2, later) := runLoop rest s1 in
      (s2, events ++ later)
  end.

(** Read-backs issued and not yet cleared, counted over a trace. *)
Fixpoint outstanding (trace : list Event) : Z :=
  match trace with
  | [] => 0
  | Issued _ _ :: rest => outstanding rest + 1
  | Completed _ :: rest => outstanding rest - 1
  | Abandoned _ :: rest => outstanding rest - 1
  end.

Definition isIssued (e : Event) : bool :=
  match e with Issued _ _ => true | _ => false end.

(** The frame of the last read-back that was cleared (completed or
    abandoned) in a trace; [-1000] when there is none, as in the
    constructor. *)
Fixpoint lastCleared (acc : Z) (trace : list Event) : Z :=
  match trace with
  | [] => acc
  | Issued _ _ :: rest => lastCleared acc rest
  | Completed f :: rest => lastCleared f rest
  | Abandoned f :: rest => lastCleared f rest
  end.

(** ** What the decoder computes *)

Lemma u8_range (b : byte) : 0 <= u8 b < 256.
Proof.
  unfold u8. pose proof (Byte.to_N_bounded b) as H. lia.
Qed.

Lemma inject_Z_ltb (a b : Z) : Qltb (inject_Z a) (inject_Z b) = (a <? b).
Proof.
  destruct (a <? b) eqn:E.
  - apply Qltb_lt. rewrite <- Zlt_Qlt. lia.
  - apply Qltb_ge. rewrite <- Zle_Qle. lia.
Qed.

(** C6: the decoded value of a read-back buffer is
    [byte0/256 + byte1/65536 + byte2/16777216], negated when
    [byte3 < 127], divided by 128. *)
Theorem parseRGBA8float_decodes (buffer : ResultBuffer) :
  (parseRGBA8float buffer ==
   decodedError (u8 (byte0 buffer)) (u8 (byte1 buffer))
                (u8 (byte2 buffer)) (u8 (byte3 buffer)))%Q.
Proof.
  unfold parseRGBA8float, decodedError.
  change 127%Q with (inject_Z 127). rewrite inject_Z_ltb.
  destruct (u8 (byte3 buffer) <? 127); field.
Qed.

(** The mantissa is the 24-bit number [byte0 byte1 byte2] over [2^24], so
    the decoded magnitude stays below [1/128]. *)
Lemma decodedError_mantissa (b0 b1 b2 b3 : Z) :
  (decodedError b0 b1 b2 b3 ==
   (if b3 <? 127 then -1 else 1)
   * inject_Z (b0 * 65536 + b1 * 256 + b2) / 2147483648)%Q.
Proof.
  unfold decodedError.
  rewrite !inject_Z_plus, !inject_Z_mult.
  destruct (b3 <? 127); simpl; field.
Qed.

Lemma parseRGBA8float_bound (buffer : ResultBuffer) :
  (Qabs (parseRGBA8float buffer) < 1 / 128)%Q.
Proof.
  assert (Hdecoded : (parseRGBA8float buffer ==
                      decodedError (u8 (byte0 buffer)) (u8 (byte1 buffer))
                                   (u8 (byte2 buffer)) (u8 (byte3 buffer)))%Q).
  { unfold parseRGBA8float, decodedError.
    change 127%Q with (inject_Z 127). rewrite inject_Z_ltb.
    destruct (u8 (byte3 buffer) <? 127); field. }
  rewrite Hdecoded, decodedError_mantissa.
  pose proof (u8_range (byte0 buffer)) as H0.
  pose proof (u8_range (byte1 buffer)) as H1.
  pose proof (u8_range (byte2 buffer)) as H2.
  set (m := u8 (byte0 buffer) * 65536 + u8 (byte1 buffer) * 256 + u8 (byte2 buffer)).
  assert (Hm : 0 <= m < 16777216) by (unfold m; lia).
  assert (Hq : (0 <= inject_Z m)%Q /\ (inject_Z m < 16777216)%Q).
  { split.
    - change 0%Q with (inject_Z 0). rewrite <- Zle_Qle. lia.
    - change 16777216%Q with (inject_Z 16777216). rewrite <- Zlt_Qlt. lia. }
  destruct Hq as [Hq0 Hq1]. revert Hq0 Hq1.
  generalize (inject_Z m). intros q Hq0 Hq1.
  apply Qabs_Qlt_condition.
  destruct (u8 (byte3 buffer) <? 127); split; qlra.
Qed.

(** ** The measurement loop *)

Lemma outstanding_app (t1 t2 : list Event) :
  outstanding (t1 ++ t2) = outstanding t1 + outstanding t2.
Proof.
  induction t1 as [|[f p|f|f] t1 IH]; simpl; lia.
Qed.

Lemma lastCleared_app (acc : Z) (t1 t2 : list Event) :
  lastCleared acc (t1 ++ t2) = lastCleared (lastCleared acc t1) t2.
Proof.
  revert acc. induction t1 as [|[f p|f|f] t1 IH]; intros acc; simpl; auto.
Qed.

(** What ties the trace to the state: the queue slot holds the one
    read-back that is outstanding, and [_lastReadbackFrame] is the frame in
    which the last one was cleared. *)
Definition consistent (s : State) (trace : list Event) : Prop :=
  outstanding trace = (if awaitingQuery s then 1 else 0)
  /\ lastCleared (-1000) trace = _lastReadbackFrame s.

Lemma consistent_initial (webgl2 : bool) : consistent (initial webgl2) [].
Proof. split; reflexivity. Qed.

Lemma updateErrorLoop_consistent (gl : GLFrame) (s s' : State) (v : Q)
    (trace events : list Event) :
  consistent s trace ->
  updateErrorLoop gl s = (s', v, events) ->
  consistent s' (trace ++ events).
Proof.
  intros [Hout Hlast] Hstep. unfold consistent.
  rewrite outstanding_app, lastCleared_app, Hout, Hlast.
  unfold updateErrorLoop, _tryReadback, _renderErrorTexture, finishReadback,
    awaitingQuery in *.
  destruct (_readbackQueue s) as [q|] eqn:Eq.
  - destruct (frameNumberIssued q + _readbackWaitFrames <=? _updateCount s).
    + destruct (_pbos s); [destruct (waitResult gl)|];
        inversion Hstep; subst; simpl; rewrite ?Eq; split; reflexivity.
    + inversion Hstep; subst; simpl; rewrite Eq; split; reflexivity.
  - destruct (_lastReadbackFrame s + _measureWaitFrames <=? _updateCount s).
    + destruct (_pbos s); inversion Hstep; subst; simpl; split; reflexivity.
    + inversion Hstep; subst; simpl; rewrite Eq; split; reflexivity.
Qed.

Lemma runLoop_consistent (frames : list GLFrame) (s s' : State)
    (before trace : list Event) :
  consistent s before ->
  runLoop frames s = (s', trace) ->
  consistent s' (before ++ trace).
Proof.
  revert s before trace.
  induction frames as [|gl rest IH]; intros s before trace Hc Hrun; simpl in Hrun.
  - inversion Hrun; subst. now rewrite app_nil_r.
  - destruct (updateErrorLoop gl s) as [[s1 v] events] eqn:Estep.
    destruct (runLoop rest s1) as [s2 later] eqn:Erest.
    inversion Hrun; subst. rewrite app_assoc.
    eapply IH; [|exact Erest].
    eapply updateErrorLoop_consistent; eauto.
Qed.

Lemma runLoop_snoc (frames : list GLFrame) (gl : GLFrame) (s : State) :
  runLoop (frames ++ [gl]) s =
  let '(s1, trace) := runLoop frames s in
  let '(s2, _, events) := updateErrorLoop gl s1 in
  (s2, trace ++ events).
Proof.
  revert s. induction frames as [|g rest IH]; intros s; simpl.
  - destruct (updateErrorLoop gl s) as [[s2 v] events]. now rewrite app_nil_r.
  - destruct (updateErrorLoop g s) as [[s1 v] events].
    rewrite IH. destruct (runLoop rest s1) as [s2 trace].
    destruct (updateErrorLoop gl s2) as [[s3 v3] ev3]. now rewrite app_assoc.
Qed.

(** A frame issues a measurement only from an empty queue, after the
    cooldown, and issues at most one. *)
Lemma updateErrorLoop_issues (gl : GLFrame) (s s' : State) (v : Q)
    (events : list Event) :
  updateErrorLoop gl s = (s', v, events) ->
  existsb isIssued events = true ->
  awaitingQuery s = false
  /\ _lastReadbackFrame s + _measureWaitFrames <= _updateCount s
  /\ events = [Issued (_updateCount s) (option_map (fun _ => _nextPboIndex s) (_pbos s))]
  /\ awaitingQuery s' = true.
Proof.
  unfold updateErrorLoop, _tryReadback, _renderErrorTexture, finishReadback,
    awaitingQuery.
  intros Hstep Hiss.
  destruct (_readbackQueue s) as [q|] eqn:Eq.
  - destruct (frameNumberIssued q + _readbackWaitFrames <=? _updateCount s).
    + destruct (_pbos s); [destruct (waitResult gl)|];
        inversion Hstep; subst; simpl in Hiss; discriminate.
    + inversion Hstep; subst; simpl in Hiss; discriminate.
  - destruct (_lastReadbackFrame s + _measureWaitFrames <=? _updateCount s) eqn:E.
    + apply Z.leb_le in E.
      destruct (_pbos s); inversion Hstep; subst; simpl; auto.
    + inversion Hstep; subst; simpl in Hiss; discriminate.
Qed.

(** C7: after any number of frames of the loop at most one read-back is
    outstanding, namely the one in the queue; the next frame issues a new
    measurement only when none is outstanding and the cooldown since the
    frame in which the last one was cleared has elapsed; and the count
    stays at most one after it. *)
Theorem updateErrorLoop_one_outstanding (webgl2 : bool)
    (frames : list GLFrame) (gl : GLFrame) :
  let '(s, trace) := runLoop frames (initial webgl2) in
  let '(s', _, events) := updateErrorLoop gl s in
  outstanding trace = (if awaitingQuery s then 1 else 0)
  /\ 0 <= outstanding (trace ++ events) <= 1
  /\ (existsb isIssued events = true ->
      outstanding trace = 0
      /\ awaitingQuery s = false
      /\ lastCleared (-1000) trace + _measureWaitFrames <= _updateCount s
      /\ outstanding (trace ++ events) = 1).
Proof.
  destruct (runLoop frames (initial webgl2)) as [s trace] eqn:Erun.
  destruct (updateErrorLoop gl s) as [[s' v] events] eqn:Estep.
  pose proof (runLoop_consistent frames _ _ [] _ (consistent_initial webgl2) Erun)
    as Hc.
  simpl in Hc.
  pose proof (updateErrorLoop_consistent _ _ _ _ _ _ Hc Estep) as [Hout' _].
  destruct Hc as [Hout Hlast].
  split; [exact Hout|]. split.
  - rewrite Hout'. destruct (awaitingQuery s'); lia.
  - intros Hiss.
    destruct (updateErrorLoop_issues _ _ _ _ _ Estep Hiss) as (Hq & Hcool & _ & Hq').
    rewrite Hout, Hout', Hlast, Hq, Hq'. auto.
Qed.

(** The loop from the constructor state on a WebGL2 context whose fence is
    signalled at once: the measurement issued in frame 0 is read back in
    frame 4, and the next one is issued in frame 8. *)
Example runLoop_ten_frames :
  let gl := {| waitResult := ALREADY_SIGNALED; pixels := zeroBuffer |} in
  snd (runLoop (repeat gl 10) (initial true)) =
  [Issued 0 (Some 0%nat); Completed 4; Issued 8 (Some 1%nat)].
Proof. reflexivity. Qed.

End ErrorMeasurement.

(** * The projection manager: globe transition and redraw requests *)

Module ProjectionManager.

Definition clamp (a min max : Q) : Q := Qmin (Qmax a min) max.

Definition lerp (a b mix : Q) : Q := (a * (1 - mix) + b * mix)%Q.

Definition smoothStep (edge0 edge1 x : Q) : Q :=
  let t := clamp ((x - edge0) / (edge1 - edge0)) 0 1 in
  (t * t * (3 - 2 * t))%Q.

Definition globeTransitionTimeSeconds : Q := 0.5.
Definition zoomTransitionTimeSeconds : Q := 0.5.
Definition maxGlobeZoom : Q := 12.
Definition errorTransitionTimeSeconds : Q := 0.5.

(** The fields of [ProjectionManager] behind the transition and the error
    correction.  [_errorMeasurement] is created by the first
    [updateGPUdependent]; until then it is undefined ([None]). *)
Record State := {
  _lastGlobeStateEnabled : bool;
  _lastGlobeChangeTime : Q;
  _lastLargeZoomStateChange : Q;
  _lastLargeZoomState : bool;
  _globeness : Q;
  _skipNextAnimation : bool;
  _errorMeasurement : option ErrorMeasurement.State;
  _errorCorrectionUsable : Q;
  _errorMeasurementLastValue : Q;
  _errorCorrectionPreviousValue : Q;
  _errorMeasurementLastChangeTime : Q
}.

(** The field initialisers of the class; [_globeness] has none and is
    first written by [_updateAnimation]. *)
Definition initial (globeness : Q) : State :=
  {| _lastGlobeStateEnabled := false;
     _lastGlobeChangeTime := -1000;
     _lastLargeZoomStateChange := -1000;
     _lastLargeZoomState := false;
     _globeness := globeness;
     _skipNextAnimation := false;
     _errorMeasurement := None;
     _errorCorrectionUsable := 0;
     _errorMeasurementLastValue := 0;
     _errorCorrectionPreviousValue := 0;
     _errorMeasurementLastChangeTime := -1000 |}.

Definition skipNextProjectionTransitionAnimation (s : State) : State :=
  {| _lastGlobeStateEnabled := _lastGlobeStateEnabled s;
     _lastGlobeChangeTime := _lastGlobeChangeTime s;
     _lastLargeZoomStateChange := _lastLargeZoomStateChange s;
     _lastLargeZoomState := _lastLargeZoomState s;
     _globeness := _globeness s;
     _skipNextAnimation := true;
     _errorMeasurement := _errorMeasurement s;
     _errorCorrectionUsable := _errorCorrectionUsable s;
     _errorMeasurementLastValue := _errorMeasurementLastValue s;
     _errorCorrectionPreviousValue := _errorCorrectionPreviousValue s;
     _errorMeasurementLastChangeTime := _errorMeasurementLastChangeTime s |}.

(** [_updateAnimation(transform)]: [globeState] is what [_isGlobeEnabled()]
    returns, [currentTime] what [browser.now()] returns and [zoom] is
    [transform.zoom]. *)
Definition _updateAnimation (globeState : bool) (currentTime zoom : Q) (s : State) : State :=
  (* Update globe transition animation *)
  let changed := negb (Bool.eqb globeState (_lastGlobeStateEnabled s)) in
  let lastGlobeChangeTime := if changed then currentTime else _lastGlobeChangeTime s in
  let lastGlobeStateEnabled := if changed then globeState else _lastGlobeStateEnabled s in
  let globeTransition :=
    Qmin (Qmax ((currentTime - lastGlobeChangeTime) / 1000 / globeTransitionTimeSeconds) 0) 1 in
  let globeness := if globeState then globeTransition else (1 - globeTransition)%Q in
  let skip := _skipNextAnimation s in
  let globeness := if skip then (if globeState then 1%Q else 0%Q) else globeness in
  let lastGlobeChangeTime :=
    if skip then (currentTime - globeTransitionTimeSeconds * 1000 * 2)%Q
    else lastGlobeChangeTime in
  (* Update globe zoom transition *)
  let currentZoomState := Qle_bool maxGlobeZoom zoom in
  let zoomChanged := negb (Bool.eqb currentZoomState (_lastLargeZoomState s)) in
  let lastLargeZoomState := if zoomChanged then currentZoomState else _lastLargeZoomState s in
  let lastLargeZoomStateChange :=
    if zoomChanged then currentTime else _lastLargeZoomStateChange s in
  let zoomTransition :=
    Qmin (Qmax ((currentTime - lastLargeZoomStateChange) / 1000 / zoomTransitionTimeSeconds) 0) 1 in
  let zoomGlobenessBound :=
    if currentZoomState then (1 - zoomTransition)%Q else zoomTransition in
  let globeness := Qmin globeness zoomGlobenessBound in
  let globeness := smoothStep 0 1 globeness in
  {| _lastGlobeStateEnabled := lastGlobeStateEnabled;
     _lastGlobeChangeTime := lastGlobeChangeTime;
     _lastLargeZoomStateChange := lastLargeZoomStateChange;
     _lastLargeZoomState := lastLargeZoomState;
     _globeness := globeness;
     _skipNextAnimation := false;
     _errorMeasurement := _errorMeasurement s;
     _errorCorrectionUsable := _errorCorrectionUsable s;
     _errorMeasurementLastValue := _errorMeasurementLastValue s;
     _errorCorrectionPreviousValue := _errorCorrectionPreviousValue s;
     _errorMeasurementLastChangeTime := _errorMeasurementLastChangeTime s |}.

(** The part of [updateProjection(transform)] that the transition depends
    on; the matrices and the clipping plane it goes on to compute read the
    state and do not write these fields. *)
Definition updateProjection (globeState : bool) (currentTime zoom : Q) (s : State) : State :=
  _updateAnimation globeState currentTime zoom s.

(** [updateGPUdependent(painter)]; [webgl2] says what kind of context the
    painter has, [gl] what it answers in this frame. *)
Definition updateGPUdependent (webgl2 : bool) (gl : ErrorMeasurement.GLFrame) (now : Q)
    (s : State) : State :=
  let em :=
    match _errorMeasurement s with
    | Some em => em
    | None => ErrorMeasurement.initial webgl2
    end in
  let '(em', newValue, _) := ErrorMeasurement.updateErrorLoop gl em in
  let changed := negb (Qeq_bool newValue (_errorMeasurementLastValue s)) in
  let errorCorrectionPreviousValue :=
    if changed then _errorCorrectionUsable s else _errorCorrectionPreviousValue s in
  let errorMeasurementLastValue :=
    if changed then newValue else _errorMeasurementLastValue s in
  let errorMeasurementLastChangeTime :=
    if changed then now else _errorMeasurementLastChangeTime s in
  let sinceUpdateSeconds := ((now - errorMeasurementLastChangeTime) / 1000)%Q in
  let mix := Qmin (Qmax (sinceUpdateSeconds / errorTransitionTimeSeconds) 0) 1 in
  let newCorrection := (- errorMeasurementLastValue)%Q in
  {| _lastGlobeStateEnabled := _lastGlobeStateEnabled s;
     _lastGlobeChangeTime := _lastGlobeChangeTime s;
     _lastLargeZoomStateChange := _lastLargeZoomStateChange s;
     _lastLargeZoomState := _lastLargeZoomState s;
     _globeness := _globeness s;
     _skipNextAnimation := _skipNextAnimation s;
     _errorMeasurement := Some em';
     _errorCorrectionUsable :=
       lerp errorCorrectionPreviousValue newCorrection (smoothStep 0 1 mix);
     _errorMeasurementLastValue := errorMeasurementLastValue;
     _errorCorrectionPreviousValue := errorCorrectionPreviousValue;
     _errorMeasurementLastChangeTime := errorMeasurementLastChangeTime |}.

(** The getter [isRenderingDirty]; [None] is the [TypeError] of reading
    [awaitingQuery] of an undefined [_errorMeasurement], which [||] only
    evaluates when nothing before it made [dirty] true. *)
Definition isRenderingDirty (now : Q) (s : State) : option bool :=
  let dirty := false in
  (* Globe transition *)
  let dirty := dirty ||
    Qltb ((now - _lastGlobeChangeTime s) / 1000)
         (Qmax globeTransitionTimeSeconds zoomTransitionTimeSeconds + 0.2) in
  (* Error correction transition *)
  let dirty := dirty ||
    Qltb ((now - _errorMeasurementLastChangeTime s) / 1000)
         (errorTransitionTimeSeconds + 0.2) in
  (* Error correction query in flight *)
  if dirty then Some true
  else option_map ErrorMeasurement.awaitingQuery (_errorMeasurement s).

(** One rendered frame: the projection is updated, then the GPU dependent
    part. *)
Record Frame := {
  time : Q;
  globeEnabled : bool;
  zoom : Q;
  glFrame : ErrorMeasurement.GLFrame
}.

Definition renderFrame (webgl2 : bool) (f : Frame) (s : State) : State :=
  updateGPUdependent webgl2 (glFrame f) (time f)
    (updateProjection (globeEnabled f) (time f) (zoom f) s).

Definition renderFrames (webgl2 : bool) (frames : list Frame) (s : State) : State :=
  fold_left (fun s f => renderFrame webgl2 f s) frames s.

(** The states after each of a sequence of [updateProjection] calls. *)
Fixpoint updateProjections (calls : list (bool * Q * Q)) (s : State) : list State :=
  match calls with
  | [] => []
  | (globeState, currentTime, zoom) :: rest =>
      let s' := updateProjection globeState currentTime zoom s in
      s' :: updateProjections rest s'
  end.

(** The zoom bound lets the globe through: the view is below
    [maxGlobeZoom], was so at the last update, and the zoom transition has
    run its time. *)
Definition zoomPermitsGlobe (currentTime zoom : Q) (s : State) : Prop :=
  (zoom < maxGlobeZoom)%Q
  /\ _lastLargeZoomState s = false
  /\ (zoomTransitionTimeSeconds * 1000 <= currentTime - _lastLargeZoomStateChange s)%Q.

(** The transitions as the specification speaks of them: one is in
    progress at [now] while the time since it started is less than its
    duration. *)
Definition globeTransitionInProgress (now : Q) (s : State) : Prop :=
  (0 <= now - _lastGlobeChangeTime s < globeTransitionTimeSeconds * 1000)%Q.

Definition zoomTransitionInProgress (now : Q) (s : State) : Prop :=
  (0 <= now - _lastLargeZoomStateChange s < zoomTransitionTimeSeconds * 1000)%Q.

Definition errorTransitionInProgress (now : Q) (s : State) : Prop :=
  (0 <= now - _errorMeasurementLastChangeTime s < errorTransitionTimeSeconds * 1000)%Q.

Definition readbackPending (s : State) : Prop :=
  exists em, _errorMeasurement s = Some em /\ ErrorMeasurement.awaitingQuery em = true.

(** ** The transition factor *)

Lemma clamp01_range (x : Q) : (0 <= Qmin (Qmax x 0) 1 <= 1)%Q.
Proof.
  split.
  - apply Q.min_glb; [apply Q.le_max_r | Lqa.lra].
  - apply Q.le_min_r.
Qed.

Lemma cubic_range (t : Q) : (0 <= t <= 1 -> 0 <= t * t * (3 - 2 * t) <= 1)%Q.
Proof.
  intros [H0 H1]. split.
  - apply Qmult_le_0_compat; [apply Qmult_le_0_compat; assumption | Lqa.lra].
  - assert (H : (0 <= (1 - t) * (1 - t) * (1 + 2 * t))%Q).
    { apply Qmult_le_0_compat; [apply Qmult_le_0_compat|]; Lqa.lra. }
    assert (E : ((1 - t) * (1 - t) * (1 + 2 * t) == 1 - t * t * (3 - 2 * t))%Q) by ring.
    rewrite E in H. Lqa.lra.
Qed.

Lemma smoothStep_range (x : Q) : (0 <= smoothStep 0 1 x <= 1)%Q.
Proof.
  unfold smoothStep, clamp. apply cubic_range, clamp01_range.
Qed.

Lemma clamp01_of (x : Q) :
  (0 <= x <= 1)%Q -> (Qmin (Qmax ((x - 0) / (1 - 0)) 0) 1 == x)%Q.
Proof.
  intros [H0 H1].
  assert (E : ((x - 0) / (1 - 0) == x)%Q) by (field; discriminate).
  rewrite E, Q.max_l, Q.min_l by assumption. reflexivity.
Qed.

Lemma smoothStep_0 (x : Q) : (x == 0)%Q -> (smoothStep 0 1 x == 0)%Q.
Proof.
  intros Hx. unfold smoothStep, clamp.
  rewrite clamp01_of by (rewrite Hx; split; discriminate).
  rewrite Hx. reflexivity.
Qed.

Lemma smoothStep_1 (x : Q) : (x == 1)%Q -> (smoothStep 0 1 x == 1)%Q.
Proof.
  intros Hx. unfold smoothStep, clamp.
  rewrite clamp01_of by (rewrite Hx; split; discriminate).
  rewrite Hx. reflexivity.
Qed.

Lemma updateProjection_range (globeState : bool) (currentTime zoom : Q) (s : State) :
  (0 <= _globeness (updateProjection globeState currentTime zoom s) <= 1)%Q.
Proof.
  unfold updateProjection, _updateAnimation. simpl. apply smoothStep_range.
Qed.

Lemma updateProjections_range (calls : list (bool * Q * Q)) (s : State) :
  Forall (fun s' => (0 <= _globeness s' <= 1)%Q) (updateProjections calls s).
Proof.
  revert s. induction calls as [|[[g t] z] rest IH]; intros s; simpl.
  - constructor.
  - constructor; [apply updateProjection_range | apply IH].
Qed.

(** With the skip flag set and the globe disabled the factor is 0 at once,
    whatever the zoom transition does. *)
Lemma skip_disabled (currentTime zoom : Q) (s : State) :
  _skipNextAnimation s = true ->
  (_globeness (updateProjection false currentTime zoom s) == 0)%Q.
Proof.
  intros Hskip. unfold updateProjection, _updateAnimation. simpl. rewrite Hskip.
  apply smoothStep_0.
  apply Q.min_l.
  destruct (Qle_bool maxGlobeZoom zoom);
    match goal with |- (_ <= ?b)%Q =>
      match b with context [Qmin (Qmax ?x 0) 1] =>
        pose proof (clamp01_range x) end end; Lqa.lra.
Qed.

(** With the skip flag set and the globe enabled the factor is 1 at once,
    as far as the zoom bound permits. *)
Lemma skip_enabled (currentTime zoom : Q) (s : State) :
  _skipNextAnimation s = true ->
  zoomPermitsGlobe currentTime zoom s ->
  (_globeness (updateProjection true currentTime zoom s) == 1)%Q.
Proof.
  intros Hskip (Hzoom & Hlast & Htime).
  unfold updateProjection, _updateAnimation. simpl. rewrite Hskip, Hlast.
  assert (Ez : Qle_bool maxGlobeZoom zoom = false).
  { destruct (Qle_bool maxGlobeZoom zoom) eqn:E; [|reflexivity].
    apply Qle_bool_iff in E. exfalso. apply (Qlt_not_le _ _ Hzoom E). }
  rewrite Ez. simpl.
  apply smoothStep_1.
  unfold zoomTransitionTimeSeconds in *.
  match goal with |- (Qmin 1 (Qmin ?m 1) == 1)%Q =>
    assert (Hb : (Qmin m 1 == 1)%Q) end.
  { apply Q.min_r. apply Q.max_le_iff. left. qlra. }
  rewrite Hb. reflexivity.
Qed.

Lemma updateProjection_clears_skip (globeState : bool) (currentTime zoom : Q) (s : State) :
  _skipNextAnimation (updateProjection globeState currentTime zoom s) = false.
Proof. reflexivity. Qed.

(** Without the zoom bound's permission the enabled globe does not jump to
    1: here the view has just zoomed out across [maxGlobeZoom]. *)
Example skip_enabled_needs_zoom :
  let s := {| _lastGlobeStateEnabled := true;
              _lastGlobeChangeTime := 0;
              _lastLargeZoomStateChange := 0;
              _lastLargeZoomState := true;
              _globeness := 0;
              _skipNextAnimation := true;
              _errorMeasurement := None;
              _errorCorrectionUsable := 0;
              _errorMeasurementLastValue := 0;
              _errorCorrectionPreviousValue := 0;
              _errorMeasurementLastChangeTime := -1000 |} in
  Qeq_bool (_globeness (updateProjection true 5000 3 s)) 0 = true.
Proof. reflexivity. Qed.

(** How far, from 0 to 1, the zoom transition has run at [currentTime]
    since the zoom state last changed, where an update that finds the view
    on the other side of [maxGlobeZoom] starts it anew; and the bound it
    puts on the factor. *)
Definition zoomTransition (currentTime zoom : Q) (s : State) : Q :=
  let currentZoomState := Qle_bool maxGlobeZoom zoom in
  let lastLargeZoomStateChange :=
    if negb (Bool.eqb currentZoomState (_lastLargeZoomState s))
    then currentTime else _lastLargeZoomStateChange s in
  Qmin (Qmax ((currentTime - lastLargeZoomStateChange) / 1000 / zoomTransitionTimeSeconds) 0) 1.

Definition zoomGlobenessBound (currentTime zoom : Q) (s : State) : Q :=
  if Qle_bool maxGlobeZoom zoom
  then (1 - zoomTransition currentTime zoom s)%Q
  else zoomTransition currentTime zoom s.

Lemma smoothStep_compat (a b : Q) : (a == b)%Q -> (smoothStep 0 1 a == smoothStep 0 1 b)%Q.
Proof.
  intros H. unfold smoothStep, clamp. rewrite H. reflexivity.
Qed.

(** With the skip flag set and the globe enabled the factor is the eased
    bound of the zoom transition, whatever that is. *)
Lemma skip_enabled_bound (currentTime zoom : Q) (s : State) :
  _skipNextAnimation s = true ->
  (_globeness (updateProjection true currentTime zoom s)
   == smoothStep 0 1 (zoomGlobenessBound currentTime zoom s))%Q.
Proof.
  intros Hskip. unfold updateProjection, _updateAnimation. simpl. rewrite Hskip.
  apply smoothStep_compat. unfold zoomGlobenessBound, zoomTransition.
  apply Q.min_r.
  destruct (Qle_bool maxGlobeZoom zoom);
    match goal with |- (?b <= _)%Q =>
      match b with context [Qmin (Qmax ?x 0) 1] =>
        pose proof (clamp01_range x) end end; Lqa.lra.
Qed.

(** A view that zooms in across [maxGlobeZoom] and, at 5000 ms, back out
    to zoom 3, after which the host asks to skip the next animation. *)
Definition zoomedBack : State :=
  skipNextProjectionTransitionAnimation
    (updateProjection true 5000 3
       (updateProjection true 4000 13
          (updateProjection true 0 5 (initial 0)))).

(** The update 100 ms later finds the skip flag set, the globe enabled and
    the view at zoom 3, below [maxGlobeZoom], and puts the factor at
    13/125: neither at 1 nor at 0. *)
Lemma skip_enabled_during_zoom_transition :
  _skipNextAnimation zoomedBack = true
  /\ (3 < maxGlobeZoom)%Q
  /\ (_globeness (updateProjection true 5100 3 zoomedBack) == 13 # 125)%Q
  /\ ~ (_globeness (updateProjection true 5100 3 zoomedBack) == 1)%Q
  /\ ~ (_globeness (updateProjection true 5100 3 zoomedBack) == 0)%Q.
Proof.
  split; [reflexivity|]. split; [reflexivity|].
  split; [vm_compute; reflexivity|].
  split; intros H; vm_compute in H; discriminate H.
Qed.

(** ** Redraw requests *)

(** What [isRenderingDirty] does cover: the transition of the enable
    toggle, the smoothing of the error correction, and a pending
    read-back. *)
Lemma isRenderingDirty_covers (now : Q) (s : State) :
  globeTransitionInProgress now s \/ errorTransitionInProgress now s
    \/ readbackPending s ->
  isRenderingDirty now s = Some true.
Proof.
  unfold isRenderingDirty, globeTransitionInProgress, errorTransitionInProgress,
    readbackPending, globeTransitionTimeSeconds, zoomTransitionTimeSeconds,
    errorTransitionTimeSeconds.
  intros [[H0 H1]|[[H0 H1]|(em & Hem & Hq)]].
  - replace (Qltb _ _) with true; [reflexivity|].
    symmetry. apply Qltb_lt.
    rewrite Q.max_l by apply Qle_refl. qlra.
  - match goal with |- context [false || ?a || ?b] =>
      replace b with true; [destruct a; reflexivity|] end.
    symmetry. apply Qltb_lt. qlra.
  - rewrite Hem. simpl. rewrite Hq.
    match goal with |- (if ?c then _ else _) = _ => destruct c; reflexivity end.
Qed.

(** Six frames from the constructor state: the globe is enabled from the
    first frame on at zoom 5, the measured error stays 0, and in the frame
    at 5000 ms the view has zoomed in to 12.5, across [maxGlobeZoom]. *)
Definition quietGL : ErrorMeasurement.GLFrame :=
  {| ErrorMeasurement.waitResult := ErrorMeasurement.ALREADY_SIGNALED;
     ErrorMeasurement.pixels := ErrorMeasurement.zeroBuffer |}.

Definition zoomingFrames : list Frame :=
  [ {| time := 0;    globeEnabled := true; zoom := 5;    glFrame := quietGL |};
    {| time := 1000; globeEnabled := true; zoom := 5;    glFrame := quietGL |};
    {| time := 2000; globeEnabled := true; zoom := 5;    glFrame := quietGL |};
    {| time := 3000; globeEnabled := true; zoom := 5;    glFrame := quietGL |};
    {| time := 4000; globeEnabled := true; zoom := 5;    glFrame := quietGL |};
    {| time := 5000; globeEnabled := true; zoom := 12.5; glFrame := quietGL |} ].

(** C8 (the code misses the zoom transition): 100 ms after the view
    crossed [maxGlobeZoom] the zoom transition is in progress, the next
    update would move the transition factor from 1 to 112/125, and
    [isRenderingDirty] answers false. *)
Theorem isRenderingDirty_misses_zoom_transition :
  let s := renderFrames true zoomingFrames (initial 0) in
  zoomTransitionInProgress 5100 s
  /\ isRenderingDirty 5100 s = Some false
  /\ Qeq_bool (_globeness s) 1 = true
  /\ Qeq_bool (_globeness (updateProjection true 5100 12.5 s)) (112 # 125) = true.
Proof.
  split; [|split; [|split]].
  - unfold zoomTransitionInProgress. vm_compute. split; [discriminate | reflexivity].
  - vm_compute. reflexivity.
  - vm_compute. reflexivity.
  - vm_compute. reflexivity.
Qed.

End ProjectionManager.

(** * The globe transform *)

Module GlobeTransform.

(** [globeConstants] of [./globe], whose values this part of the
    repository does not show. *)
Record GlobeConstants := {
  globeTransitionTimeSeconds : Q;
  zoomTransitionTimeSeconds : Q;
  maxGlobeZoom : Q;
  errorTransitionTimeSeconds : Q
}.

(** The transition fields of [GlobeTransform], and the zoom of the
    transform it extends. *)
Record State := {
  _lastGlobeStateEnabled : bool;
  _lastLargeZoomStateChange : Q;
  _lastLargeZoomState : bool;
  _skipNextAnimation : bool;
  _lastGlobeChangeTime : Q;
  _globeProjectionOverride : bool;
  _globeness : Q;
  zoom : Q
}.

(** The field initialisers of the class. *)
Definition initial (zoom : Q) : State :=
  {| _lastGlobeStateEnabled := true;
     _lastLargeZoomStateChange := -1000;
     _lastLargeZoomState := false;
     _skipNextAnimation := true;
     _lastGlobeChangeTime := -1000;
     _globeProjectionOverride := true;
     _globeness := 1;
     zoom := zoom |}.

Definition setGlobeViewAllowed (allow animateTransition : bool) (s : State) : State :=
  {| _lastGlobeStateEnabled := _lastGlobeStateEnabled s;
     _lastLargeZoomStateChange := _lastLargeZoomStateChange s;
     _lastLargeZoomState := _lastLargeZoomState s;
     _skipNextAnimation :=
       if negb animateTransition && negb (Bool.eqb allow (_globeProjectionOverride s))
       then true else _skipNextAnimation s;
     _lastGlobeChangeTime := _lastGlobeChangeTime s;
     _globeProjectionOverride := allow;
     _globeness := _globeness s;
     zoom := zoom s |}.

Definition setZoom (z : Q) (s : State) : State :=
  {| _lastGlobeStateEnabled := _lastGlobeStateEnabled s;
     _lastLargeZoomStateChange := _lastLargeZoomStateChange s;
     _lastLargeZoomState := _lastLargeZoomState s;
     _skipNextAnimation := _skipNextAnimation s;
     _lastGlobeChangeTime := _lastGlobeChangeTime s;
     _globeProjectionOverride := _globeProjectionOverride s;
     _globeness := _globeness s;
     zoom := z |}.

Section Animation.

Variable globeConstants : GlobeConstants.

(** [easeCubicInOut] of [util/util], which this part of the repository
    does not show; what is assumed of it is stated where it is used. *)
Variable easeCubicInOut : Q -> Q.

(** [_updateAnimation()]; [currentTime] is what [browser.now()] returns. *)
Definition _updateAnimation (currentTime : Q) (s : State) : State :=
  (* Update globe transition animation *)
  let globeState := _globeProjectionOverride s in
  let changed := negb (Bool.eqb globeState (_lastGlobeStateEnabled s)) in
  let lastGlobeChangeTime := if changed then currentTime else _lastGlobeChangeTime s in
  let lastGlobeStateEnabled := if changed then globeState else _lastGlobeStateEnabled s in
  let globeTransition :=
    Qmin (Qmax ((currentTime - lastGlobeChangeTime) / 1000
                / globeTransitionTimeSeconds globeConstants) 0) 1 in
  let globeness := if globeState then globeTransition else (1 - globeTransition)%Q in
  let skip := _skipNextAnimation s in
  let globeness := if skip then (if globeState then 1%Q else 0%Q) else globeness in
  let lastGlobeChangeTime :=
    if skip then (currentTime - globeTransitionTimeSeconds globeConstants * 1000 * 2)%Q
    else lastGlobeChangeTime in
  (* Update globe zoom transition *)
  let currentZoomState := Qle_bool (maxGlobeZoom globeConstants) (zoom s) in
  let zoomChanged := negb (Bool.eqb currentZoomState (_lastLargeZoomState s)) in
  let lastLargeZoomState := if zoomChanged then currentZoomState else _lastLargeZoomState s in
  let lastLargeZoomStateChange :=
    if zoomChanged then currentTime else _lastLargeZoomStateChange s in
  let zoomTransition :=
    Qmin (Qmax ((currentTime - lastLargeZoomStateChange) / 1000
                / zoomTransitionTimeSeconds globeConstants) 0) 1 in
  let zoomGlobenessBound :=
    if currentZoomState then (1 - zoomTransition)%Q else zoomTransition in
  let globeness := Qmin globeness zoomGlobenessBound in
  let globeness := easeCubicInOut globeness in
  {| _lastGlobeStateEnabled := lastGlobeStateEnabled;
     _lastLargeZoomStateChange := lastLargeZoomStateChange;
     _lastLargeZoomState := lastLargeZoomState;
     _skipNextAnimation := false;
     _lastGlobeChangeTime := lastGlobeChangeTime;
     _globeProjectionOverride := _globeProjectionOverride s;
     _globeness := globeness;
     zoom := zoom s |}.

Definition isRenderingDirty (now : Q) (s : State) : bool :=
  Qltb ((now - _lastGlobeChangeTime s) / 1000)
       (Qmax (globeTransitionTimeSeconds globeConstants)
             (zoomTransitionTimeSeconds globeConstants) + 0.2).

(** What the host does between two updates: it may toggle the globe, with
    or without animation, and change the zoom. *)
Record Call := {
  allow : bool;
  animateTransition : bool;
  newZoom : Q;
  currentTime : Q
}.

Definition updateAfter (c : Call) (s : State) : State :=
  _updateAnimation (currentTime c)
    (setZoom (newZoom c) (setGlobeViewAllowed (allow c) (animateTransition c) s)).

Fixpoint updates (calls : list Call) (s : State) : list State :=
  match calls with
  | [] => []
  | c :: rest => let s' := updateAfter c s in s' :: updates rest s'
  end.

(** The transitions take time: the durations the updates divide by are
    positive. *)
Definition positiveTimes : Prop :=
  (0 < globeTransitionTimeSeconds globeConstants)%Q
  /\ (0 < zoomTransitionTimeSeconds globeConstants)%Q.

(** The zoom bound lets the globe through: the view is below
    [maxGlobeZoom], was so at the last update, and the zoom transition has
    run its time. *)
Definition zoomPermitsGlobe (now : Q) (s : State) : Prop :=
  (zoom s < maxGlobeZoom globeConstants)%Q
  /\ _lastLargeZoomState s = false
  /\ (zoomTransitionTimeSeconds globeConstants * 1000
      <= now - _lastLargeZoomStateChange s)%Q.

(** What the name of the easing promises: it maps the unit interval into
    itself, keeps its end points, and is a function of the number. *)
Definition easing : Prop :=
  (forall t, (0 <= t <= 1)%Q -> (0 <= easeCubicInOut t <= 1)%Q)
  /\ (forall t, (t == 0)%Q -> (easeCubicInOut t == 0)%Q)
  /\ (forall t, (t == 1)%Q -> (easeCubicInOut t == 1)%Q).

Lemma bound_range (b : bool) (x : Q) :
  (0 <= (if b then 1 - Qmin (Qmax x 0) 1 else Qmin (Qmax x 0) 1) <= 1)%Q.
Proof.
  pose proof (ProjectionManager.clamp01_range x). destruct b; Lqa.lra.
Qed.

Lemma transition_range (b : bool) (x : Q) :
  (0 <= (if b then Qmin (Qmax x 0) 1 else 1 - Qmin (Qmax x 0) 1) <= 1)%Q.
Proof.
  pose proof (ProjectionManager.clamp01_range x). destruct b; Lqa.lra.
Qed.

Lemma Qmin_range (a b : Q) :
  (0 <= a <= 1)%Q -> (0 <= b <= 1)%Q -> (0 <= Qmin a b <= 1)%Q.
Proof.
  intros [Ha0 Ha1] [Hb0 Hb1]. split.
  - apply Q.min_glb; assumption.
  - eapply Qle_trans; [apply Q.le_min_l | assumption].
Qed.

Lemma _updateAnimation_range (now : Q) (s : State) :
  easing -> (0 <= _globeness (_updateAnimation now s) <= 1)%Q.
Proof.
  intros (Hrange & _ & _). unfold _updateAnimation. simpl.
  apply Hrange. apply Qmin_range; [|apply bound_range].
  destruct (_skipNextAnimation s).
  - destruct (_globeProjectionOverride s); split; discriminate.
  - apply transition_range.
Qed.

Lemma updates_range (calls : list Call) (s : State) :
  easing -> Forall (fun s' => (0 <= _globeness s' <= 1)%Q) (updates calls s).
Proof.
  intros He. revert s. induction calls as [|c rest IH]; intros s; simpl.
  - constructor.
  - constructor; [apply _updateAnimation_range, He | apply IH].
Qed.

Lemma easing_skip_disabled (now : Q) (s : State) :
  easing ->
  _skipNextAnimation s = true ->
  _globeProjectionOverride s = false ->
  (_globeness (_updateAnimation now s) == 0)%Q.
Proof.
  intros (_ & H0 & _) Hskip Hoff. unfold _updateAnimation. simpl.
  rewrite Hskip, Hoff. apply H0. apply Q.min_l.
  match goal with |- (_ <= (if ?b then 1 - Qmin (Qmax ?x 0) 1 else _))%Q =>
    apply (bound_range b x) end.
Qed.

Lemma easing_skip_enabled (now : Q) (s : State) :
  easing -> positiveTimes ->
  _skipNextAnimation s = true ->
  _globeProjectionOverride s = true ->
  zoomPermitsGlobe now s ->
  (_globeness (_updateAnimation now s) == 1)%Q.
Proof.
  intros (_ & _ & H1) (_ & Hpos) Hskip Hon (Hzoom & Hlast & Htime).
  unfold _updateAnimation. simpl. rewrite Hskip, Hon, Hlast.
  assert (Ez : Qle_bool (maxGlobeZoom globeConstants) (zoom s) = false).
  { destruct (Qle_bool (maxGlobeZoom globeConstants) (zoom s)) eqn:E; [|reflexivity].
    apply Qle_bool_iff in E. exfalso. apply (Qlt_not_le _ _ Hzoom E). }
  rewrite Ez. simpl. apply H1.
  match goal with |- (Qmin 1 (Qmin ?m 1) == 1)%Q =>
    assert (Hb : (Qmin m 1 == 1)%Q) end.
  { apply Q.min_r. apply Q.max_le_iff. left.
    apply Qle_shift_div_l; [exact Hpos|].
    apply Qle_shift_div_l; [reflexivity|].
    rewrite Qmult_1_l. exact Htime. }
  rewrite Hb. reflexivity.
Qed.

End Animation.

(** ** The clipping plane *)

(** How a call ends: it returns, or it throws an [Error] with a message. *)
Inductive Completion (A : Type) :=
| Normal (a : A)
| Throw (message : String.string).

Arguments Normal {A} a.
Arguments Throw {A} message.

Definition bind {A B : Type} (c : Completion A) (k : A -> Completion B) : Completion B :=
  match c with
  | Normal a => k a
  | Throw message => Throw message
  end.

Section Errors.

Import String.

(** The message of the [Error] that the placeholders of the class throw. *)
Definition notImplemented : string := "Method not implemented.".

End Errors.

Section ClippingPlane.

#[local] Open Scope R_scope.

Definition vec3 : Type := R * R * R.
Definition vec4 : Type := R * R * R * R.

(** [vec3.rotateX], [vec3.rotateY], [vec3.rotateZ] and [vec3.scale] of
    gl-matrix: the rotation of [a] around the axis through [b]. *)
Definition rotateX (a b : vec3) (rad : R) : vec3 :=
  let '(a0, a1, a2) := a in
  let '(b0, b1, b2) := b in
  let p0 := a0 - b0 in
  let p1 := a1 - b1 in
  let p2 := a2 - b2 in
  let r0 := p0 in
  let r1 := p1 * cos rad - p2 * sin rad in
  let r2 := p1 * sin rad + p2 * cos rad in
  (r0 + b0, r1 + b1, r2 + b2).

Definition rotateY (a b : vec3) (rad : R) : vec3 :=
  let '(a0, a1, a2) := a in
  let '(b0, b1, b2) := b in
  let p0 := a0 - b0 in
  let p1 := a1 - b1 in
  let p2 := a2 - b2 in
  let r0 := p2 * sin rad + p0 * cos rad in
  let r1 := p1 in
  let r2 := p2 * cos rad - p0 * sin rad in
  (r0 + b0, r1 + b1, r2 + b2).

Definition rotateZ (a b : vec3) (rad : R) : vec3 :=
  let '(a0, a1, a2) := a in
  let '(b0, b1, b2) := b in
  let p0 := a0 - b0 in
  let p1 := a1 - b1 in
  let p2 := a2 - b2 in
  let r0 := p0 * cos rad - p1 * sin rad in
  let r1 := p0 * sin rad + p1 * cos rad in
  let r2 := p2 in
  (r0 + b0, r1 + b1, r2 + b2).

Definition scale3 (a : vec3) (b : R) : vec3 :=
  let '(a0, a1, a2) := a in (a0 * b, a1 * b, a2 * b).

(** What the clipping plane reads of a transform: [pitch] and the center
    in degrees, [angle] in radians, the size of the world, and the getter
    [cameraToCenterDistance] with the way its call ends. *)
Record Transform := {
  pitch : R;
  angle : R;
  centerLng : R;
  centerLat : R;
  worldSize : R;
  cameraToCenterDistance : Completion R
}.

(** The transform of this class: [get cameraToCenterDistance()] is
    overridden by [throw new Error('Method not implemented.')]. *)
Definition globeTransform (pitch angle centerLng centerLat worldSize : R) : Transform :=
  {| pitch := pitch;
     angle := angle;
     centerLng := centerLng;
     centerLat := centerLat;
     worldSize := worldSize;
     cameraToCenterDistance := Throw notImplemented |}.

(** A transform whose getter returns the distance it stores, as that of
    [MercatorTransform] does. *)
Definition mercatorTransform (pitch angle centerLng centerLat worldSize
    _cameraToCenterDistance : R) : Transform :=
  {| pitch := pitch;
     angle := angle;
     centerLng := centerLng;
     centerLat := centerLat;
     worldSize := worldSize;
     cameraToCenterDistance := Normal _cameraToCenterDistance |}.

Definition _computeClippingPlane (t : Transform) (globeRadiusPixels : R)
    : Completion vec4 :=
  let pitch := pitch t * PI / 180 in
  (* scale things so that the globe radius is 1 *)
  bind (cameraToCenterDistance t) (fun cameraToCenterDistance =>
  let distanceCameraToB := cameraToCenterDistance / globeRadiusPixels in
  let radius := 1 in
  (* Distance from camera to "A" *)
  let distanceCameraToA := sin pitch * distanceCameraToB in
  (* Distance from "A" to "C" *)
  let distanceAtoC := cos pitch * distanceCameraToB + radius in
  (* Distance from camera to "C" - the globe center *)
  let distanceCameraToC :=
    sqrt (distanceCameraToA * distanceCameraToA + distanceAtoC * distanceAtoC) in
  (* cam - C - T angle cosine (at C) *)
  let camCTcosine := radius / distanceCameraToC in
  (* Distance from globe center to the plane defined by all possible "T" points *)
  let tangentPlaneDistanceToC := camCTcosine * radius in
  let vectorCtoCamX := - distanceCameraToA in
  let vectorCtoCamY := distanceAtoC in
  (* Normalize the vector *)
  let vectorCtoCamLength :=
    sqrt (vectorCtoCamX * vectorCtoCamX + vectorCtoCamY * vectorCtoCamY) in
  let vectorCtoCamX := vectorCtoCamX / vectorCtoCamLength in
  let vectorCtoCamY := vectorCtoCamY / vectorCtoCamLength in
  (* Note the swizzled components *)
  let planeVector : vec3 := (0, vectorCtoCamX, vectorCtoCamY) in
  (* Apply transforms - lat, lng and angle *)
  let planeVector := rotateZ planeVector (0, 0, 0) (angle t) in
  let planeVector := rotateX planeVector (0, 0, 0) (-1 * centerLat t * PI / 180) in
  let planeVector := rotateY planeVector (0, 0, 0) (centerLng t * PI / 180) in
  (* Scale the plane vector up *)
  let scale := 0.25 in
  let '(n0, n1, n2) := scale3 planeVector scale in
  Normal (n0, n1, n2, - tangentPlaneDistanceToC * scale)).

(** The plane [updateProjection] assigns to [_cachedClippingPlane].  The
    globe matrix it builds before reads [cameraToCenterDistance] for the
    far plane of [mat4.perspective] and for [mat4.translate]; the plane
    does not depend on the matrix. *)
Definition updateProjection (t : Transform) : Completion vec4 :=
  let globeRadiusPixels := worldSize t / (2 * PI) / cos (centerLat t * PI / 180) in
  bind (cameraToCenterDistance t) (fun _ =>
  bind (cameraToCenterDistance t) (fun _ =>
  _computeClippingPlane t globeRadiusPixels)).

(** The field initialiser of [_cachedClippingPlane]. *)
Definition initialClippingPlane : vec4 := (1, 0, 0, 0).

(** [_cachedClippingPlane] after a call of [updateProjection]: the
    assignment is its last statement. *)
Definition cachedAfter (t : Transform) (_cachedClippingPlane : vec4) : vec4 :=
  match updateProjection t with
  | Normal plane => plane
  | Throw _ => _cachedClippingPlane
  end.

(** [EXTENT] of [data/extent] and [mod] of [util/util] (here [mod_]), which this part of
    the repository does not show. *)
Variable EXTENT : R.
Variable mod_ : R -> R -> R.

(** The canonical part of an [UnwrappedTileID]. *)
Record CanonicalTileID := {
  z : Z;
  x : Z;
  y : Z
}.

Definition _tileCoordinatesToMercatorCoordinates (inTileX inTileY : R)
    (tileID : CanonicalTileID) : R * R :=
  let scale := 1 / IZR (shl 1 (z tileID)) in
  (inTileX / EXTENT * scale + IZR (x tileID) * scale,
   inTileY / EXTENT * scale + IZR (y tileID) * scale).

Definition _mercatorCoordinatesToAngularCoordinates (mercatorX mercatorY : R) : R * R :=
  let sphericalX := mod_ (mercatorX * PI * 2 + PI) (PI * 2) in
  let sphericalY := 2 * atan (exp (PI - mercatorY * PI * 2)) - PI * 0.5 in
  (sphericalX, sphericalY).

Definition _angularCoordinatesToVector (lngRadians latRadians : R) : vec3 :=
  let len := cos latRadians in
  (sin lngRadians * len, sin latRadians, cos lngRadians * len).

Definition _projectTileCoordinatesToSphere (inTileX inTileY : R)
    (tileID : CanonicalTileID) : vec3 :=
  let mercator := _tileCoordinatesToMercatorCoordinates inTileX inTileY tileID in
  let angular := _mercatorCoordinatesToAngularCoordinates (fst mercator) (snd mercator) in
  let sphere := _angularCoordinatesToVector (fst angular) (snd angular) in
  sphere.

(** [dot(position on sphere, occlusion plane equation)] *)
Definition planeDot (plane : vec4) (spherePos : vec3) : R :=
  let '(p0, p1, p2, p3) := plane in
  let '(s0, s1, s2) := spherePos in
  p0 * s0 + p1 * s1 + p2 * s2 + p3.

Definition isOccluded (_cachedClippingPlane : vec4) (x y : R)
    (unwrappedTileID : CanonicalTileID) : bool :=
  let spherePos := _projectTileCoordinatesToSphere x y unwrappedTileID in
  let plane := _cachedClippingPlane in
  let dotResult := planeDot plane spherePos in
  if Rlt_dec dotResult 0 then true else false.

(** ** What the properties speak of *)

(** The point of the unit sphere at the map center, and the point
    opposite to it. *)
Definition centerOnSphere (t : Transform) : vec3 :=
  _angularCoordinatesToVector (centerLng t * PI / 180) (centerLat t * PI / 180).

Definition antipode (p : vec3) : vec3 :=
  let '(p0, p1, p2) := p in (- p0, - p1, - p2).

(** The tile of the whole world, and the coordinates in it of a longitude
    and a latitude in degrees: their web mercator coordinates, scaled by
    [EXTENT]. *)
Definition worldTile : CanonicalTileID := {| z := 0; x := 0; y := 0 |}.

Definition worldTileCoordinates (lng lat : R) : R * R :=
  (EXTENT * ((180 + lng) / 360),
   EXTENT * ((180 - 180 / PI * ln (tan (PI / 4 + lat * PI / 360))) / 360)).

(** A view the transform can have, from a camera whose distance the
    getter returns: the center is off the poles, the pitch is below 90
    degrees, and the camera is off the surface of a world of positive
    size. *)
Definition validCamera (t : Transform) (distance : R) : Prop :=
  -90 < centerLat t < 90
  /\ 0 <= pitch t < 90
  /\ cameraToCenterDistance t = Normal distance
  /\ 0 < distance
  /\ 0 < worldSize t.

(** What is assumed of [mod]: its result differs from its first argument
    by a whole multiple of the second. *)
Definition modWraps : Prop :=
  forall a m, exists k : Z, mod_ a m = a + IZR k * m.

(** ** The getter that throws *)

Lemma updateProjection_throws (pitch angle centerLng centerLat worldSize : R) :
  updateProjection (globeTransform pitch angle centerLng centerLat worldSize)
  = Throw notImplemented.
Proof. reflexivity. Qed.

Lemma cachedAfter_throws (pitch angle centerLng centerLat worldSize : R) (plane : vec4) :
  cachedAfter (globeTransform pitch angle centerLng centerLat worldSize) plane = plane.
Proof. reflexivity. Qed.

(** ** The plane of a getter that returns *)

(** The rotations by bearing, latitude and longitude carry the last
    component of the plane vector onto the direction of the center. *)
Lemma rotated_dot_center (q0 q1 q2 sphi cphi slam clam : R) :
  sphi * sphi + cphi * cphi = 1 ->
  slam * slam + clam * clam = 1 ->
  let r0 := q0 in
  let r1 := q1 * cphi + q2 * sphi in
  let r2 := - q1 * sphi + q2 * cphi in
  (r2 * slam + r0 * clam) * (slam * cphi) + r1 * sphi
  + (r2 * clam - r0 * slam) * (clam * cphi) = q2.
Proof.
  intros Hphi Hlam. cbv zeta.
  transitivity (q2 * (sphi * sphi + cphi * cphi)
                + cphi * (- q1 * sphi + q2 * cphi) * (slam * slam + clam * clam - 1)).
  - ring.
  - rewrite Hphi, Hlam. ring.
Qed.

Lemma sin_cos_square (a : R) : sin a * sin a + cos a * cos a = 1.
Proof.
  pose proof (sin2_cos2 a) as H. unfold Rsqr in H. exact H.
Qed.

Lemma cos_degrees_pos (deg : R) : -90 < deg < 90 -> 0 < cos (deg * PI / 180).
Proof.
  intros [Hlo Hhi]. pose proof PI_RGT_0 as Hpi.
  apply cos_gt_0; nra.
Qed.

(** The value of the plane at the center and at its antipode, in terms of
    the distances of the construction. *)
Lemma plane_at_center (t : Transform) (distance globeRadius : R) :
  cameraToCenterDistance t = Normal distance ->
  let p := pitch t * PI / 180 in
  let d := distance / globeRadius in
  let A := sin p * d in
  let C := cos p * d + 1 in
  let L := sqrt (A * A + C * C) in
  0 < L ->
  exists plane,
    _computeClippingPlane t globeRadius = Normal plane
    /\ planeDot plane (centerOnSphere t) = 0.25 * ((C - 1) / L)
    /\ planeDot plane (antipode (centerOnSphere t)) = - (0.25 * ((C + 1) / L)).
Proof.
  intros Hget p d A C L HL.
  unfold _computeClippingPlane. rewrite Hget. cbn [bind].
  eexists. split; [reflexivity|].
  unfold planeDot, centerOnSphere, antipode,
    _angularCoordinatesToVector, rotateX, rotateY, rotateZ, scale3.
  fold p. fold d. fold A. fold C.
  replace (- A * - A + C * C) with (A * A + C * C) by ring.
  fold L.
  replace (-1 * centerLat t * PI / 180) with (- (centerLat t * PI / 180)) by (unfold Rdiv; ring).
  rewrite cos_neg, sin_neg.
  set (phi := centerLat t * PI / 180).
  set (lam := centerLng t * PI / 180).
  pose proof (rotated_dot_center
                (0 * cos (angle t) - (- A / L) * sin (angle t))
                (0 * sin (angle t) + (- A / L) * cos (angle t))
                (C / L) (sin phi) (cos phi) (sin lam) (cos lam)
                (sin_cos_square phi) (sin_cos_square lam)) as Hdot.
  cbv zeta in Hdot.
  split.
  - match type of Hdot with ?lhs = _ =>
      transitivity (0.25 * lhs - 0.25 * (1 / L)) end.
    + unfold Rdiv. ring.
    + rewrite Hdot. unfold Rdiv. ring.
  - match type of Hdot with ?lhs = _ =>
      transitivity (- (0.25 * lhs) - 0.25 * (1 / L)) end.
    + unfold Rdiv. ring.
    + rewrite Hdot. unfold Rdiv. ring.
Qed.

(** Whole turns do not change the sine and the cosine. *)
Lemma sin_cos_turns (a : R) (k : Z) :
  sin (a + IZR k * (PI * 2)) = sin a /\ cos (a + IZR k * (PI * 2)) = cos a.
Proof.
  destruct (Z_le_gt_dec 0 k) as [Hk|Hk].
  - replace (a + IZR k * (PI * 2)) with (a + 2 * INR (Z.to_nat k) * PI).
    + split; [apply sin_period | apply cos_period].
    + rewrite INR_IZR_INZ, Z2Nat.id by exact Hk. ring.
  - set (b := a + IZR k * (PI * 2)).
    replace a with (b + 2 * INR (Z.to_nat (- k)) * PI).
    + split; symmetry; [apply sin_period | apply cos_period].
    + unfold b. rewrite INR_IZR_INZ, Z2Nat.id by lia. rewrite opp_IZR. ring.
Qed.

(** The coordinates of a longitude and a latitude in the tile of the
    world project to their point of the sphere. *)
Lemma worldTileCoordinates_project (lng lat : R) :
  EXTENT <> 0 -> modWraps -> -90 < lat < 90 ->
  _projectTileCoordinatesToSphere (fst (worldTileCoordinates lng lat))
                                  (snd (worldTileCoordinates lng lat)) worldTile
  = _angularCoordinatesToVector (lng * PI / 180) (lat * PI / 180).
Proof.
  intros Hextent Hmod [Hlo Hhi]. pose proof PI_RGT_0 as Hpi.
  unfold _projectTileCoordinatesToSphere, _mercatorCoordinatesToAngularCoordinates,
    _tileCoordinatesToMercatorCoordinates, worldTileCoordinates, worldTile.
  cbn [fst snd z x y].
  replace (shl 1 0) with 1%Z by (vm_compute; reflexivity).
  set (L := ln (tan (PI / 4 + lat * PI / 360))).
  replace (EXTENT * ((180 + lng) / 360) / EXTENT * (1 / 1) + 0 * (1 / 1))
    with ((180 + lng) / 360) by (field; exact Hextent).
  replace (EXTENT * ((180 - 180 / PI * L) / 360) / EXTENT * (1 / 1) + 0 * (1 / 1))
    with ((180 - 180 / PI * L) / 360) by (field; split; [lra | exact Hextent]).
  replace (PI - (180 - 180 / PI * L) / 360 * PI * 2) with L by (field; lra).
  assert (Hangle : 0 < PI / 4 + lat * PI / 360 < PI / 2) by (split; nra).
  unfold L. rewrite exp_ln by (apply tan_gt_0; lra).
  rewrite atan_tan by lra.
  replace (2 * (PI / 4 + lat * PI / 360) - PI * 0.5) with (lat * PI / 180) by lra.
  destruct (Hmod ((180 + lng) / 360 * PI * 2 + PI) (PI * 2)) as [k ->].
  replace ((180 + lng) / 360 * PI * 2 + PI + IZR k * (PI * 2))
    with (lng * PI / 180 + IZR (k + 1) * (PI * 2)) by (rewrite plus_IZR; field).
  unfold _angularCoordinatesToVector.
  destruct (sin_cos_turns (lng * PI / 180) (k + 1)) as [-> ->].
  reflexivity.
Qed.

(** For a valid view whose getter returns, the clipping plane
    [updateProjection] computes is positive at the point of the unit
    sphere at the map center and negative at its antipode; the
    coordinates of the center in the tile of the world project to the
    former and are not occluded, those of the opposite longitude and
    latitude project to the latter and are occluded. *)
Theorem clipping_plane_faces_camera (t : Transform) (distance : R) :
  validCamera t distance -> EXTENT <> 0 -> modWraps ->
  exists plane,
    updateProjection t = Normal plane
    /\ 0 < planeDot plane (centerOnSphere t)
    /\ planeDot plane (antipode (centerOnSphere t)) < 0
    /\ (let c := worldTileCoordinates (centerLng t) (centerLat t) in
        _projectTileCoordinatesToSphere (fst c) (snd c) worldTile = centerOnSphere t
        /\ isOccluded plane (fst c) (snd c) worldTile = false)
    /\ (let a := worldTileCoordinates (centerLng t + 180) (- centerLat t) in
        _projectTileCoordinatesToSphere (fst a) (snd a) worldTile
        = antipode (centerOnSphere t)
        /\ isOccluded plane (fst a) (snd a) worldTile = true).
Proof.
  intros (Hlat & Hpitch & Hget & Hdist & Hworld) Hextent Hmod.
  assert (Hcoslat : 0 < cos (centerLat t * PI / 180))
    by now apply cos_degrees_pos.
  assert (Hcosp : 0 < cos (pitch t * PI / 180))
    by (apply cos_degrees_pos; lra).
  pose proof PI_RGT_0 as Hpi.
  set (globeRadiusPixels := worldSize t / (2 * PI) / cos (centerLat t * PI / 180)).
  assert (Hradius : 0 < globeRadiusPixels).
  { unfold globeRadiusPixels.
    apply Rdiv_lt_0_compat; [apply Rdiv_lt_0_compat; lra | assumption]. }
  set (d := distance / globeRadiusPixels).
  assert (Hd : 0 < d) by now apply Rdiv_lt_0_compat.
  set (C := cos (pitch t * PI / 180) * d + 1).
  set (A := sin (pitch t * PI / 180) * d).
  assert (HC : 1 < C) by (unfold C; nra).
  assert (HL : 0 < sqrt (A * A + C * C)) by (apply sqrt_lt_R0; nra).
  destruct (plane_at_center t distance globeRadiusPixels Hget HL)
    as (plane & Hplane & Hcenter & Hanti).
  fold d in Hcenter, Hanti. fold C in Hcenter, Hanti. fold A in Hcenter, Hanti.
  assert (Hpos : 0 < planeDot plane (centerOnSphere t)).
  { rewrite Hcenter.
    apply Rmult_lt_0_compat; [lra|]. apply Rdiv_lt_0_compat; lra. }
  assert (Hneg : planeDot plane (antipode (centerOnSphere t)) < 0).
  { rewrite Hanti.
    assert (0 < 0.25 * ((C + 1) / sqrt (A * A + C * C))); [|lra].
    apply Rmult_lt_0_compat; [lra|]. apply Rdiv_lt_0_compat; lra. }
  exists plane. split; [|split; [exact Hpos | split; [exact Hneg | split]]].
  - unfold updateProjection. rewrite Hget. cbn [bind]. exact Hplane.
  - cbv zeta.
    assert (E : _projectTileCoordinatesToSphere
                  (fst (worldTileCoordinates (centerLng t) (centerLat t)))
                  (snd (worldTileCoordinates (centerLng t) (centerLat t))) worldTile
                = centerOnSphere t)
      by now apply worldTileCoordinates_project.
    split; [exact E|]. unfold isOccluded. rewrite E.
    destruct (Rlt_dec _ 0) as [Hlt|_]; [lra | reflexivity].
  - cbv zeta.
    assert (E : _projectTileCoordinatesToSphere
                  (fst (worldTileCoordinates (centerLng t + 180) (- centerLat t)))
                  (snd (worldTileCoordinates (centerLng t + 180) (- centerLat t))) worldTile
                = antipode (centerOnSphere t)).
    { rewrite worldTileCoordinates_project by (assumption || lra).
      unfold centerOnSphere, antipode, _angularCoordinatesToVector.
      replace ((centerLng t + 180) * PI / 180) with (centerLng t * PI / 180 + PI) by field.
      replace (- centerLat t * PI / 180) with (- (centerLat t * PI / 180)) by field.
      rewrite neg_sin, neg_cos, sin_neg, cos_neg.
      f_equal; [f_equal|]; ring. }
    split; [exact E|]. unfold isOccluded. rewrite E.
    destruct (Rlt_dec _ 0) as [_|Hge]; [reflexivity | contradiction].
Qed.

(** ** The plane the class is left with *)

(** A view of this class centered on the equator at 90 degrees west. *)
Definition westView : Transform := globeTransform 0 0 (-90) 0 512.

(** C4 (the code never computes the plane): in this class the getter
    [cameraToCenterDistance] throws, so [updateProjection] throws for
    every view before it assigns a clipping plane, and the plane of the
    field initialiser stays.  For the view centered on the equator at 90
    degrees west the coordinates of the map center project to the point
    of the sphere that faces the camera, and [isOccluded] answers true
    for them. *)
Theorem clipping_plane_not_computed :
  EXTENT <> 0 -> modWraps ->
  (forall pitch angle centerLng centerLat worldSize,
     updateProjection (globeTransform pitch angle centerLng centerLat worldSize)
     = Throw notImplemented)
  /\ (forall pitch angle centerLng centerLat worldSize plane,
        cachedAfter (globeTransform pitch angle centerLng centerLat worldSize) plane
        = plane)
  /\ (let c := worldTileCoordinates (centerLng westView) (centerLat westView) in
      _projectTileCoordinatesToSphere (fst c) (snd c) worldTile = centerOnSphere westView
      /\ planeDot (cachedAfter westView initialClippingPlane) (centerOnSphere westView) = -1
      /\ isOccluded (cachedAfter westView initialClippingPlane) (fst c) (snd c) worldTile
         = true).
Proof.
  intros Hextent Hmod. split; [|split].
  - intros. reflexivity.
  - intros. reflexivity.
  - cbv zeta.
    assert (E : _projectTileCoordinatesToSphere
                  (fst (worldTileCoordinates (centerLng westView) (centerLat westView)))
                  (snd (worldTileCoordinates (centerLng westView) (centerLat westView)))
                  worldTile
                = centerOnSphere westView).
    { apply worldTileCoordinates_project; [assumption | assumption |].
      unfold westView, globeTransform. simpl. lra. }
    assert (Hdot : planeDot (cachedAfter westView initialClippingPlane)
                     (centerOnSphere westView) = -1).
    { unfold cachedAfter, westView, globeTransform, updateProjection, initialClippingPlane,
        planeDot, centerOnSphere, _angularCoordinatesToVector.
      cbn [bind cameraToCenterDistance centerLng centerLat].
      replace (-90 * PI / 180) with (- (PI / 2)) by field.
      replace (0 * PI / 180) with 0 by field.
      rewrite sin_neg, sin_PI2, cos_0, sin_0. ring. }
    split; [exact E|]. split; [exact Hdot|].
    unfold isOccluded. rewrite E, Hdot.
    destruct (Rlt_dec (-1) 0) as [_|Hge]; [reflexivity | lra].
Qed.

End ClippingPlane.

(** The view of a camera over the equator looking straight down, from a
    transform whose getter returns. *)
Definition equatorCamera : Transform := mercatorTransform 0 0 0 0 512 1.

Lemma modWraps_identity : modWraps (fun a _ => a).
Proof.
  intros a m. exists 0%Z. lra.
Qed.

Lemma clipping_plane_faces_camera_witness :
  validCamera equatorCamera 1
  /\ exists plane,
       updateProjection equatorCamera = Normal plane
       /\ (0 < planeDot plane (centerOnSphere equatorCamera))%R
       /\ isOccluded 8192 (fun a _ => a) plane
            (fst (worldTileCoordinates 8192 0 0)) (snd (worldTileCoordinates 8192 0 0))
            worldTile = false.
Proof.
  assert (H : validCamera equatorCamera 1)
    by (unfold validCamera; simpl; repeat split; lra || reflexivity).
  split; [exact H|].
  assert (Hextent : (8192 <> 0)%R) by lra.
  destruct (clipping_plane_faces_camera 8192 (fun a _ => a) equatorCamera 1 H Hextent
              modWraps_identity)
    as (plane & Hplane & Hcenter & _ & [_ Hvisible] & _).
  exists plane. split; [exact Hplane|]. split; [exact Hcenter | exact Hvisible].
Defined.

Lemma clipping_plane_not_computed_witness :
  (8192 <> 0)%R
  /\ updateProjection westView = Throw notImplemented
  /\ isOccluded 8192 (fun a _ => a) (cachedAfter westView initialClippingPlane)
       (fst (worldTileCoordinates 8192 (centerLng westView) (centerLat westView)))
       (snd (worldTileCoordinates 8192 (centerLng westView) (centerLat westView)))
       worldTile = true.
Proof.
  assert (Hextent : (8192 <> 0)%R) by lra.
  split; [exact Hextent|].
  destruct (clipping_plane_not_computed 8192 (fun a _ => a) Hextent modWraps_identity)
    as (Hthrows & _ & _ & _ & Hoccluded).
  split; [apply Hthrows | exact Hoccluded].
Defined.

End GlobeTransform.

(** The easing of the projection manager is one. *)
Lemma smoothStep_easing :
  GlobeTransform.easing (ProjectionManager.smoothStep 0 1).
Proof.
  split; [|split].
  - intros t _. apply ProjectionManager.smoothStep_range.
  - apply ProjectionManager.smoothStep_0.
  - apply ProjectionManager.smoothStep_1.
Qed.

(** C5, amended: through any sequence of updates, with the globe toggled
    and the zoom changed at will, the transition factor stays in [0, 1];
    and the update that finds the skip flag set clears it and puts the
    factor at 0 when the globe is disabled, and when it is enabled at the
    eased bound of the zoom transition, which is 1 when the view is below
    [maxGlobeZoom], was so at the last update, and the zoom transition has
    run its time.  This holds of the projection manager, and of the globe
    transform for every easing and all positive transition times. *)
Theorem globeness_in_unit_interval :
  (forall calls s,
     Forall (fun s' => (0 <= ProjectionManager._globeness s' <= 1)%Q)
            (ProjectionManager.updateProjections calls s))
  /\ (forall globeState now zoom s,
       ProjectionManager._skipNextAnimation s = true ->
       let s' := ProjectionManager.updateProjection globeState now zoom s in
       (globeState = false -> (ProjectionManager._globeness s' == 0)%Q)
       /\ (globeState = true ->
           (ProjectionManager._globeness s'
            == ProjectionManager.smoothStep 0 1
                 (ProjectionManager.zoomGlobenessBound now zoom s))%Q)
       /\ (globeState = true -> ProjectionManager.zoomPermitsGlobe now zoom s ->
           (ProjectionManager._globeness s' == 1)%Q)
       /\ ProjectionManager._skipNextAnimation s' = false)
  /\ (forall constants ease,
       GlobeTransform.easing ease -> GlobeTransform.positiveTimes constants ->
       (forall calls s,
          Forall (fun s' => (0 <= GlobeTransform._globeness s' <= 1)%Q)
                 (GlobeTransform.updates constants ease calls s))
       /\ (forall now s,
            GlobeTransform._skipNextAnimation s = true ->
            let s' := GlobeTransform._updateAnimation constants ease now s in
            (GlobeTransform._globeProjectionOverride s = false ->
             (GlobeTransform._globeness s' == 0)%Q)
            /\ (GlobeTransform._globeProjectionOverride s = true ->
                GlobeTransform.zoomPermitsGlobe constants now s ->
                (GlobeTransform._globeness s' == 1)%Q)
            /\ GlobeTransform._skipNextAnimation s' = false)).
Proof.
  split; [|split].
  - apply ProjectionManager.updateProjections_range.
  - intros globeState now zoom s Hskip. cbv zeta. split; [|split; [|split]].
    + intros ->. now apply ProjectionManager.skip_disabled.
    + intros ->. now apply ProjectionManager.skip_enabled_bound.
    + intros -> Hz. now apply ProjectionManager.skip_enabled.
    + reflexivity.
  - intros constants ease He Hpos. split.
    + intros calls s. now apply GlobeTransform.updates_range.
    + intros now s Hskip. cbv zeta. split; [|split].
      * intros Hoff. now apply GlobeTransform.easing_skip_disabled.
      * intros Hon Hz. now apply GlobeTransform.easing_skip_enabled.
      * reflexivity.
Qed.

(** * Tile coverage *)

Module CoveringTiles.

(** ** Tiles *)

Record OverscaledTileID := {
  overscaledZ : Z;
  wrap : Z;
  canonicalZ : Z;
  canonicalX : Z;
  canonicalY : Z
}.

Module IntersectionResult.
Inductive t := None | Partial | Full.
End IntersectionResult.

Record CoveringTilesOptions := {
  tileSize : Q;
  minzoom : option Z;
  maxzoom : option Z;
  roundZoom : bool;
  reparseOverscaled : bool
}.

(** An entry of [result]; [tileDistanceToCamera], a square root that the
    search stores and nothing reads, is left out. *)
Record ResultItem := {
  tileID : OverscaledTileID;
  distanceSq : Q
}.

Definition sqrLen (v : Q * Q) : Q := (fst v * fst v + snd v * snd v)%Q.

(** What the body of the traversal loop does with the node it pops: it
    drops it, emits a tile for it, or pushes its children (listed in the
    order they are pushed). *)
Inductive Visit (Item : Type) :=
| Skip
| Emit (r : ResultItem)
| Split (children : list Item).

Arguments Skip {Item}.
Arguments Emit {Item} r.
Arguments Split {Item} children.

(** The depth-first loop [while (stack.length > 0)].  The head of [stack]
    is the element [pop] takes, so pushed children are put in front in
    reverse; [result.push] appends.  [fuel] bounds the number of
    iterations, and [None] says it ran out. *)
Fixpoint traverse {Item : Type} (visit : Item -> Visit Item) (fuel : nat)
    (stack : list Item) (result : list ResultItem) : option (list ResultItem) :=
  match stack with
  | [] => Some result
  | it :: stack =>
      match fuel with
      | O => None
      | S fuel =>
          match visit it with
          | Skip => traverse visit fuel stack result
          | Emit r => traverse visit fuel stack (result ++ [r])
          | Split children => traverse visit fuel (rev children ++ stack) result
          end
      end
  end.

(** [result.sort((a, b) => a.distanceSq - b.distanceSq)]: a stable sort by
    ascending [distanceSq]. *)
Fixpoint insertByDistance (a : ResultItem) (l : list ResultItem) : list ResultItem :=
  match l with
  | [] => [a]
  | b :: rest =>
      if Qle_bool (distanceSq a) (distanceSq b) then a :: l
      else b :: insertByDistance a rest
  end.

Definition sortByDistance (l : list ResultItem) : list ResultItem :=
  fold_right insertByDistance [] l.

(** Iterations that suffice for [roots] trees of depth [maxZoom]. *)
Definition traversalFuel (roots : nat) (maxZoom : Z) : nat :=
  (roots * 4 ^ (Z.to_nat maxZoom + 1))%nat.

(** [Math.pow(2, z)] *)
Definition pow2 (z : Z) : Q := Qpower 2 z.

(** The zoom of the search: the covering zoom level [z], lowered to
    [options.maxzoom] when that is defined and smaller. *)
Definition searchZoom (z : Z) (options : CoveringTilesOptions) : Z :=
  match maxzoom options with
  | Some m => if m <? z then m else z
  | None => z
  end.

(** [options.minzoom !== undefined && z < options.minzoom] *)
Definition belowMinzoom (z : Z) (options : CoveringTilesOptions) : bool :=
  match minzoom options with
  | Some m => z <? m
  | None => false
  end.

(** ** The spherical variant ([globeCoveringTiles]) *)

Definition distanceToTileSimple (point tile tileSize : Q) : Q :=
  let delta := (point - tile)%Q in
  if Qltb delta 0 then (- delta)%Q else Qmax 0 (delta - tileSize).

Definition distanceToTileWrapX (pointX pointY tileCornerX tileCornerY tileSize : Q) : Q :=
  let tileCornerToPointX := (pointX - tileCornerX)%Q in
  let distanceX :=
    if Qltb tileCornerToPointX 0 then
      (* Point is left of tile *)
      Qmin (- tileCornerToPointX) (1 + tileCornerToPointX - tileSize)
    else if Qltb 1 tileCornerToPointX then
      (* Point is right of tile *)
      Qmin (Qmax (tileCornerToPointX - tileSize) 0) (1 - tileCornerToPointX)
    else
      (* Point is inside tile in the X axis. *)
      0%Q in
  Qmax distanceX (distanceToTileSimple pointY tileCornerY tileSize).

Definition distanceToTile (pointX pointY tileCornerX tileCornerY tileSize : Q) : Q :=
  let worldSize := 1%Q in
  let halfWorld := (0.5 * worldSize)%Q in
  let smallestDistance := (2 * worldSize)%Q in
  (* Original tile *)
  let smallestDistance :=
    Qmin smallestDistance
         (distanceToTileWrapX pointX pointY tileCornerX tileCornerY tileSize) in
  (* Up *)
  let smallestDistance :=
    Qmin smallestDistance
         (distanceToTileWrapX pointX pointY (tileCornerX + halfWorld)
            (- tileCornerY - tileSize) tileSize) in
  (* Down *)
  let smallestDistance :=
    Qmin smallestDistance
         (distanceToTileWrapX pointX pointY (tileCornerX + halfWorld)
            (worldSize + worldSize - tileCornerY - tileSize) tileSize) in
  smallestDistance.

(** What [globeCoveringTiles] asks of its transform: the covering zoom
    level, the mercator coordinates of the camera point and of the center,
    and the visibility of a tile. *)
Record GlobeView := {
  coveringZoomLevel : CoveringTilesOptions -> Z;
  cameraCoord : Q * Q;
  centerCoord : Q * Q;
  isTileVisible : Z -> Z -> Z -> IntersectionResult.t
}.

Record GlobeItem := {
  x : Z;
  y : Z;
  zoom : Z;
  fullyVisible : bool
}.

Definition radiusOfMaxLvlLodInTiles : Q := 3.

(** The wrap of an emitted tile: the world copy of the tile that is
    nearest to the center in x. *)
Definition globeWrap (centerX tileX tileSize : Q) : Z :=
  let distanceCurrent := distanceToTileSimple centerX tileX tileSize in
  let distanceLeft := distanceToTileSimple centerX (tileX - 1) tileSize in
  let distanceRight := distanceToTileSimple centerX (tileX + 1) tileSize in
  let distanceSmallest := Qmin (Qmin distanceCurrent distanceLeft) distanceRight in
  let wrap := 0 in
  let wrap := if Qeq_bool distanceSmallest distanceLeft then -1 else wrap in
  let wrap := if Qeq_bool distanceSmallest distanceRight then 1 else wrap in
  wrap.

(** The body of the loop of [globeCoveringTiles]. *)
Definition globeVisit (transform : GlobeView) (maxZoom overscaledZ : Z)
    (cameraPoint centerPoint : Q * Q) (it : GlobeItem) : Visit GlobeItem :=
  let x := x it in
  let y := y it in
  let visible :=
    if fullyVisible it then Some true
    else
      match isTileVisible transform x y (zoom it) with
      | IntersectionResult.None => None
      | IntersectionResult.Full => Some true
      | IntersectionResult.Partial => Some false
      end in
  match visible with
  | None => Skip
  | Some fullyVisible =>
      let scale := shl 1 (Z.max (zoom it) 0) in
      let tileSize := (1 / inject_Z scale)%Q in
      let tileX := (inject_Z x / inject_Z scale)%Q in
      let tileY := (inject_Z y / inject_Z scale)%Q in
      let centerDist :=
        distanceToTile (fst (centerCoord transform)) (snd (centerCoord transform))
                       tileX tileY tileSize in
      let cameraDist :=
        distanceToTile (fst (cameraCoord transform)) (snd (cameraCoord transform))
                       tileX tileY tileSize in
      let split := Qle_bool (Qmin centerDist cameraDist * 2) radiusOfMaxLvlLodInTiles in
      if (zoom it =? maxZoom) || negb split then
        let dz := maxZoom - zoom it in
        let dx := (fst cameraPoint - 0.5 - inject_Z (shl x dz))%Q in
        let dy := (snd cameraPoint - 0.5 - inject_Z (shl y dz))%Q in
        let wrap := globeWrap (fst (centerCoord transform)) tileX tileSize in
        Emit {| tileID := {| overscaledZ := if zoom it =? maxZoom then overscaledZ else zoom it;
                             wrap := wrap;
                             canonicalZ := zoom it;
                             canonicalX := x;
                             canonicalY := y |};
                distanceSq := sqrLen (fst centerPoint - 0.5 - dx, snd centerPoint - 0.5 - dy)%Q |}
      else
        Split (map (fun i => {| zoom := zoom it + 1;
                                x := shl x 1 + Z.rem i 2;
                                y := shl y 1 + shr i 1;
                                fullyVisible := fullyVisible |})
                   [0; 1; 2; 3])
  end.

Definition globeCoveringTiles (transform : GlobeView) (options : CoveringTilesOptions)
    : option (list OverscaledTileID) :=
  let z := coveringZoomLevel transform options in
  let actualZ := z in
  if belowMinzoom z options then Some []
  else
    let z := searchZoom z options in
    let cameraCoord := cameraCoord transform in
    let centerCoord := centerCoord transform in
    let numTiles := pow2 z in
    let cameraPoint := (numTiles * fst cameraCoord, numTiles * snd cameraCoord)%Q in
    let centerPoint := (numTiles * fst centerCoord, numTiles * snd centerCoord)%Q in
    let maxZoom := z in
    let overscaledZ := if reparseOverscaled options then actualZ else z in
    let stack := [ {| zoom := 0; x := 0; y := 0; fullyVisible := false |} ] in
    match traverse (globeVisit transform maxZoom overscaledZ cameraPoint centerPoint)
                   (traversalFuel 1 maxZoom) stack [] with
    | Some result => Some (map tileID (sortByDistance result))
    | None => None
    end.

(** ** The flat variant ([MercatorTransform.coveringTiles]) *)

Record Terrain := {
  getMinMaxElevation : OverscaledTileID -> option Q * option Q
}.

Record MercatorOptions := {
  options : CoveringTilesOptions;
  terrain : option Terrain
}.

(** The bounding boxes and the frustum of [util/primitives], which this
    part of the repository does not show, with the operations the search
    calls on them. *)
Record Primitives := {
  Aabb : Type;
  Frustum : Type;
  newAabb : Q * Q * Q -> Q * Q * Q -> Aabb;
  aabbMin : Aabb -> Q * Q * Q;
  aabbMax : Aabb -> Q * Q * Q;
  quadrant : Aabb -> Z -> Aabb;
  intersects : Aabb -> Frustum -> Z;
  distanceX : Aabb -> Q * Q * Q -> Q;
  distanceY : Aabb -> Q * Q * Q -> Q
}.

(** What [coveringTiles] reads of its transform. *)
Record MercatorView (P : Primitives) := {
  mercatorCoveringZoomLevel : CoveringTilesOptions -> Z;
  mercatorCameraCoord : Q * Q;
  mercatorCenterCoord : Q * Q;
  frustumFromInvProjectionMatrix : Z -> Frustum P;
  pitch : Q;
  edgeInsetsTop : Q;
  transformTileSize : Q;
  elevation : Q;
  _renderWorldCopies : bool
}.

Arguments mercatorCoveringZoomLevel {P} _ _.
Arguments mercatorCameraCoord {P} _.
Arguments mercatorCenterCoord {P} _.
Arguments frustumFromInvProjectionMatrix {P} _ _.
Arguments pitch {P} _.
Arguments edgeInsetsTop {P} _.
Arguments transformTileSize {P} _.
Arguments elevation {P} _.
Arguments _renderWorldCopies {P} _.

Record MercatorItem (P : Primitives) := {
  aabb : Aabb P;
  mzoom : Z;
  mx : Z;
  my : Z;
  mwrap : Z;
  mfullyVisible : bool
}.

Arguments aabb {P} _.
Arguments mzoom {P} _.
Arguments mx {P} _.
Arguments my {P} _.
Arguments mwrap {P} _.
Arguments mfullyVisible {P} _.

Definition newRootTile (P : Primitives) (numTiles : Q) (wrap : Z) : MercatorItem P :=
  {| aabb := newAabb P (inject_Z wrap * numTiles, 0, 0)%Q
                       ((inject_Z wrap + 1) * numTiles, numTiles, 0)%Q;
     mzoom := 0;
     mx := 0;
     my := 0;
     mwrap := wrap;
     mfullyVisible := false |}.

(** The body of the loop of [coveringTiles]. *)
Definition mercatorVisit {P : Primitives} (transform : MercatorView P)
    (terrain : option Terrain) (cameraFrustum : Frustum P)
    (minZoom maxZoom overscaledZ : Z) (radiusOfMaxLvlLodInTiles : Q)
    (cameraPoint centerPoint : Q * Q * Q) (it : MercatorItem P)
    : Visit (MercatorItem P) :=
  let x := mx it in
  let y := my it in
  let visible :=
    if mfullyVisible it then Some true
    else
      let intersectResult := intersects P (aabb it) cameraFrustum in
      if intersectResult =? 0 then None else Some (intersectResult =? 2) in
  match visible with
  | None => Skip
  | Some fullyVisible =>
      let refPoint := match terrain with Some _ => cameraPoint | None => centerPoint end in
      let distanceX := distanceX P (aabb it) refPoint in
      let distanceY := distanceY P (aabb it) refPoint in
      let longestDim := Qmax (Qabs distanceX) (Qabs distanceY) in
      let distToSplit :=
        (radiusOfMaxLvlLodInTiles + inject_Z (shl 1 (maxZoom - mzoom it)) - 2)%Q in
      if (mzoom it =? maxZoom) || (Qltb distToSplit longestDim && (minZoom <=? mzoom it)) then
        Emit {| tileID := {| overscaledZ := if mzoom it =? maxZoom then overscaledZ else mzoom it;
                             wrap := mwrap it;
                             canonicalZ := mzoom it;
                             canonicalX := x;
                             canonicalY := y |};
                distanceSq := sqrLen (fst (fst centerPoint) - 0.5 - inject_Z x,
                                      snd (fst centerPoint) - 0.5 - inject_Z y)%Q |}
      else
        Split (map (fun i =>
                 let childX := shl x 1 + Z.rem i 2 in
                 let childY := shl y 1 + shr i 1 in
                 let childZ := mzoom it + 1 in
                 let quadrant := quadrant P (aabb it) i in
                 let quadrant :=
                   match terrain with
                   | Some terrain =>
                       let tileID := {| overscaledZ := childZ; wrap := mwrap it;
                                        canonicalZ := childZ; canonicalX := childX;
                                        canonicalY := childY |} in
                       let minMax := getMinMaxElevation terrain tileID in
                       let minElevation :=
                         match fst minMax with Some e => e | None => elevation transform end in
                       let maxElevation :=
                         match snd minMax with Some e => e | None => elevation transform end in
                       newAabb P (fst (fst (aabbMin P quadrant)), snd (fst (aabbMin P quadrant)),
                                  minElevation)
                                 (fst (fst (aabbMax P quadrant)), snd (fst (aabbMax P quadrant)),
                                  maxElevation)
                   | None => quadrant
                   end in
                 {| aabb := quadrant; mzoom := childZ; mx := childX; my := childY;
                    mwrap := mwrap it; mfullyVisible := fullyVisible |})
                 [0; 1; 2; 3])
  end.

(** The roots in the order they are pushed. *)
Definition rootTiles {P : Primitives} (transform : MercatorView P) (numTiles : Q)
    : list (MercatorItem P) :=
  (if _renderWorldCopies transform then
     flat_map (fun i => [newRootTile P numTiles (- i); newRootTile P numTiles i]) [1; 2; 3]
   else [])
  ++ [newRootTile P numTiles 0].

Definition coveringTiles {P : Primitives} (transform : MercatorView P)
    (opts : MercatorOptions) : option (list OverscaledTileID) :=
  let z := mercatorCoveringZoomLevel transform (options opts) in
  let actualZ := z in
  if belowMinzoom z (options opts) then Some []
  else
    let z := searchZoom z (options opts) in
    let cameraCoord := mercatorCameraCoord transform in
    let centerCoord := mercatorCenterCoord transform in
    let numTiles := pow2 z in
    let cameraPoint := (numTiles * fst cameraCoord, numTiles * snd cameraCoord, 0)%Q in
    let centerPoint := (numTiles * fst centerCoord, numTiles * snd centerCoord, 0)%Q in
    let cameraFrustum := frustumFromInvProjectionMatrix transform z in
    let minZoom := match minzoom (options opts) with Some m => m | None => 0 end in
    let minZoom :=
      if match terrain opts with Some _ => false | None => true end
         && Qle_bool (pitch transform) 60 && Qltb (edgeInsetsTop transform) 0.1
      then z else minZoom in
    let radiusOfMaxLvlLodInTiles :=
      match terrain opts with
      | Some _ =>
          (2 / Qmin (transformTileSize transform) (tileSize (options opts))
           * transformTileSize transform)%Q
      | None => 3%Q
      end in
    let maxZoom := z in
    let overscaledZ := if reparseOverscaled (options opts) then actualZ else z in
    let stack := rev (rootTiles transform numTiles) in
    match traverse (mercatorVisit transform (terrain opts) cameraFrustum minZoom maxZoom
                      overscaledZ radiusOfMaxLvlLodInTiles cameraPoint centerPoint)
                   (traversalFuel 7 maxZoom) stack [] with
    | Some result => Some (map tileID (sortByDistance result))
    | None => None
    end.

(** ** Reading the result *)

(** The squared distance from the center of a tile to the map center, in
    tile units of the zoom of the search: what the flat variant sorts by. *)
Definition distanceSqToCenter (z : Z) (centerCoord : Q * Q) (t : OverscaledTileID) : Q :=
  sqrLen (pow2 z * fst centerCoord - 0.5 - inject_Z (canonicalX t),
          pow2 z * snd centerCoord - 0.5 - inject_Z (canonicalY t))%Q.

Fixpoint nonDecreasing (l : list Q) : bool :=
  match l with
  | a :: (b :: _) as rest => Qle_bool a b && nonDecreasing rest
  | _ => true
  end.

(** The distance in x from the center to the copy of a tile in the world
    [w] worlds to the right, as the spherical variant measures it. *)
Definition copyDistance (centerX : Q) (t : OverscaledTileID) (w : Z) : Q :=
  let scale := shl 1 (Z.max (canonicalZ t) 0) in
  let tileSize := (1 / inject_Z scale)%Q in
  let tileX := (inject_Z (canonicalX t) / inject_Z scale)%Q in
  distanceToTileSimple centerX (tileX + inject_Z w) tileSize.

(** The key tiles are unique by. *)
Definition tileKey (t : OverscaledTileID) : Z * Z * Z * Z :=
  (overscaledZ t, wrap t, canonicalX t, canonicalY t).

(** ** The traversal terminates and keeps invariants *)

(** Nodes of a complete quadtree of depth [d]. *)
Fixpoint treeSize (d : nat) : nat :=
  match d with
  | O => 1
  | S d => 1 + 4 * treeSize d
  end.

Lemma treeSize_mono (a b : nat) : (a <= b)%nat -> (treeSize a <= treeSize b)%nat.
Proof.
  induction 1 as [|b Hle IH]; simpl; lia.
Qed.

Lemma treeSize_closed (d : nat) : (3 * treeSize d + 1 = 4 ^ (d + 1))%nat.
Proof.
  induction d as [|d IH]; [reflexivity|].
  change (treeSize (S d)) with (1 + 4 * treeSize d)%nat.
  change (S d + 1)%nat with (S (d + 1)). rewrite Nat.pow_succ_r'. lia.
Qed.

Lemma treeSize_bound (d : nat) : (treeSize d <= 4 ^ (d + 1))%nat.
Proof.
  pose proof (treeSize_closed d). lia.
Qed.

Section Traverse.

Context {Item : Type}.
Variable visit : Item -> Visit Item.

(** [inv] holds of every node the loop pops, [good] is shown of every
    tile it emits, and [depth] bounds how far below a node the search can
    still go. *)
Variable inv : Item -> Prop.
Variable good : ResultItem -> Prop.
Variable depth : Item -> nat.

Hypothesis visit_emit : forall it r, inv it -> visit it = Emit r -> good r.
Hypothesis visit_split : forall it children,
  inv it -> visit it = Split children ->
  (length children <= 4)%nat
  /\ Forall (fun c => inv c /\ (depth c < depth it)%nat) children.

Definition weight (stack : list Item) : nat :=
  list_sum (map (fun it => treeSize (depth it)) stack).

Lemma weight_app (s1 s2 : list Item) : weight (s1 ++ s2) = (weight s1 + weight s2)%nat.
Proof.
  unfold weight. now rewrite map_app, list_sum_app.
Qed.

Lemma weight_rev (s : list Item) : weight (rev s) = weight s.
Proof.
  induction s as [|a s IH]; [reflexivity|].
  simpl rev. rewrite weight_app, IH. unfold weight. simpl. lia.
Qed.

Lemma weight_children (d : nat) (children : list Item) :
  Forall (fun c => (depth c <= d)%nat) children ->
  (weight children <= length children * treeSize d)%nat.
Proof.
  induction 1 as [|c cs Hc _ IH]; unfold weight in *; simpl; [lia|].
  pose proof (treeSize_mono _ _ Hc). lia.
Qed.

Lemma traverse_total (fuel : nat) : forall stack result,
  Forall inv stack -> Forall good result -> (weight stack <= fuel)%nat ->
  exists out, traverse visit fuel stack result = Some out /\ Forall good out.
Proof.
  induction fuel as [|fuel IH]; intros stack result Hinv Hgood Hfuel.
  - destruct stack as [|it stack]; [exists result; auto|].
    unfold weight in Hfuel. simpl in Hfuel.
    pose proof (treeSize_mono 0 (depth it) (Nat.le_0_l _)). simpl in *. lia.
  - destruct stack as [|it stack]; [exists result; auto|].
    inversion Hinv as [|? ? Hit Hrest]; subst.
    assert (Hw : weight (it :: stack) = (treeSize (depth it) + weight stack)%nat)
      by reflexivity.
    assert (H1 : (1 <= treeSize (depth it))%nat)
      by (apply (treeSize_mono 0), Nat.le_0_l).
    simpl. destruct (visit it) as [|r|children] eqn:Ev.
    + apply IH; auto. lia.
    + apply IH; auto; [|lia].
      apply List.Forall_app. split; [assumption|].
      constructor; [|constructor]. eapply visit_emit; eauto.
    + destruct (visit_split _ _ Hit Ev) as [Hlen Hch].
      apply IH; auto.
      * apply List.Forall_app. split; [|assumption].
        apply List.Forall_rev. eapply List.Forall_impl; [|exact Hch]. now intros c [Hc _].
      * rewrite weight_app, weight_rev.
        destruct (depth it) as [|d] eqn:Ed.
        { destruct children as [|c cs]; [unfold weight in *; simpl in *; lia|].
          inversion Hch as [|? ? [_ Hc] _]; subst. lia. }
        assert (Hd : Forall (fun c => (depth c <= d)%nat) children).
        { eapply List.Forall_impl; [|exact Hch]. intros c [_ Hc]. simpl in Hc. lia. }
        pose proof (weight_children d children Hd) as Hwc.
        simpl in Hw. assert ((length children * treeSize d <= 4 * treeSize d)%nat) by nia.
        simpl in H1. lia.
Qed.

End Traverse.

(** Of a stable insertion by [distanceSq]. *)
Lemma insertByDistance_In (a : ResultItem) (l : list ResultItem) (b : ResultItem) :
  In b (insertByDistance a l) <-> b = a \/ In b l.
Proof.
  induction l as [|c l IH]; simpl.
  - intuition.
  - destruct (Qle_bool (distanceSq a) (distanceSq c)); simpl; [intuition|].
    rewrite IH. intuition.
Qed.

Lemma sortByDistance_In (l : list ResultItem) (b : ResultItem) :
  In b (sortByDistance l) <-> In b l.
Proof.
  induction l as [|a l IH]; simpl; [reflexivity|].
  rewrite insertByDistance_In, IH. intuition.
Qed.

Lemma sortByDistance_Forall (P : ResultItem -> Prop) (l : list ResultItem) :
  Forall P l -> Forall P (sortByDistance l).
Proof.
  rewrite !List.Forall_forall. intros H b Hb. apply H. now apply sortByDistance_In.
Qed.

(** ** The wrap of the tiles of the spherical variant *)

Lemma Qltb_proper (a a' b b' : Q) :
  (a == a')%Q -> (b == b')%Q -> Qltb a b = Qltb a' b'.
Proof.
  intros Ha Hb. unfold Qltb. f_equal.
  destruct (Qle_bool b a) eqn:E, (Qle_bool b' a') eqn:E'; try reflexivity.
  - apply Qle_bool_iff in E. rewrite Ha, Hb in E. apply Qle_bool_iff in E. congruence.
  - apply Qle_bool_iff in E'. rewrite <- Ha, <- Hb in E'. apply Qle_bool_iff in E'. congruence.
Qed.

Lemma distanceToTileSimple_proper (p t t' size : Q) :
  (t == t')%Q -> (distanceToTileSimple p t size == distanceToTileSimple p t' size)%Q.
Proof.
  intros Ht. unfold distanceToTileSimple.
  rewrite (Qltb_proper (p - t) (p - t') 0 0) by (rewrite ?Ht; reflexivity).
  destruct (Qltb (p - t') 0); rewrite Ht; reflexivity.
Qed.

Lemma globeWrap_range (centerX tileX tileSize : Q) :
  let w := globeWrap centerX tileX tileSize in w = -1 \/ w = 0 \/ w = 1.
Proof.
  unfold globeWrap. cbv zeta.
  repeat match goal with |- context [Qeq_bool ?a ?b] => destruct (Qeq_bool a b) end; auto.
Qed.

Lemma globeWrap_nearest (centerX tileX tileSize : Q) (w : Z) :
  w = -1 \/ w = 0 \/ w = 1 ->
  (distanceToTileSimple centerX (tileX + inject_Z (globeWrap centerX tileX tileSize)) tileSize
   <= distanceToTileSimple centerX (tileX + inject_Z w) tileSize)%Q.
Proof.
  intros Hw. unfold globeWrap. cbv zeta.
  set (cur := distanceToTileSimple centerX tileX tileSize).
  set (left := distanceToTileSimple centerX (tileX - 1) tileSize).
  set (right := distanceToTileSimple centerX (tileX + 1) tileSize).
  assert (E0 : (distanceToTileSimple centerX (tileX + inject_Z 0) tileSize == cur)%Q).
  { apply distanceToTileSimple_proper. unfold inject_Z. ring. }
  assert (El : (distanceToTileSimple centerX (tileX + inject_Z (-1)) tileSize == left)%Q).
  { apply distanceToTileSimple_proper. unfold inject_Z. ring. }
  assert (Er : (distanceToTileSimple centerX (tileX + inject_Z 1) tileSize == right)%Q).
  { apply distanceToTileSimple_proper. unfold inject_Z. ring. }
  assert (Hmin : forall d, (d == cur \/ d == left \/ d == right)%Q ->
                           (Qmin (Qmin cur left) right <= d)%Q).
  { intros d [-> | [-> | ->]].
    - eapply Qle_trans; [apply Q.le_min_l | apply Q.le_min_l].
    - eapply Qle_trans; [apply Q.le_min_l | apply Q.le_min_r].
    - apply Q.le_min_r. }
  assert (Hd : (distanceToTileSimple centerX (tileX + inject_Z w) tileSize == cur
                \/ distanceToTileSimple centerX (tileX + inject_Z w) tileSize == left
                \/ distanceToTileSimple centerX (tileX + inject_Z w) tileSize == right)%Q).
  { destruct Hw as [-> | [-> | ->]]; auto. }
  apply Hmin in Hd.
  destruct (Qeq_bool (Qmin (Qmin cur left) right) right) eqn:Eqr.
  - apply Qeq_bool_iff in Eqr. rewrite Er, <- Eqr. exact Hd.
  - destruct (Qeq_bool (Qmin (Qmin cur left) right) left) eqn:Eql.
    + apply Qeq_bool_iff in Eql. rewrite El, <- Eql. exact Hd.
    + rewrite E0.
      assert (Hc : (Qmin (Qmin cur left) right == cur)%Q).
      { destruct (Q.min_spec (Qmin cur left) right) as [[_ H1] | [_ H1]].
        - destruct (Q.min_spec cur left) as [[_ H2] | [_ H2]].
          + now rewrite H1.
          + assert (H3 : (Qmin (Qmin cur left) right == left)%Q)
              by (now rewrite H1).
            apply Qeq_bool_iff in H3. congruence.
        - apply Qeq_bool_iff in H1. congruence. }
      rewrite <- Hc. exact Hd.
Qed.

(** A node of the spherical search that can be on the stack. *)
Definition globeInv (maxZoom : Z) (it : GlobeItem) : Prop :=
  0 <= zoom it <= maxZoom.

Definition globeDepth (maxZoom : Z) (it : GlobeItem) : nat :=
  Z.to_nat (maxZoom - zoom it).

(** What is shown of the tiles the spherical search emits. *)
Definition nearestCopy (centerX : Q) (t : OverscaledTileID) : Prop :=
  (wrap t = -1 \/ wrap t = 0 \/ wrap t = 1)
  /\ forall w, w = -1 \/ w = 0 \/ w = 1 ->
       (copyDistance centerX t (wrap t) <= copyDistance centerX t w)%Q.

Lemma globeVisit_emit (transform : GlobeView) (maxZoom oz : Z)
    (cameraPoint centerPoint : Q * Q) (it : GlobeItem) (r : ResultItem) :
  globeVisit transform maxZoom oz cameraPoint centerPoint it = Emit r ->
  nearestCopy (fst (centerCoord transform)) (tileID r)
  /\ canonicalZ (tileID r) = zoom it
  /\ canonicalX (tileID r) = x it
  /\ canonicalY (tileID r) = y it
  /\ overscaledZ (tileID r) = (if zoom it =? maxZoom then oz else zoom it).
Proof.
  unfold globeVisit. intros H.
  destruct (if fullyVisible it then _ else _) as [fv|]; [|discriminate].
  destruct ((zoom it =? maxZoom) || _); [|discriminate].
  inversion H; subst; clear H. simpl. repeat split; try reflexivity.
  - apply globeWrap_range.
  - intros w Hw. unfold copyDistance. simpl. now apply globeWrap_nearest.
Qed.

Lemma globeVisit_split (transform : GlobeView) (maxZoom overscaledZ : Z)
    (cameraPoint centerPoint : Q * Q) (it : GlobeItem) (children : list GlobeItem) :
  globeVisit transform maxZoom overscaledZ cameraPoint centerPoint it = Split children ->
  zoom it <> maxZoom
  /\ exists fv, children =
       map (fun i => {| zoom := zoom it + 1;
                        x := shl (x it) 1 + Z.rem i 2;
                        y := shl (y it) 1 + shr i 1;
                        fullyVisible := fv |}) [0; 1; 2; 3].
Proof.
  unfold globeVisit. intros H.
  destruct (if fullyVisible it then _ else _) as [fv|]; [|discriminate].
  destruct (zoom it =? maxZoom) eqn:Ez; [discriminate|].
  rewrite orb_false_l in H.
  destruct (negb _); [discriminate|].
  injection H as <-.
  split; [now apply Z.eqb_neq|]. now exists fv.
Qed.

Lemma traversalFuel_enough (roots : nat) (maxZoom : Z) :
  (roots * treeSize (Z.to_nat maxZoom) <= traversalFuel roots maxZoom)%nat.
Proof.
  unfold traversalFuel. pose proof (treeSize_bound (Z.to_nat maxZoom)). nia.
Qed.

(** The spherical search returns, and every tile it returns is [good]
    when [good] holds of what the loop body emits. *)
Lemma globeCoveringTiles_total (transform : GlobeView) (options : CoveringTilesOptions)
    (good : ResultItem -> Prop) :
  0 <= searchZoom (coveringZoomLevel transform options) options ->
  (forall maxZoom overscaledZ cameraPoint centerPoint it r,
      globeInv maxZoom it ->
      globeVisit transform maxZoom overscaledZ cameraPoint centerPoint it = Emit r ->
      good r) ->
  exists tiles,
    globeCoveringTiles transform options = Some tiles
    /\ exists result, tiles = map tileID result /\ Forall good result.
Proof.
  intros Hz Hgood. unfold globeCoveringTiles.
  destruct (belowMinzoom _ options); [exists []; split; [reflexivity|now exists []]|].
  set (maxZoom := searchZoom _ options) in *.
  match goal with |- context [traverse ?v ?f ?st ?res] =>
    destruct (traverse_total v (globeInv maxZoom) good (globeDepth maxZoom)) with
      (fuel := f) (stack := st) (result := res) as (out & Hout & Hall) end.
  - intros it r Hit Hv. eapply Hgood; eauto.
  - intros it children Hit Hv.
    apply globeVisit_split in Hv as (Hne & fv & ->).
    split; [simpl; lia|].
    unfold globeInv, globeDepth in *. repeat constructor; simpl; lia.
  - repeat constructor; unfold globeInv; simpl; lia.
  - constructor.
  - unfold weight, globeDepth. simpl. rewrite Z.sub_0_r.
    pose proof (traversalFuel_enough 1 maxZoom). lia.
  - rewrite Hout. eexists. split; [reflexivity|].
    exists (sortByDistance out). split; [reflexivity|].
    now apply sortByDistance_Forall.
Qed.

(** ** The wrap of the tiles of the flat variant *)

Definition mercatorInv {P : Primitives} (maxZoom : Z) (copies : bool)
    (it : MercatorItem P) : Prop :=
  0 <= mzoom it <= maxZoom
  /\ -3 <= mwrap it <= 3
  /\ (copies = false -> mwrap it = 0).

Definition mercatorDepth {P : Primitives} (maxZoom : Z) (it : MercatorItem P) : nat :=
  Z.to_nat (maxZoom - mzoom it).

Lemma mercatorVisit_emit {P : Primitives} (transform : MercatorView P)
    (terrain : option Terrain) (cameraFrustum : Frustum P) (minZoom maxZoom oz : Z)
    (radius : Q) (cameraPoint centerPoint : Q * Q * Q) (it : MercatorItem P)
    (r : ResultItem) :
  mercatorVisit transform terrain cameraFrustum minZoom maxZoom oz radius
                cameraPoint centerPoint it = Emit r ->
  wrap (tileID r) = mwrap it
  /\ canonicalZ (tileID r) = mzoom it
  /\ canonicalX (tileID r) = mx it
  /\ canonicalY (tileID r) = my it
  /\ overscaledZ (tileID r) = (if mzoom it =? maxZoom then oz else mzoom it)
  /\ (mzoom it = maxZoom \/ minZoom <= mzoom it)
  /\ distanceSq r = sqrLen (fst (fst centerPoint) - 0.5 - inject_Z (mx it),
                            snd (fst centerPoint) - 0.5 - inject_Z (my it))%Q.
Proof.
  unfold mercatorVisit. intros H.
  destruct (if mfullyVisible it then _ else _) as [fv|]; [|discriminate].
  destruct (mzoom it =? maxZoom) eqn:Ez.
  - rewrite orb_true_l in H. injection H as <-. simpl.
    apply Z.eqb_eq in Ez. auto 10.
  - rewrite orb_false_l in H.
    destruct (Qltb _ _); [|discriminate].
    destruct (minZoom <=? mzoom it) eqn:Em; [|discriminate].
    apply Z.leb_le in Em.
    cbn [andb] in H. injection H as <-. simpl. auto 10.
Qed.

Lemma mercatorVisit_split {P : Primitives} (transform : MercatorView P)
    (terrain : option Terrain) (cameraFrustum : Frustum P) (minZoom maxZoom oz : Z)
    (radius : Q) (cameraPoint centerPoint : Q * Q * Q) (it : MercatorItem P)
    (children : list (MercatorItem P)) :
  mercatorVisit transform terrain cameraFrustum minZoom maxZoom oz radius
                cameraPoint centerPoint it = Split children ->
  mzoom it <> maxZoom
  /\ map (fun c => (mwrap c, mzoom c, mx c, my c)) children =
     map (fun i => (mwrap it, mzoom it + 1, shl (mx it) 1 + Z.rem i 2,
                    shl (my it) 1 + shr i 1)) [0; 1; 2; 3].
Proof.
  unfold mercatorVisit. intros H.
  destruct (if mfullyVisible it then _ else _) as [fv|]; [|discriminate].
  destruct (mzoom it =? maxZoom) eqn:Ez; [discriminate|].
  rewrite orb_false_l in H.
  destruct (_ && _); [discriminate|].
  injection H as <-.
  split; [now apply Z.eqb_neq|]. reflexivity.
Qed.

Lemma rootTiles_inv {P : Primitives} (transform : MercatorView P) (numTiles : Q)
    (maxZoom : Z) :
  0 <= maxZoom ->
  Forall (mercatorInv maxZoom (_renderWorldCopies transform)) (rootTiles transform numTiles)
  /\ (length (rootTiles transform numTiles) <= 7)%nat
  /\ Forall (fun it => mzoom it = 0) (rootTiles transform numTiles).
Proof.
  intros Hz. unfold rootTiles, mercatorInv.
  destruct (_renderWorldCopies transform); simpl;
    repeat split; repeat constructor; simpl; try lia; discriminate.
Qed.

(** The flat search returns, and every tile it returns is [good] when
    [good] holds of what the loop body emits. *)
Lemma coveringTiles_total {P : Primitives} (transform : MercatorView P)
    (opts : MercatorOptions) (good : ResultItem -> Prop) :
  0 <= searchZoom (mercatorCoveringZoomLevel transform (options opts)) (options opts) ->
  (forall cameraFrustum minZoom maxZoom oz radius cameraPoint centerPoint it r,
      mercatorInv maxZoom (_renderWorldCopies transform) it ->
      mercatorVisit transform (terrain opts) cameraFrustum minZoom maxZoom oz radius
                    cameraPoint centerPoint it = Emit r ->
      good r) ->
  exists tiles,
    coveringTiles transform opts = Some tiles
    /\ exists result, tiles = map tileID result /\ Forall good result.
Proof.
  intros Hz Hgood. unfold coveringTiles.
  destruct (belowMinzoom _ (options opts));
    [exists []; split; [reflexivity|now exists []]|].
  set (maxZoom := searchZoom _ (options opts)) in *.
  destruct (rootTiles_inv transform (pow2 maxZoom) maxZoom Hz) as (Hroots & Hlen & Hzero).
  match goal with |- context [traverse ?v ?f ?st ?res] =>
    destruct (traverse_total v (mercatorInv maxZoom (_renderWorldCopies transform))
                good (mercatorDepth maxZoom)) with
      (fuel := f) (stack := st) (result := res) as (out & Hout & Hall) end.
  - intros it r Hit Hv. eapply Hgood; eauto.
  - intros it children Hit Hv.
    apply mercatorVisit_split in Hv as (Hne & Hch).
    destruct children as [|c0 [|c1 [|c2 [|c3 [|c4 cs]]]]]; try discriminate.
    injection Hch as E0 E1 E2 E3 E4 E5 E6 E7 E8 E9 E10 E11 E12 E13 E14 E15.
    split; [simpl; lia|].
    unfold mercatorInv, mercatorDepth in *.
    repeat constructor; simpl; try lia; intros Hc; destruct Hit as (_ & _ & Hw);
      specialize (Hw Hc); lia.
  - now apply List.Forall_rev.
  - constructor.
  - rewrite weight_rev.
    pose proof (traversalFuel_enough 7 maxZoom) as Hf.
    assert (Hw : (weight (mercatorDepth maxZoom) (rootTiles transform (pow2 maxZoom))
                  <= length (rootTiles transform (pow2 maxZoom))
                     * treeSize (Z.to_nat maxZoom))%nat).
    { apply weight_children. eapply List.Forall_impl; [|exact Hzero].
      intros it Hit. unfold mercatorDepth. rewrite Hit, Z.sub_0_r. lia. }
    nia.
  - rewrite Hout. eexists. split; [reflexivity|].
    exists (sortByDistance out). split; [reflexivity|].
    now apply sortByDistance_Forall.
Qed.

(** A flat world in which every box meets the frustum and lies at the
    reference point. *)
Definition openWorld : Primitives :=
  {| Aabb := unit;
     Frustum := unit;
     newAabb := fun _ _ => tt;
     aabbMin := fun _ => (0, 0, 0)%Q;
     aabbMax := fun _ => (0, 0, 0)%Q;
     quadrant := fun _ _ => tt;
     intersects := fun _ _ => 1;
     distanceX := fun _ _ => 0%Q;
     distanceY := fun _ _ => 0%Q |}.

Definition openView (z : Z) (center : Q * Q) (copies : bool) : MercatorView openWorld :=
  {| mercatorCoveringZoomLevel := fun _ => z;
     mercatorCameraCoord := center;
     mercatorCenterCoord := center;
     frustumFromInvProjectionMatrix := fun _ => (tt : Frustum openWorld);
     pitch := 0;
     edgeInsetsTop := 0;
     transformTileSize := 512;
     elevation := 0;
     _renderWorldCopies := copies |}.

Definition plainOptions : CoveringTilesOptions :=
  {| tileSize := 512;
     minzoom := Some 0;
     maxzoom := Some 14;
     roundZoom := false;
     reparseOverscaled := false |}.

(** C10: every tile the spherical search returns has a wrap of -1, 0 or
    1, that of the copy of the tile, among the tile and its neighbours one
    world to the left and right, nearest to the center in x; the tiles of
    the flat search have wraps from -3 to 3 (0 only, without world
    copies), and both ends occur. *)
Theorem wrap_of_covering_tiles :
  (forall transform options,
     0 <= searchZoom (coveringZoomLevel transform options) options ->
     exists tiles,
       globeCoveringTiles transform options = Some tiles
       /\ Forall (nearestCopy (fst (centerCoord transform))) tiles)
  /\ (forall (P : Primitives) (transform : MercatorView P) opts,
       0 <= searchZoom (mercatorCoveringZoomLevel transform (options opts)) (options opts) ->
       exists tiles,
         coveringTiles transform opts = Some tiles
         /\ Forall (fun t => -3 <= wrap t <= 3
                             /\ (_renderWorldCopies transform = false -> wrap t = 0)) tiles)
  /\ option_map (map wrap)
       (coveringTiles (openView 0 (0.5, 0.5)%Q true)
                      {| options := plainOptions; terrain := None |})
     = Some [0; 3; -3; 2; -2; 1; -1].
Proof.
  split; [|split].
  - intros transform options Hz.
    destruct (globeCoveringTiles_total transform options
                (fun r => nearestCopy (fst (centerCoord transform)) (tileID r)) Hz)
      as (tiles & Htiles & result & -> & Hall).
    + intros maxZoom oz cameraPoint centerPoint it r _ Hv.
      now apply globeVisit_emit in Hv.
    + exists (map tileID result). split; [assumption|].
      now apply List.Forall_map.
  - intros P transform opts Hz.
    destruct (coveringTiles_total transform opts
                (fun r => -3 <= wrap (tileID r) <= 3
                          /\ (_renderWorldCopies transform = false -> wrap (tileID r) = 0)) Hz)
      as (tiles & Htiles & result & -> & Hall).
    + intros cameraFrustum minZoom maxZoom oz radius cameraPoint centerPoint it r Hit Hv.
      apply mercatorVisit_emit in Hv as (-> & _).
      destruct Hit as (_ & Hw & Hc). auto.
    + exists (map tileID result). split; [assumption|].
      now apply List.Forall_map.
  - vm_compute. reflexivity.
Qed.

(** ** The order of the result *)

(** A view of the south-east: the center, also the camera point, is at
    mercator (7/8, 7/8), inside tile (3, 3) of zoom 2, and the four tiles
    of zoom 2 around it are visible. *)
Definition southEastView : GlobeView :=
  {| coveringZoomLevel := fun _ => 2;
     cameraCoord := (0.875, 0.875)%Q;
     centerCoord := (0.875, 0.875)%Q;
     isTileVisible := fun x y z =>
       if (z =? 0) || ((z =? 1) && (x =? 1) && (y =? 1))
          || ((z =? 2) && (2 <=? x) && (2 <=? y))
       then IntersectionResult.Partial
       else IntersectionResult.None |}.

Definition centerDistances (z : Z) (centerCoord : Q * Q) (tiles : list OverscaledTileID)
    : list Q :=
  map (fun t => Qred (distanceSqToCenter z centerCoord t)) tiles.

(** C3 (the spherical variant does not order by the distance to the
    center): for the south-east view the spherical search returns the four
    visible tiles with the tile under the center last, their squared
    distances to the center being 2, 1, 1, 0, while the flat search of
    the same center returns tiles in non-decreasing distance. *)
Theorem globeCoveringTiles_order :
  let tiles := globeCoveringTiles southEastView plainOptions in
  let flat := coveringTiles (openView 2 (0.875, 0.875)%Q false)
                            {| options := plainOptions; terrain := None |} in
  option_map (map (fun t => (canonicalZ t, canonicalX t, canonicalY t))) tiles
    = Some [(2, 2, 2); (2, 2, 3); (2, 3, 2); (2, 3, 3)]
  /\ option_map (centerDistances 2 (centerCoord southEastView)) tiles
     = Some [2; 1; 1; 0]%Q
  /\ option_map (fun ts => nonDecreasing (centerDistances 2 (0.875, 0.875)%Q ts)) tiles
     = Some false
  /\ option_map (fun ts => nonDecreasing (centerDistances 2 (0.875, 0.875)%Q ts)) flat
     = Some true
  /\ option_map (fun ts => map (fun t => (canonicalX t, canonicalY t)) (firstn 1 ts)) flat
     = Some [(3, 3)].
Proof.
  cbv zeta. repeat split; vm_compute; reflexivity.
Qed.

(** ** What holds of both variants *)

(** *** The sort *)

Definition byDistance (a b : ResultItem) : Prop := (distanceSq a <= distanceSq b)%Q.

Lemma insertByDistance_sorted (a : ResultItem) (l : list ResultItem) :
  StronglySorted byDistance l -> StronglySorted byDistance (insertByDistance a l).
Proof.
  induction 1 as [|b l Hs IH Hb]; simpl.
  - constructor; constructor.
  - destruct (Qle_bool (distanceSq a) (distanceSq b)) eqn:E.
    + apply Qle_bool_iff in E. constructor; [now constructor|].
      constructor; [exact E|].
      eapply List.Forall_impl; [|exact Hb]. intros c Hc. unfold byDistance in *.
      eapply Qle_trans; eassumption.
    + constructor; [exact IH|].
      apply List.Forall_forall. intros c Hc. apply insertByDistance_In in Hc as [-> | Hc].
      * unfold byDistance. apply Qlt_le_weak. apply Qnot_le_lt. intros Hle.
        apply Qle_bool_iff in Hle. congruence.
      * rewrite List.Forall_forall in Hb. now apply Hb.
Qed.

Lemma sortByDistance_sorted (l : list ResultItem) :
  StronglySorted byDistance (sortByDistance l).
Proof.
  induction l as [|a l IH]; simpl; [constructor|].
  now apply insertByDistance_sorted.
Qed.

Lemma insertByDistance_perm (a : ResultItem) (l : list ResultItem) :
  Permutation (insertByDistance a l) (a :: l).
Proof.
  induction l as [|b l IH]; simpl; [reflexivity|].
  destruct (Qle_bool (distanceSq a) (distanceSq b)); [reflexivity|].
  rewrite IH. apply perm_swap.
Qed.

Lemma sortByDistance_perm (l : list ResultItem) : Permutation (sortByDistance l) l.
Proof.
  induction l as [|a l IH]; simpl; [reflexivity|].
  rewrite insertByDistance_perm. now constructor.
Qed.

(** *** Nodes of the quadtree are visited once *)

Section Distinct.

Context {Item K : Type}.
Variable visit : Item -> Visit Item.
Variable inv : Item -> Prop.

(** [covers it k]: a tile of key [k] can be emitted below the node [it]. *)
Variable covers : Item -> K -> Prop.
Variable key : ResultItem -> K.

Definition apart (a b : Item) : Prop := forall k, covers a k -> covers b k -> False.

Inductive Separated : list Item -> Prop :=
| Separated_nil : Separated []
| Separated_cons a l : Forall (apart a) l -> Separated l -> Separated (a :: l).

Hypothesis emit_covered : forall it r, inv it -> visit it = Emit r -> covers it (key r).
Hypothesis split_covered : forall it children,
  inv it -> visit it = Split children ->
  Forall inv children
  /\ (forall c k, In c children -> covers c k -> covers it k)
  /\ Separated children.

Lemma apart_sym (a b : Item) : apart a b -> apart b a.
Proof.
  intros H k Hb Ha. exact (H k Ha Hb).
Qed.

Lemma Separated_app (l1 l2 : list Item) :
  Separated l1 -> Separated l2 ->
  (forall a b, In a l1 -> In b l2 -> apart a b) ->
  Separated (l1 ++ l2).
Proof.
  induction 1 as [|a l1 Ha Hs IH]; intros H2 Hcross; simpl; [exact H2|].
  constructor.
  - apply List.Forall_app. split; [exact Ha|].
    apply List.Forall_forall. intros b Hb. apply Hcross; [now left | exact Hb].
  - apply IH; [exact H2|]. intros a' b Ha' Hb. apply Hcross; [now right | exact Hb].
Qed.

Lemma Separated_rev (l : list Item) : Separated l -> Separated (rev l).
Proof.
  induction 1 as [|a l Ha Hs IH]; simpl; [constructor|].
  apply Separated_app; [exact IH | constructor; constructor|].
  intros b c Hb [<- | []]. apply apart_sym.
  rewrite List.Forall_forall in Ha. apply Ha. now apply in_rev.
Qed.

Lemma traverse_distinct (fuel : nat) : forall stack result out,
  Forall inv stack ->
  Separated stack ->
  NoDup (map key result) ->
  (forall it r, In it stack -> In r result -> ~ covers it (key r)) ->
  traverse visit fuel stack result = Some out ->
  NoDup (map key out).
Proof.
  induction fuel as [|fuel IH]; intros stack result out Hinv Hsep Hnd Hfresh Hrun.
  - destruct stack; [|discriminate]. injection Hrun as <-. exact Hnd.
  - destruct stack as [|it stack]; [injection Hrun as <-; exact Hnd|].
    inversion Hinv as [|? ? Hit Hrest]; subst.
    inversion Hsep as [|? ? Hapart Hsep']; subst.
    simpl in Hrun. destruct (visit it) as [|r|children] eqn:Ev.
    + eapply IH; [exact Hrest | exact Hsep' | exact Hnd | | exact Hrun].
      intros it' r Hin. apply Hfresh. now right.
    + pose proof (emit_covered _ _ Hit Ev) as Hcov.
      eapply IH; [exact Hrest | exact Hsep' | | | exact Hrun].
      * rewrite map_app. simpl. apply NoDup_app. split; [exact Hnd|].
        split; [|apply NoDup_singleton].
        intros k Hk Hk'. apply list_elem_of_In in Hk.
        apply list_elem_of_singleton in Hk'. subst k.
        apply in_map_iff in Hk as (r' & Hr' & Hin).
        apply (Hfresh it r'); [now left | exact Hin | now rewrite Hr'].
      * intros it' r' Hin Hr'. apply in_app_iff in Hr' as [Hr' | [<- | []]].
        -- apply Hfresh; [now right | exact Hr'].
        -- intros Hcov'. rewrite List.Forall_forall in Hapart.
           exact (Hapart it' Hin _ Hcov Hcov').
    + destruct (split_covered _ _ Hit Ev) as (Hchi & Hsub & Hchs).
      eapply IH; [| | exact Hnd | | exact Hrun].
      * apply List.Forall_app. split; [now apply List.Forall_rev | exact Hrest].
      * apply Separated_app; [now apply Separated_rev | exact Hsep' |].
        intros c b Hc Hb k Hck Hbk. apply in_rev in Hc.
        rewrite List.Forall_forall in Hapart.
        exact (Hapart b Hb k (Hsub _ _ Hc Hck) Hbk).
      * intros it' r' Hin Hr' Hcov. apply in_app_iff in Hin as [Hin | Hin].
        -- apply in_rev in Hin.
           exact (Hfresh it r' (or_introl eq_refl) Hr' (Hsub _ _ Hin Hcov)).
        -- exact (Hfresh it' r' (or_intror Hin) Hr' Hcov).
Qed.

End Distinct.

(** *** Shifts that do not overflow *)

Lemma toInt32_small (n : Z) : - 2 ^ 31 <= n < 2 ^ 31 -> toInt32 n = n.
Proof.
  intros H. unfold toInt32.
  destruct (Z_le_gt_dec 0 n).
  - rewrite Z.mod_small by lia.
    destruct (n <? 2 ^ 31) eqn:E; [reflexivity|]. apply Z.ltb_ge in E. lia.
  - replace (n mod 2 ^ 32) with (n + 2 ^ 32).
    + destruct (n + 2 ^ 32 <? 2 ^ 31) eqn:E; [apply Z.ltb_lt in E; lia | lia].
    + apply Z.mod_unique with (q := -1); lia.
Qed.

Lemma shl_1 (a : Z) : 0 <= a < 2 ^ 30 -> shl a 1 = 2 * a.
Proof.
  intros H. unfold shl. change (2 ^ (1 mod 32)) with 2.
  rewrite (toInt32_small a) by lia. rewrite toInt32_small; lia.
Qed.

Lemma shl_pow2 (n : Z) : 0 <= n <= 30 -> shl 1 n = 2 ^ n.
Proof.
  intros H. unfold shl. rewrite Z.mod_small by lia.
  change (toInt32 1) with 1. rewrite Z.mul_1_l.
  apply toInt32_small.
  assert (2 ^ n <= 2 ^ 30) by (apply Z.pow_le_mono_r; lia).
  pose proof (Z.pow_pos_nonneg 2 n). lia.
Qed.

(** *** The keys below a node *)

(** The key of a tile at [(z', x', y')] below the node [(z, x, y)] of the
    world copy [w]. *)
Definition covered (maxZoom oz w z x y : Z) (k : Z * Z * Z * Z) : Prop :=
  exists z' x' y',
    z <= z' <= maxZoom
    /\ x' / 2 ^ (z' - z) = x
    /\ y' / 2 ^ (z' - z) = y
    /\ k = (if z' =? maxZoom then oz else z', w, x', y').

Lemma covered_self (maxZoom oz w z x y : Z) :
  z <= maxZoom ->
  covered maxZoom oz w z x y (if z =? maxZoom then oz else z, w, x, y).
Proof.
  intros H. exists z, x, y. rewrite Z.sub_diag. simpl.
  rewrite !Z.div_1_r. repeat split; lia.
Qed.

Lemma covered_child (maxZoom oz w z x y a b : Z) (k : Z * Z * Z * Z) :
  0 <= a <= 1 -> 0 <= b <= 1 ->
  covered maxZoom oz w (z + 1) (2 * x + a) (2 * y + b) k ->
  covered maxZoom oz w z x y k.
Proof.
  intros Ha Hb (z' & x' & y' & Hz & Hx & Hy & ->).
  exists z', x', y'. split; [lia|].
  replace (z' - z) with (z' - (z + 1) + 1) by lia.
  rewrite Z.pow_add_r by lia. change (2 ^ 1) with 2.
  rewrite <- !Z.div_div by (try apply Z.pow_pos_nonneg; lia).
  rewrite Hx, Hy. repeat split.
  - symmetry. apply Z.div_unique with (r := a); lia.
  - symmetry. apply Z.div_unique with (r := b); lia.
Qed.

Lemma covered_same (maxZoom oz w1 w2 z x1 y1 x2 y2 : Z) (k : Z * Z * Z * Z) :
  maxZoom <= oz ->
  covered maxZoom oz w1 z x1 y1 k ->
  covered maxZoom oz w2 z x2 y2 k ->
  w1 = w2 /\ x1 = x2 /\ y1 = y2.
Proof.
  intros Hoz (z1 & x1' & y1' & Hz1 & Hx1 & Hy1 & ->) (z2 & x2' & y2' & Hz2 & Hx2 & Hy2 & Hk).
  injection Hk as Hz Hw Hx Hy. subst x2' y2' w2.
  assert (z1 = z2).
  { destruct (Z.eqb_spec z1 maxZoom), (Z.eqb_spec z2 maxZoom); lia. }
  subst z2. rewrite Hx1 in Hx2. rewrite Hy1 in Hy2. auto.
Qed.

(** *** The spherical variant: zoom and keys *)

Lemma distanceToTileSimple_near (p t size : Q) :
  (0 <= p <= 1 -> 0 <= t <= 1 -> 0 <= size ->
   distanceToTileSimple p t size <= 1)%Q.
Proof.
  intros Hp Ht Hs. unfold distanceToTileSimple.
  destruct (Qltb (p - t) 0) eqn:E; [Lqa.lra|].
  apply Q.max_lub; Lqa.lra.
Qed.

Lemma distanceToTile_near (px py tx ty size : Q) :
  (0 <= px <= 1 -> 0 <= py <= 1 -> 0 <= tx <= 1 -> 0 <= ty <= 1 -> 0 <= size ->
   distanceToTile px py tx ty size <= 1)%Q.
Proof.
  intros Hpx Hpy Htx Hty Hs. unfold distanceToTile. cbv zeta.
  eapply Qle_trans; [apply Q.le_min_l|].
  eapply Qle_trans; [apply Q.le_min_l|].
  eapply Qle_trans; [apply Q.le_min_r|].
  unfold distanceToTileWrapX.
  apply Q.max_lub; [|now apply distanceToTileSimple_near].
  destruct (Qltb (px - tx) 0) eqn:E1.
  - eapply Qle_trans; [apply Q.le_min_l|]. Lqa.lra.
  - destruct (Qltb 1 (px - tx)) eqn:E2; [|Lqa.lra].
    apply Qltb_lt in E2. Lqa.lra.
Qed.

(** A node of the spherical search with its coordinates in range. *)
Definition globeBounds (maxZoom : Z) (it : GlobeItem) : Prop :=
  0 <= zoom it <= maxZoom
  /\ 0 <= x it < 2 ^ zoom it
  /\ 0 <= y it < 2 ^ zoom it.

Definition globeCovers (maxZoom oz : Z) (it : GlobeItem) (k : Z * Z * Z * Z) : Prop :=
  exists w, covered maxZoom oz w (zoom it) (x it) (y it) k.

Lemma tile_in_world (x zoom : Z) :
  0 <= zoom -> 0 <= x < 2 ^ zoom ->
  (0 <= inject_Z x / inject_Z (2 ^ zoom) <= 1)%Q
  /\ (0 <= 1 / inject_Z (2 ^ zoom))%Q.
Proof.
  intros Hz Hx.
  assert (Hs : (0 < inject_Z (2 ^ zoom))%Q).
  { change 0%Q with (inject_Z 0). rewrite <- Zlt_Qlt. now apply Z.pow_pos_nonneg. }
  assert (Hx0 : (0 <= inject_Z x)%Q)
    by (change 0%Q with (inject_Z 0); rewrite <- Zle_Qle; lia).
  assert (Hx1 : (inject_Z x <= inject_Z (2 ^ zoom))%Q) by (rewrite <- Zle_Qle; lia).
  repeat split.
  - apply Qle_shift_div_l; [exact Hs|]. now rewrite Qmult_0_l.
  - apply Qle_shift_div_r; [exact Hs|]. now rewrite Qmult_1_l.
  - apply Qle_shift_div_l; [exact Hs|]. rewrite Qmult_0_l. Lqa.lra.
Qed.

(** With the center in the world, every node is near enough to be split:
    tiles are emitted at the zoom of the search only. *)
Lemma globeVisit_emit_zoom (transform : GlobeView) (maxZoom oz : Z)
    (cameraPoint centerPoint : Q * Q) (it : GlobeItem) (r : ResultItem) :
  maxZoom <= 30 ->
  (0 <= fst (centerCoord transform) <= 1)%Q ->
  (0 <= snd (centerCoord transform) <= 1)%Q ->
  globeBounds maxZoom it ->
  globeVisit transform maxZoom oz cameraPoint centerPoint it = Emit r ->
  zoom it = maxZoom.
Proof.
  intros Hmax Hcx Hcy (Hz & Hx & Hy) H. unfold globeVisit in H.
  destruct (if fullyVisible it then _ else _) as [fv|]; [|discriminate].
  destruct (Z.eqb_spec (zoom it) maxZoom) as [|Hne]; [assumption|]. exfalso.
  rewrite orb_false_l in H.
  match type of H with (if negb ?b then _ else _) = _ =>
    assert (Hsplit : b = true); [|rewrite Hsplit in H; discriminate] end.
  apply Qle_bool_iff.
  rewrite Z.max_l by lia. rewrite shl_pow2 by lia.
  destruct (tile_in_world (x it) (zoom it)) as [Htx Hsize]; [lia | lia |].
  destruct (tile_in_world (y it) (zoom it)) as [Hty _]; [lia | lia |].
  pose proof (distanceToTile_near _ _ _ _ _ Hcx Hcy Htx Hty Hsize) as Hnear.
  unfold radiusOfMaxLvlLodInTiles.
  match goal with |- (Qmin ?a ?b * 2 <= 3)%Q =>
    pose proof (Q.le_min_l a b) end.
  Lqa.lra.
Qed.

Definition quadrants : list (Z * Z) := [(0, 0); (1, 0); (0, 1); (1, 1)].

Lemma globeVisit_children (transform : GlobeView) (maxZoom oz : Z)
    (cameraPoint centerPoint : Q * Q) (it : GlobeItem) (children : list GlobeItem) :
  maxZoom <= 30 ->
  globeBounds maxZoom it ->
  globeVisit transform maxZoom oz cameraPoint centerPoint it = Split children ->
  zoom it < maxZoom
  /\ exists fv, children =
       map (fun q => {| zoom := zoom it + 1;
                        x := 2 * x it + fst q;
                        y := 2 * y it + snd q;
                        fullyVisible := fv |}) quadrants.
Proof.
  intros Hmax (Hz & Hx & Hy) H.
  apply globeVisit_split in H as (Hne & fv & ->).
  split; [lia|]. exists fv.
  assert (Hp : 2 ^ zoom it <= 2 ^ 29) by (apply Z.pow_le_mono_r; lia).
  rewrite !shl_1 by lia. reflexivity.
Qed.

Lemma searchZoom_range (z m M : Z) (options : CoveringTilesOptions) :
  minzoom options = Some m -> maxzoom options = Some M -> m <= M ->
  belowMinzoom z options = false ->
  m <= searchZoom z options <= M /\ searchZoom z options <= z.
Proof.
  unfold belowMinzoom, searchZoom. intros -> -> HmM Hb.
  apply Z.ltb_ge in Hb. destruct (Z.ltb_spec M z); lia.
Qed.

Lemma globeQuadrants_separated (maxZoom oz z x y : Z) (fv : bool) :
  maxZoom <= oz ->
  Separated (globeCovers maxZoom oz)
    (map (fun q => {| zoom := z + 1; x := 2 * x + fst q; y := 2 * y + snd q;
                      fullyVisible := fv |}) quadrants).
Proof.
  intros Hoz. simpl.
  repeat (constructor; [repeat constructor|]); try constructor;
    intros k [w1 H1] [w2 H2]; simpl in *;
    destruct (covered_same _ _ _ _ _ _ _ _ _ _ Hoz H1 H2) as (_ & Hx & Hy). all: lia.
Qed.

(** The spherical search with a minimum and a maximum zoom and the center
    in the world: it returns tiles of the zoom of the search only, which
    lies between the two, and no two of them have the same key. *)
Lemma globeCoveringTiles_zoom_distinct (transform : GlobeView)
    (options : CoveringTilesOptions) (m M : Z) :
  minzoom options = Some m -> maxzoom options = Some M ->
  0 <= m <= M -> M <= 30 ->
  (0 <= fst (centerCoord transform) <= 1)%Q ->
  (0 <= snd (centerCoord transform) <= 1)%Q ->
  exists tiles,
    globeCoveringTiles transform options = Some tiles
    /\ Forall (fun t => m <= canonicalZ t <= M) tiles
    /\ NoDup (map tileKey tiles).
Proof.
  intros Hmin Hmax HmM HM Hcx Hcy. unfold globeCoveringTiles.
  destruct (belowMinzoom _ options) eqn:Ebelow.
  { exists []. repeat split; constructor. }
  destruct (searchZoom_range _ m M options Hmin Hmax (proj2 HmM) Ebelow) as [Hz Hactual].
  set (actualZ := coveringZoomLevel transform options) in *.
  set (maxZoom := searchZoom actualZ options) in *.
  set (oz := if reparseOverscaled options then actualZ else maxZoom).
  assert (Hoz : maxZoom <= oz) by (unfold oz; destruct (reparseOverscaled options); lia).
  assert (Hdeep : maxZoom <= 30) by lia.
  match goal with |- context [traverse ?v ?f ?st ?res] =>
    set (visit := v); set (fuel := f); set (stack := st) end.
  assert (Hstack : Forall (globeBounds maxZoom) stack).
  { repeat constructor; simpl; lia. }
  destruct (traverse_total visit (globeBounds maxZoom)
              (fun r => canonicalZ (tileID r) = maxZoom) (globeDepth maxZoom))
    with (fuel := fuel) (stack := stack) (result := @nil ResultItem)
    as (out & Hout & Hall).
  - intros it r Hit Hv.
    pose proof (globeVisit_emit_zoom _ _ _ _ _ _ _ Hdeep Hcx Hcy Hit Hv) as Hzoom.
    apply globeVisit_emit in Hv as (_ & -> & _). exact Hzoom.
  - intros it children Hit Hv.
    apply globeVisit_children in Hv as (Hlt & fv & ->); [|lia|exact Hit].
    split; [simpl; lia|].
    destruct Hit as (Hzi & Hxi & Hyi).
    assert (Hp : 2 ^ (zoom it + 1) = 2 * 2 ^ zoom it)
      by (rewrite Z.pow_add_r by lia; lia).
    unfold globeBounds, globeDepth.
    repeat constructor; simpl; lia.
  - exact Hstack.
  - constructor.
  - unfold weight, globeDepth, stack, fuel. simpl. rewrite Z.sub_0_r.
    pose proof (traversalFuel_enough 1 maxZoom). lia.
  - rewrite Hout. eexists. split; [reflexivity|]. split.
    + apply List.Forall_map. apply sortByDistance_Forall.
      eapply List.Forall_impl; [|exact Hall]. intros r Hr. simpl in Hr. lia.
    + rewrite map_map.
      rewrite (Permutation_map (fun r => tileKey (tileID r)) (sortByDistance_perm out)).
      eapply (traverse_distinct visit (globeBounds maxZoom) (globeCovers maxZoom oz)
                (fun r => tileKey (tileID r))) with (result := @nil ResultItem);
        [| |exact Hstack| | | |exact Hout].
      * intros it r Hit Hv.
        apply globeVisit_emit in Hv as (_ & Hcz & Hcx' & Hcy' & Hoz').
        exists (wrap (tileID r)). unfold tileKey. rewrite Hcx', Hcy', Hoz'.
        apply covered_self. destruct Hit as (Hzi & _). lia.
      * intros it children Hit Hv.
        apply globeVisit_children in Hv as (Hlt & fv & ->); [|lia|exact Hit].
        destruct Hit as (Hzi & Hxi & Hyi).
        assert (Hp : 2 ^ (zoom it + 1) = 2 * 2 ^ zoom it)
          by (rewrite Z.pow_add_r by lia; lia).
        split; [|split].
        -- unfold globeBounds. repeat constructor; simpl; lia.
        -- intros c k Hc [w Hk]. exists w.
           simpl in Hc.
           destruct Hc as [<- | [<- | [<- | [<- | []]]]]; simpl in Hk;
             eapply covered_child; try exact Hk; lia.
        -- now apply globeQuadrants_separated.
      * repeat constructor.
      * constructor.
      * intros it r _ [].
Qed.

(** *** The flat variant: zoom, keys and order *)

Definition coordsOf {P : Primitives} (it : MercatorItem P) : Z * Z * Z * Z :=
  (mwrap it, mzoom it, mx it, my it).

Definition boundsOf (maxZoom : Z) (c : Z * Z * Z * Z) : Prop :=
  let '(w, z, x, y) := c in
  0 <= z <= maxZoom /\ 0 <= x < 2 ^ z /\ 0 <= y < 2 ^ z.

Definition coversOf (maxZoom oz : Z) (c : Z * Z * Z * Z) (k : Z * Z * Z * Z) : Prop :=
  let '(w, z, x, y) := c in covered maxZoom oz w z x y k.

Lemma Separated_map {A B K : Type} (f : A -> B) (covers : B -> K -> Prop) (l : list A) :
  Separated covers (map f l) -> Separated (fun a => covers (f a)) l.
Proof.
  induction l as [|a l IH]; simpl; intros H; [constructor|].
  inversion H as [|? ? Ha Hl]; subst. constructor; [|now apply IH].
  apply List.Forall_forall. intros b Hb. rewrite List.Forall_forall in Ha.
  apply (Ha (f b)). now apply in_map.
Qed.

Lemma mercatorVisit_children {P : Primitives} (transform : MercatorView P)
    (terrain : option Terrain) (cameraFrustum : Frustum P) (minZoom maxZoom oz : Z)
    (radius : Q) (cameraPoint centerPoint : Q * Q * Q) (it : MercatorItem P)
    (children : list (MercatorItem P)) :
  maxZoom <= 30 ->
  boundsOf maxZoom (coordsOf it) ->
  mercatorVisit transform terrain cameraFrustum minZoom maxZoom oz radius
                cameraPoint centerPoint it = Split children ->
  mzoom it < maxZoom
  /\ map coordsOf children =
     map (fun q => (mwrap it, mzoom it + 1, 2 * mx it + fst q, 2 * my it + snd q))
         quadrants.
Proof.
  intros Hmax (Hz & Hx & Hy) H.
  apply mercatorVisit_split in H as (Hne & Hch).
  split; [lia|].
  assert (Hp : 2 ^ mzoom it <= 2 ^ 29) by (apply Z.pow_le_mono_r; lia).
  unfold coordsOf. rewrite Hch. rewrite !shl_1 by lia. reflexivity.
Qed.

Lemma quadrants_bounds (maxZoom w z x y : Z) :
  z < maxZoom ->
  boundsOf maxZoom (w, z, x, y) ->
  Forall (fun c => boundsOf maxZoom c /\ snd (fst (fst c)) = z + 1)
    (map (fun q => (w, z + 1, 2 * x + fst q, 2 * y + snd q)) quadrants).
Proof.
  intros Hlt (Hz & Hx & Hy).
  assert (Hp : 2 ^ (z + 1) = 2 * 2 ^ z) by (rewrite Z.pow_add_r by lia; lia).
  repeat constructor; simpl; lia.
Qed.

Lemma quadrants_covered (maxZoom oz w z x y : Z) (c k : Z * Z * Z * Z) :
  In c (map (fun q => (w, z + 1, 2 * x + fst q, 2 * y + snd q)) quadrants) ->
  coversOf maxZoom oz c k -> coversOf maxZoom oz (w, z, x, y) k.
Proof.
  simpl. intros [<- | [<- | [<- | [<- | []]]]] Hk; simpl in *;
    eapply covered_child; try exact Hk; lia.
Qed.

Lemma quadrants_separated (maxZoom oz w z x y : Z) :
  maxZoom <= oz ->
  Separated (coversOf maxZoom oz)
    (map (fun q => (w, z + 1, 2 * x + fst q, 2 * y + snd q)) quadrants).
Proof.
  intros Hoz. simpl.
  repeat (constructor; [repeat constructor|]); try constructor;
    intros k H1 H2; simpl in *;
    destruct (covered_same _ _ _ _ _ _ _ _ _ _ Hoz H1 H2) as (_ & Hx & Hy); lia.
Qed.

Lemma rootTiles_separated {P : Primitives} (transform : MercatorView P) (numTiles : Q)
    (maxZoom oz : Z) :
  0 <= maxZoom -> maxZoom <= oz ->
  Forall (fun it => boundsOf maxZoom (coordsOf it)) (rootTiles transform numTiles)
  /\ Separated (fun it => coversOf maxZoom oz (coordsOf it))
       (rootTiles transform numTiles).
Proof.
  intros Hz Hoz. unfold rootTiles.
  destruct (_renderWorldCopies transform); simpl; split.
  - repeat constructor; simpl; lia.
  - repeat (constructor; [repeat constructor|]); try constructor;
      intros k H1 H2; unfold coordsOf in *; simpl in *;
      destruct (covered_same _ _ _ _ _ _ _ _ _ _ Hoz H1 H2) as (Hw & _ & _); lia.
  - repeat constructor; simpl; lia.
  - repeat constructor.
Qed.

Lemma sorted_tiles (f : OverscaledTileID -> Q) (l : list ResultItem) :
  Forall (fun r => distanceSq r = f (tileID r)) l ->
  StronglySorted byDistance l ->
  StronglySorted (fun a b => (f a <= f b)%Q) (map tileID l).
Proof.
  intros Hf Hs. induction Hs as [|a l Hs IH Ha]; simpl; [constructor|].
  inversion Hf as [|? ? Hfa Hfl]; subst.
  constructor; [now apply IH|].
  apply List.Forall_map. rewrite List.Forall_forall in *.
  intros b Hb. unfold byDistance in Ha. rewrite <- Hfa, <- (Hfl b Hb). now apply Ha.
Qed.

(** The flat search with a minimum and a maximum zoom: it returns tiles
    of zooms between the two, no two of them with the same key, in
    non-decreasing squared distance to the center. *)
Lemma coveringTiles_zoom_distinct_sorted {P : Primitives} (transform : MercatorView P)
    (opts : MercatorOptions) (m M : Z) :
  minzoom (options opts) = Some m -> maxzoom (options opts) = Some M ->
  0 <= m <= M -> M <= 30 ->
  let z := searchZoom (mercatorCoveringZoomLevel transform (options opts))
                      (options opts) in
  exists tiles,
    coveringTiles transform opts = Some tiles
    /\ Forall (fun t => m <= canonicalZ t <= M) tiles
    /\ NoDup (map tileKey tiles)
    /\ StronglySorted
         (fun a b => (distanceSqToCenter z (mercatorCenterCoord transform) a
                      <= distanceSqToCenter z (mercatorCenterCoord transform) b)%Q)
         tiles.
Proof.
  intros Hmin Hmax HmM HM. cbv zeta. unfold coveringTiles.
  destruct (belowMinzoom _ (options opts)) eqn:Ebelow.
  { exists []. repeat split; constructor. }
  destruct (searchZoom_range _ m M (options opts) Hmin Hmax (proj2 HmM) Ebelow)
    as [Hz Hactual].
  set (actualZ := mercatorCoveringZoomLevel transform (options opts)) in *.
  set (maxZoom := searchZoom actualZ (options opts)) in *.
  set (oz := if reparseOverscaled (options opts) then actualZ else maxZoom).
  assert (Hoz : maxZoom <= oz)
    by (unfold oz; destruct (reparseOverscaled (options opts)); lia).
  assert (Hdeep : maxZoom <= 30) by lia.
  rewrite Hmin.
  match goal with |- context [traverse ?v ?f ?st ?res] =>
    set (visit := v); set (fuel := f) end.
  destruct (rootTiles_separated transform (pow2 maxZoom) maxZoom oz) as [Hroots Hsep];
    [lia | exact Hoz |].
  destruct (rootTiles_inv transform (pow2 maxZoom) maxZoom) as (_ & Hlen & Hzero); [lia|].
  set (center := mercatorCenterCoord transform) in *.
  destruct (traverse_total visit (fun it => boundsOf maxZoom (coordsOf it))
              (fun r => m <= canonicalZ (tileID r) <= M
                        /\ distanceSq r = distanceSqToCenter maxZoom center (tileID r))
              (mercatorDepth maxZoom))
    with (fuel := fuel) (stack := rev (rootTiles transform (pow2 maxZoom)))
         (result := @nil ResultItem)
    as (out & Hout & Hall).
  - intros it r Hit Hv.
    apply mercatorVisit_emit in Hv as (_ & Hcz & Hcx & Hcy & _ & Hzoom & Hdist).
    destruct Hit as (Hzi & _). split.
    + rewrite Hcz. destruct Hzoom as [Hzoom | Hzoom]; [lia|].
      destruct (_ && _) in Hzoom; lia.
    + rewrite Hdist. unfold distanceSqToCenter. now rewrite Hcx, Hcy.
  - intros it children Hit Hv.
    apply mercatorVisit_children in Hv as (Hlt & Hch); [|lia|exact Hit].
    split; [apply (f_equal (@length _)) in Hch; rewrite !length_map in Hch;
            rewrite Hch; simpl; lia|].
    pose proof (quadrants_bounds maxZoom (mwrap it) _ _ _ Hlt Hit) as Hb.
    rewrite <- Hch in Hb. apply List.Forall_map in Hb.
    eapply List.Forall_impl; [|exact Hb].
    intros c [Hc Hzc]. split; [exact Hc|].
    unfold mercatorDepth. simpl in Hzc. lia.
  - now apply List.Forall_rev.
  - constructor.
  - rewrite weight_rev.
    pose proof (traversalFuel_enough 7 maxZoom) as Hf.
    assert (Hw : (weight (mercatorDepth maxZoom) (rootTiles transform (pow2 maxZoom))
                  <= length (rootTiles transform (pow2 maxZoom))
                     * treeSize (Z.to_nat maxZoom))%nat).
    { apply weight_children. eapply List.Forall_impl; [|exact Hzero].
      intros it Hit. unfold mercatorDepth. rewrite Hit, Z.sub_0_r. lia. }
    unfold fuel. nia.
  - rewrite Hout. eexists. split; [reflexivity|]. split; [|split].
    + apply List.Forall_map. apply sortByDistance_Forall.
      eapply List.Forall_impl; [|exact Hall]. now intros r [Hr _].
    + rewrite map_map.
      rewrite (Permutation_map (fun r => tileKey (tileID r)) (sortByDistance_perm out)).
      eapply (traverse_distinct visit (fun it => boundsOf maxZoom (coordsOf it))
                (fun it => coversOf maxZoom oz (coordsOf it))
                (fun r => tileKey (tileID r))) with (result := @nil ResultItem);
        [| | | | | |exact Hout].
      * intros it r Hit Hv.
        apply mercatorVisit_emit in Hv as (Hw & Hcz & Hcx & Hcy & Hoz' & _).
        unfold tileKey, coordsOf, coversOf. rewrite Hw, Hcx, Hcy, Hoz'.
        apply covered_self. destruct Hit as (Hzi & _). simpl in Hzi. lia.
      * intros it children Hit Hv.
        apply mercatorVisit_children in Hv as (Hlt & Hch); [|lia|exact Hit].
        split; [|split].
        -- pose proof (quadrants_bounds maxZoom (mwrap it) _ _ _ Hlt Hit) as Hb.
           rewrite <- Hch in Hb. apply List.Forall_map in Hb.
           eapply List.Forall_impl; [|exact Hb]. now intros c [Hc _].
        -- intros c k Hc Hk.
           apply (quadrants_covered maxZoom oz (mwrap it) (mzoom it) (mx it) (my it)
                    (coordsOf c)); [|exact Hk].
           rewrite <- Hch. now apply in_map.
        -- apply Separated_map. rewrite Hch. now apply quadrants_separated.
      * now apply List.Forall_rev.
      * now apply Separated_rev.
      * constructor.
      * intros it r _ [].
    + apply sorted_tiles; [|apply sortByDistance_sorted].
      apply sortByDistance_Forall.
      eapply List.Forall_impl; [|exact Hall]. now intros r [_ Hr].
Qed.

End CoveringTiles.

(** * Placement of glyphs along a projected line ([symbol/projection]) *)

Module SymbolProjection.

#[local] Open Scope R_scope.

(** ** Numbers

    The numbers the caller passes (offsets, font sizes, the entries of
    matrices, the size of the viewport) are reals.  The numbers the
    placement computes from them are the reals extended by what a
    division by zero brings in: both infinities and [NaN], with the
    arithmetic and the comparisons of JavaScript on them.  A zero carries
    no sign: a quotient by zero is taken by the positive zero. *)

Inductive Num :=
| Fin (r : R)
| PInf
| NInf
| NaN.

Declare Scope num_scope.
Delimit Scope num_scope with num.
Bind Scope num_scope with Num.

Definition nneg (a : Num) : Num :=
  match a with
  | Fin r => Fin (- r)
  | PInf => NInf
  | NInf => PInf
  | NaN => NaN
  end.

Definition nadd (a b : Num) : Num :=
  match a, b with
  | Fin r, Fin s => Fin (r + s)
  | NaN, _ | _, NaN => NaN
  | PInf, NInf | NInf, PInf => NaN
  | PInf, _ | _, PInf => PInf
  | NInf, _ | _, NInf => NInf
  end.

Definition nsub (a b : Num) : Num := nadd a (nneg b).

(** An infinity times a real of a sign. *)
Definition infinityTimes (positive : bool) (r : R) : Num :=
  if Rlt_dec 0 r then (if positive then PInf else NInf)
  else if Rlt_dec r 0 then (if positive then NInf else PInf)
  else NaN.

Definition nmul (a b : Num) : Num :=
  match a, b with
  | Fin r, Fin s => Fin (r * s)
  | NaN, _ | _, NaN => NaN
  | Fin r, PInf | PInf, Fin r => infinityTimes true r
  | Fin r, NInf | NInf, Fin r => infinityTimes false r
  | PInf, PInf | NInf, NInf => PInf
  | PInf, NInf | NInf, PInf => NInf
  end.

Definition ndiv (a b : Num) : Num :=
  match a, b with
  | Fin r, Fin s => if Req_dec_T s 0 then infinityTimes true r else Fin (r / s)
  | NaN, _ | _, NaN => NaN
  | Fin _, _ => Fin 0
  | PInf, Fin s => if Rlt_dec s 0 then NInf else PInf
  | NInf, Fin s => if Rlt_dec s 0 then PInf else NInf
  | _, _ => NaN
  end.

(** [Math.sqrt] and [Math.abs] *)
Definition nsqrt (a : Num) : Num :=
  match a with
  | Fin r => if Rlt_dec r 0 then NaN else Fin (sqrt r)
  | PInf => PInf
  | NInf | NaN => NaN
  end.

Definition nabs (a : Num) : Num :=
  match a with
  | Fin r => Fin (Rabs r)
  | PInf | NInf => PInf
  | NaN => NaN
  end.

(** [a < b], [a <= b] and [a === b]: false whenever one side is [NaN]. *)
Definition nltb (a b : Num) : bool :=
  match a, b with
  | Fin r, Fin s => if Rlt_dec r s then true else false
  | NaN, _ | _, NaN => false
  | _, NInf => false
  | PInf, _ => false
  | _, _ => true
  end.

Definition nleb (a b : Num) : bool :=
  match a, b with
  | Fin r, Fin s => if Rle_dec r s then true else false
  | NaN, _ | _, NaN => false
  | NInf, _ => true
  | _, PInf => true
  | _, _ => false
  end.

Definition neqb (a b : Num) : bool :=
  match a, b with
  | Fin r, Fin s => if Req_dec_T r s then true else false
  | PInf, PInf | NInf, NInf => true
  | _, _ => false
  end.

Definition nlt (a b : Num) : Prop := nltb a b = true.
Definition nle (a b : Num) : Prop := nleb a b = true.

Notation "a + b" := (nadd a b) : num_scope.
Notation "a - b" := (nsub a b) : num_scope.
Notation "- a" := (nneg a) : num_scope.
Notation "a * b" := (nmul a b) : num_scope.
Notation "a / b" := (ndiv a b) : num_scope.
Notation "a < b" := (nlt a b) : num_scope.
Notation "a <= b" := (nle a b) : num_scope.

(** A length: a real that is not negative, [Infinity] or [NaN]. *)
Definition isLength (a : Num) : Prop :=
  match a with
  | Fin r => 0 <= r
  | PInf | NaN => True
  | NInf => False
  end.

Lemma nleb_Fin (a : Num) (bound : R) :
  nleb a (Fin bound) = true <-> (exists r, a = Fin r /\ r <= bound) \/ a = NInf.
Proof.
  destruct a as [r| | |]; simpl.
  - destruct (Rle_dec r bound) as [H|H]; split.
    + intros _. left. now exists r.
    + reflexivity.
    + discriminate.
    + intros [(s & E & Hs) | E]; [injection E as <-; contradiction | discriminate].
  - split; [discriminate|]. intros [(s & E & _) | E]; discriminate.
  - split; [now right | reflexivity].
  - split; [discriminate|]. intros [(s & E & _) | E]; discriminate.
Qed.

Lemma nleb_length (a : Num) (bound : R) :
  isLength a -> nleb a (Fin bound) = true -> exists r, a = Fin r /\ 0 <= r <= bound.
Proof.
  intros Hlen H. apply nleb_Fin in H as [(r & -> & Hr) | ->]; [|contradiction].
  exists r. simpl in Hlen. auto.
Qed.

Lemma nleb_mono (a : Num) (small large : R) :
  small <= large -> nleb a (Fin small) = true -> nleb a (Fin large) = true.
Proof.
  intros Hle H. apply nleb_Fin. apply nleb_Fin in H as [(r & -> & Hr) | ->].
  - left. exists r. split; [reflexivity | lra].
  - now right.
Qed.

Lemma nltb_nleb (a : Num) (bound : R) :
  nltb (Fin bound) a = true -> nleb a (Fin bound) = false.
Proof.
  destruct a as [r| | |]; simpl; try discriminate; try reflexivity.
  destruct (Rlt_dec bound r), (Rle_dec r bound); try reflexivity; try discriminate.
  lra.
Qed.

Lemma nleb_false (a : Num) (bound : R) :
  nleb a (Fin bound) = false <-> nltb (Fin bound) a = true \/ a = NaN.
Proof.
  destruct a as [r| | |]; simpl.
  - destruct (Rlt_dec bound r), (Rle_dec r bound); split;
      try (intros [H|H]); auto; try discriminate; try lra.
  - split; auto.
  - split; [discriminate | intros [H|H]; discriminate].
  - split; auto.
Qed.

Lemma isLength_nadd (a b : Num) : isLength a -> isLength b -> isLength (a + b).
Proof.
  destruct a, b; simpl; auto; lra.
Qed.

Lemma isLength_nsqrt (a : Num) : isLength (nsqrt a).
Proof.
  destruct a as [r| | |]; simpl; auto.
  destruct (Rlt_dec r 0); simpl; [exact I | apply sqrt_pos].
Qed.

Lemma nadd_Fin_assoc (r : R) (b c : Num) : (Fin r + (b + c) = (Fin r + b) + c)%num.
Proof.
  destruct b, c; simpl; try reflexivity. now rewrite Rplus_assoc.
Qed.

Lemma nadd_Fin_0 (a : Num) : (Fin 0 + a)%num = a.
Proof.
  destruct a; simpl; try reflexivity. now rewrite Rplus_0_l.
Qed.

Lemma ndiv_Fin (r s : R) : s <> 0 -> (Fin r / Fin s)%num = Fin (r / s).
Proof.
  intros H. simpl. destruct (Req_dec_T s 0); [contradiction | reflexivity].
Qed.

Lemma nsqrt_Fin (r : R) : 0 <= r -> nsqrt (Fin r) = Fin (sqrt r).
Proof.
  intros H. simpl. destruct (Rlt_dec r 0); [lra | reflexivity].
Qed.

Lemma nltb_Fin (r s : R) : nltb (Fin r) (Fin s) = true <-> r < s.
Proof.
  simpl. destruct (Rlt_dec r s); split; auto; discriminate.
Qed.

Lemma nleb_Fin_Fin (r s : R) : nleb (Fin r) (Fin s) = true <-> r <= s.
Proof.
  simpl. destruct (Rle_dec r s); split; auto; discriminate.
Qed.

Lemma neqb_Fin (r s : R) : neqb (Fin r) (Fin s) = true <-> r = s.
Proof.
  simpl. destruct (Req_dec_T r s); split; auto; discriminate.
Qed.

(** ** Points ([@mapbox/point-geometry]) *)

Record Point := {
  x : Num;
  y : Num
}.

Definition add (a p : Point) : Point := {| x := x a + x p; y := y a + y p |}.
Definition sub (a p : Point) : Point := {| x := x a - x p; y := y a - y p |}.
Definition _mult (a : Point) (k : Num) : Point := {| x := x a * k; y := y a * k |}.
Definition _div (a : Point) (k : Num) : Point := {| x := x a / k; y := y a / k |}.
Definition mag (a : Point) : Num := nsqrt (x a * x a + y a * y a).
Definition _unit (a : Point) : Point := _div a (mag a).
Definition _perp (a : Point) : Point := {| x := - y a; y := x a |}.

(** The point of two real coordinates, and the point whose coordinates
    are [NaN]. *)
Definition finitePoint (a b : R) : Point := {| x := Fin a; y := Fin b |}.
Definition nanPoint : Point := {| x := NaN; y := NaN |}.

(** ** Points: what the placement needs of their geometry *)

Lemma Point_eq (a b : Point) : x a = x b -> y a = y b -> a = b.
Proof.
  destruct a, b. simpl. intros -> ->. reflexivity.
Qed.

Lemma mag_isLength (a : Point) : isLength (mag a).
Proof. apply isLength_nsqrt. Qed.

Lemma mag_finitePoint (a b : R) : mag (finitePoint a b) = Fin (sqrt (a * a + b * b)).
Proof.
  unfold mag, finitePoint. simpl. destruct (Rlt_dec _ 0); [nra | reflexivity].
Qed.

(** Only a point of real coordinates has a real length. *)
Lemma mag_Fin (p : Point) (r : R) :
  mag p = Fin r -> exists a b, p = finitePoint a b /\ r = sqrt (a * a + b * b).
Proof.
  destruct p as [[a| | |] [b| | |]]; unfold mag; simpl; try discriminate.
  destruct (Rlt_dec _ 0); [discriminate|]. intros E. injection E as <-.
  exists a, b. split; reflexivity.
Qed.

Lemma sqrt_squares_0 (a b : R) : sqrt (a * a + b * b) = 0 -> a = 0 /\ b = 0.
Proof.
  intros H. apply sqrt_eq_0 in H; [|nra]. split; nra.
Qed.

(** [p.mag() === 0] holds of the zero vector only. *)
Lemma mag_0 (p : Point) : neqb (mag p) (Fin 0) = true -> p = finitePoint 0 0.
Proof.
  intros H. destruct (mag p) as [r| | |] eqn:E; try discriminate.
  apply neqb_Fin in H. subst r.
  apply mag_Fin in E as (a & b & -> & E).
  symmetry in E. apply sqrt_squares_0 in E as [-> ->]. reflexivity.
Qed.

Lemma sub_finitePoint_0 (p q : Point) :
  sub p q = finitePoint 0 0 -> exists a b, p = finitePoint a b /\ q = finitePoint a b.
Proof.
  destruct p as [[a| | |] [b| | |]], q as [[c| | |] [d| | |]];
    unfold sub, finitePoint; simpl; try discriminate.
  intros E. injection E as E1 E2. exists a, b. split; [reflexivity|].
  f_equal; f_equal; lra.
Qed.

Lemma sqrt_scaled (a b k : R) :
  0 <= k -> sqrt (a * k * (a * k) + b * k * (b * k)) = k * sqrt (a * a + b * b).
Proof.
  intros Hk.
  replace (a * k * (a * k) + b * k * (b * k)) with (k * k * (a * a + b * b)) by ring.
  rewrite sqrt_mult by nra. rewrite sqrt_square by assumption. reflexivity.
Qed.

(** The substitute for a vertex behind the camera: the point at distance
    [length] from [previous] along [segment]. *)
Definition substitute (previous segment : Point) (length : Num) : Point :=
  add previous (_mult segment (length / mag segment)).

(** Evaluation of the arithmetic where reals decide it. *)
Ltac decide_reals :=
  repeat (simpl; try unfold infinityTimes;
          match goal with
          | |- context [Rlt_dec ?a ?b] => destruct (Rlt_dec a b); try lra
          | |- context [Rle_dec ?a ?b] => destruct (Rle_dec a b); try lra
          | |- context [Req_dec_T ?a ?b] => destruct (Req_dec_T a b); try lra
          end).

(** Where the previous point and the segment have real coordinates and
    the segment is not the zero vector, the substitute lies at the
    length asked for along the segment. *)
Lemma substitute_finite (a b ua ub l : R) :
  let m := sqrt (ua * ua + ub * ub) in
  m <> 0 ->
  sub (substitute (finitePoint a b) (finitePoint ua ub) (Fin l)) (finitePoint a b)
  = finitePoint (ua * (l / m)) (ub * (l / m)).
Proof.
  intros m Hm. unfold substitute. rewrite mag_finitePoint. fold m.
  unfold sub, add, _mult, finitePoint. cbn [x y].
  rewrite ndiv_Fin by exact Hm. simpl. f_equal; f_equal; ring.
Qed.

(** Everywhere else it is lost: its distance from the previous point is
    not a number. *)
Lemma substitute_lost (previous segment : Point) (l : R) :
  0 < l ->
  ~ (exists a b ua ub,
       previous = finitePoint a b /\ segment = finitePoint ua ub
       /\ sqrt (ua * ua + ub * ub) <> 0) ->
  mag (sub (substitute previous segment (Fin l)) previous) = NaN.
Proof.
  intros Hl Hnot.
  destruct segment as [[ua| | |] [ub| | |]], previous as [[a| | |] [b| | |]];
    unfold substitute, mag, sub, add, _mult; cbn [x y];
    try (decide_reals; reflexivity).
  destruct (Req_dec_T (sqrt (ua * ua + ub * ub)) 0) as [Hz|Hnz].
  - destruct (sqrt_squares_0 _ _ Hz) as [-> ->]. decide_reals; reflexivity.
  - exfalso. apply Hnot. exists a, b, ua, ub. repeat split. exact Hnz.
Qed.

Lemma substitute_mag (previous segment : Point) (l : R) :
  0 < l ->
  mag (sub (substitute previous segment (Fin l)) previous) = Fin l
  \/ mag (sub (substitute previous segment (Fin l)) previous) = NaN.
Proof.
  intros Hl.
  destruct (Classical_Prop.classic
              (exists a b ua ub,
                 previous = finitePoint a b /\ segment = finitePoint ua ub
                 /\ sqrt (ua * ua + ub * ub) <> 0)) as [(a & b & ua & ub & -> & -> & Hm)|Hnot].
  - left. rewrite substitute_finite by exact Hm. rewrite mag_finitePoint.
    f_equal. pose proof (sqrt_pos (ua * ua + ub * ub)) as Hpos.
    rewrite sqrt_scaled by (apply Rlt_le, Rdiv_lt_0_compat; lra).
    field. exact Hm.
  - right. now apply substitute_lost.
Qed.

(** A walk that steps onto a substitute has passed its offset, or lost
    its distance. *)
Lemma substitute_ends (previous segment : Point) (t : Num) (absOffsetX : R) :
  isLength t ->
  nleb t (Fin absOffsetX) = true ->
  nleb (t + mag (sub (substitute previous segment (Fin absOffsetX - t + Fin 1)) previous))
       (Fin absOffsetX) = false.
Proof.
  intros Hlen Hle. destruct (nleb_length t absOffsetX Hlen Hle) as (v & -> & Hv).
  cbn [nsub nneg nadd].
  destruct (substitute_mag previous segment (absOffsetX + - v + 1)) as [-> | ->];
    [lra | | reflexivity].
  simpl. destruct (Rle_dec _ absOffsetX); [lra | reflexivity].
Qed.

(** The substitutes for two lengths give the same offset normal: the
    segments to them from the previous point are not zero and have the
    same unit vector. *)
Lemma substitute_unit (previous segment : Point) (le lm : R) :
  0 < le -> 0 < lm ->
  let se := sub (substitute previous segment (Fin le)) previous in
  let sm := sub (substitute previous segment (Fin lm)) previous in
  neqb (mag se) (Fin 0) = false
  /\ neqb (mag sm) (Fin 0) = false
  /\ _unit se = _unit sm.
Proof.
  intros Hle Hlm se sm.
  assert (Hzero : forall l, 0 < l ->
            neqb (mag (sub (substitute previous segment (Fin l)) previous)) (Fin 0)
            = false).
  { intros l Hl. destruct (substitute_mag previous segment l Hl) as [-> | ->];
      [|reflexivity].
    simpl. destruct (Req_dec_T l 0); [lra | reflexivity]. }
  split; [now apply Hzero|]. split; [now apply Hzero|].
  destruct (Classical_Prop.classic
              (exists a b ua ub,
                 previous = finitePoint a b /\ segment = finitePoint ua ub
                 /\ sqrt (ua * ua + ub * ub) <> 0)) as [(a & b & ua & ub & -> & -> & Hm)|Hnot].
  - subst se sm. rewrite !substitute_finite by exact Hm.
    pose proof (sqrt_pos (ua * ua + ub * ub)) as Hpos.
    unfold _unit. rewrite !mag_finitePoint.
    rewrite !sqrt_scaled by (apply Rlt_le, Rdiv_lt_0_compat; lra).
    unfold _div, finitePoint. cbn [x y].
    rewrite !ndiv_Fin by (apply Rmult_integral_contrapositive; split;
                          [apply Rgt_not_eq, Rdiv_lt_0_compat; lra | exact Hm]).
    f_equal; f_equal; field; lra.
  - unfold _unit. subst se sm.
    rewrite !substitute_lost by assumption.
    unfold _div. f_equal.
    + destruct (x (sub _ _)), (x (sub _ _)); reflexivity.
    + destruct (y (sub _ _)), (y (sub _ _)); reflexivity.
Qed.
(** ** Projection of a point *)

Record PointProjection := {
  point : Point;
  signedDistanceFromCamera : Num
}.

(** A [mat4] by its sixteen entries. *)
Definition mat4 : Type := nat -> R.

Definition vec4 : Type := (Num * Num * Num * Num)%type.

(** [vec4.transformMat4] of gl-matrix. *)
Definition transformMat4 (a : vec4) (m : mat4) : vec4 :=
  let '(x, y, z, w) := a in
  (Fin (m 0%nat) * x + Fin (m 4%nat) * y + Fin (m 8%nat) * z + Fin (m 12%nat) * w,
   Fin (m 1%nat) * x + Fin (m 5%nat) * y + Fin (m 9%nat) * z + Fin (m 13%nat) * w,
   Fin (m 2%nat) * x + Fin (m 6%nat) * y + Fin (m 10%nat) * z + Fin (m 14%nat) * w,
   Fin (m 3%nat) * x + Fin (m 7%nat) * y + Fin (m 11%nat) * z + Fin (m 15%nat) * w)%num.

(** [xyTransformMat4] leaves the third component as it is. *)
Definition xyTransformMat4 (a : vec4) (m : mat4) : vec4 :=
  let '(x, y, z, w) := a in
  (Fin (m 0%nat) * x + Fin (m 4%nat) * y + Fin (m 12%nat),
   Fin (m 1%nat) * x + Fin (m 5%nat) * y + Fin (m 13%nat),
   z,
   Fin (m 3%nat) * x + Fin (m 7%nat) * y + Fin (m 15%nat))%num.

Definition project (p : Point) (matrix : mat4) (getElevation : option (Num -> Num -> Num))
    : PointProjection :=
  let pos :=
    match getElevation with
    | Some getElevation =>
        transformMat4 (x p, y p, getElevation (x p) (y p), Fin 1) matrix
    | None =>
        xyTransformMat4 (x p, y p, Fin 0, Fin 1) matrix
    end in
  let '(p0, p1, _, w) := pos in
  {| point := {| x := p0 / w; y := p1 / w |};
     signedDistanceFromCamera := w |}.

Definition projectFromMapToLabelPlane := project.
Definition projectRaw := project.
Definition projectFromMapToScreen := project.

(** ** Arguments and cache *)

(** What the placement uses of the projection manager. *)
Record ProjectionManager (TileID : Type) := {
  useSpecialProjectionForSymbols : bool;
  managerProject : Num -> Num -> TileID -> PointProjection
}.

Arguments useSpecialProjectionForSymbols {TileID} _.
Arguments managerProject {TileID} _ _ _ _.

Record ProjectionCache := {
  projections : gmap Z Point;
  offsets : gmap Z Point;
  cachedAnchorPoint : option Point
}.

(** The cache [updateLineLabels] makes for each symbol. *)
Definition emptyCache : ProjectionCache :=
  {| projections := ∅; offsets := ∅; cachedAnchorPoint := None |}.

(** [ProjectionArgs] without its cache, which the functions below take
    and return beside it. *)
Record ProjectionArgs (TileID : Type) := {
  getElevation : option (Num -> Num -> Num);
  labelPlaneMatrix : mat4;
  lineVertexArray : Z -> Point;
  pitchWithMap : bool;
  projectionManager : ProjectionManager TileID;
  tileAnchorPoint : Point;
  unwrappedTileID : TileID;
  width : R;
  height : R
}.

Arguments getElevation {TileID} _.
Arguments labelPlaneMatrix {TileID} _.
Arguments lineVertexArray {TileID} _ _.
Arguments pitchWithMap {TileID} _.
Arguments projectionManager {TileID} _.
Arguments tileAnchorPoint {TileID} _.
Arguments unwrappedTileID {TileID} _.
Arguments width {TileID} _.
Arguments height {TileID} _.

Record ProjectionSyntheticVertexArgs := {
  distanceFromAnchor : Num;
  previousVertex : Point;
  direction : Z;
  absOffsetX : R
}.

Record PlacedGlyph := {
  glyphPoint : Point;
  glyphAngle : Num;
  path : list Point
}.

(** How a call ends: it returns, it throws a [TypeError], or the bound on
    the iterations of its loop was too small. *)
Inductive Completion (A : Type) :=
| Normal (a : A)
| TypeError
| OutOfFuel.

Arguments Normal {A} a.
Arguments TypeError {A}.
Arguments OutOfFuel {A}.

Section Placement.

Variable TileID : Type.

(** [findLineIntersection] of [util/util], which this part of the
    repository does not show, and [Math.atan2]. *)
Variable findLineIntersection : Point -> Point -> Point -> Point -> option Point.
Variable atan2 : Num -> Num -> Num.

Variable projectionArgs : ProjectionArgs TileID.

Definition projectTileCoordinatesToViewport (x y : Num) : PointProjection :=
  if negb (pitchWithMap projectionArgs)
     && useSpecialProjectionForSymbols (projectionManager projectionArgs)
  then
    let projection :=
      managerProject (projectionManager projectionArgs) x y (unwrappedTileID projectionArgs) in
    {| point := {| SymbolProjection.x :=
                     (SymbolProjection.x (point projection) * Fin 0.5 + Fin 0.5)
                     * Fin (width projectionArgs);
                   SymbolProjection.y :=
                     (- SymbolProjection.y (point projection) * Fin 0.5 + Fin 0.5)
                     * Fin (height projectionArgs) |};
       signedDistanceFromCamera := signedDistanceFromCamera projection |}
  else
    projectFromMapToLabelPlane {| SymbolProjection.x := x; SymbolProjection.y := y |}
      (labelPlaneMatrix projectionArgs) (getElevation projectionArgs).

Definition projectVertexToViewport (index : Z)
    (syntheticVertexArgs : ProjectionSyntheticVertexArgs) (cache : ProjectionCache)
    : Point * ProjectionCache :=
  match projections cache !! index with
  | Some p => (p, cache)
  | None =>
      let currentVertex := lineVertexArray projectionArgs index in
      let projection :=
        projectTileCoordinatesToViewport (x currentVertex) (y currentVertex) in
      if nltb (Fin 0) (signedDistanceFromCamera projection) then
        (point projection,
         {| projections := <[index := point projection]> (projections cache);
            offsets := offsets cache;
            cachedAnchorPoint := cachedAnchorPoint cache |})
      else
        (* The vertex is behind the plane of the camera, so we can't project it *)
        let previousLineVertexIndex := (index - direction syntheticVertexArgs)%Z in
        let previousTilePoint :=
          if neqb (distanceFromAnchor syntheticVertexArgs) (Fin 0)
          then tileAnchorPoint projectionArgs
          else lineVertexArray projectionArgs previousLineVertexIndex in
        (* Don't cache because the new vertex might not be far enough out *)
        let minimumLength :=
          (Fin (absOffsetX syntheticVertexArgs) - distanceFromAnchor syntheticVertexArgs
           + Fin 1)%num in
        let unitVertextoBeProjected :=
          add previousTilePoint (_unit (sub previousTilePoint currentVertex)) in
        let projectedUnitVertex :=
          point (managerProject (projectionManager projectionArgs)
                   (x unitVertextoBeProjected) (y unitVertextoBeProjected)
                   (unwrappedTileID projectionArgs)) in
        let projectedUnitVertex :=
          {| x := (x projectedUnitVertex * Fin 0.5 + Fin 0.5)
                  * Fin (width projectionArgs);
             y := (- y projectedUnitVertex * Fin 0.5 + Fin 0.5)
                  * Fin (height projectionArgs) |} in
        let projectedUnitSegment :=
          sub (previousVertex syntheticVertexArgs) projectedUnitVertex in
        (add (previousVertex syntheticVertexArgs)
             (_mult projectedUnitSegment (minimumLength / mag projectedUnitSegment)),
         cache)
  end.

Definition transformToOffsetNormal (segmentVector : Point) (offset : R) (direction : Z)
    : Point :=
  _mult (_perp (_unit segmentVector)) (Fin (offset * IZR direction)).

Definition findOffsetIntersectionPoint (index : Z) (prevToCurrentOffsetNormal : Point)
    (currentVertex : Point) (lineStartIndex lineEndIndex : Z)
    (offsetPreviousVertex : Point) (lineOffsetY : R)
    (syntheticVertexArgs : ProjectionSyntheticVertexArgs) (cache : ProjectionCache)
    : Point * ProjectionCache :=
  match offsets cache !! index with
  | Some p => (p, cache)
  | None =>
      let offsetCurrentVertex := add currentVertex prevToCurrentOffsetNormal in
      if ((index + direction syntheticVertexArgs <? lineStartIndex)%Z
          || (lineEndIndex <=? index + direction syntheticVertexArgs)%Z)%bool
      then
        (* This is the end of the line, no intersection to calculate *)
        (offsetCurrentVertex,
         {| projections := projections cache;
            offsets := <[index := offsetCurrentVertex]> (offsets cache);
            cachedAnchorPoint := cachedAnchorPoint cache |})
      else
        (* Offset the vertices for the next segment *)
        let '(nextVertex, cache) :=
          projectVertexToViewport (index + direction syntheticVertexArgs)
            syntheticVertexArgs cache in
        let currentToNextOffsetNormal :=
          transformToOffsetNormal (sub nextVertex currentVertex) lineOffsetY
            (direction syntheticVertexArgs) in
        let offsetNextSegmentBegin := add currentVertex currentToNextOffsetNormal in
        let offsetNextSegmentEnd := add nextVertex currentToNextOffsetNormal in
        (* find the intersection of these two lines *)
        let intersection :=
          match findLineIntersection offsetPreviousVertex offsetCurrentVertex
                  offsetNextSegmentBegin offsetNextSegmentEnd with
          | Some p => p
          | None => offsetCurrentVertex
          end in
        (intersection,
         {| projections := projections cache;
            offsets := <[index := intersection]> (offsets cache);
            cachedAnchorPoint := cachedAnchorPoint cache |})
  end.

(** The variables of the loop of [placeGlyphAlongLine]. *)
Record Walk := {
  currentIndex : Z;
  currentVertex : Point;
  walkPreviousVertex : Point;
  offsetIntersectionPoint : option Point;
  offsetPreviousVertex : option Point;
  walkDistanceFromAnchor : Num;
  currentSegmentDistance : Num;
  pathVertices : list Point;
  currentLineSegment : option Point;
  walkCache : ProjectionCache
}.

(** One turn of the loop; [None] is the [return null] of a walk that left
    the line. *)
Definition walkStep (direction : Z) (absOffsetX lineOffsetY : R)
    (lineStartIndex lineEndIndex : Z) (w : Walk) : option Walk :=
  let currentIndex := (currentIndex w + direction)%Z in
  (* offset does not fit on the projected line *)
  if ((currentIndex <? lineStartIndex)%Z || (lineEndIndex <=? currentIndex)%Z)%bool
  then None
  else
    (* accumulate values from last iteration *)
    let distanceFromAnchor := (walkDistanceFromAnchor w + currentSegmentDistance w)%num in
    let previousVertex := currentVertex w in
    let offsetPreviousVertex := offsetIntersectionPoint w in
    let syntheticVertexArgs :=
      {| absOffsetX := absOffsetX;
         direction := direction;
         distanceFromAnchor := distanceFromAnchor;
         previousVertex := previousVertex |} in
    (* find next vertex in viewport space *)
    let '(currentVertex, cache) :=
      projectVertexToViewport currentIndex syntheticVertexArgs (walkCache w) in
    if Req_dec_T lineOffsetY 0 then
      (* Store vertices for collision detection and update current segment geometry *)
      let currentLineSegment := sub currentVertex previousVertex in
      Some {| currentIndex := currentIndex;
              currentVertex := currentVertex;
              walkPreviousVertex := previousVertex;
              offsetIntersectionPoint := offsetIntersectionPoint w;
              offsetPreviousVertex := offsetPreviousVertex;
              walkDistanceFromAnchor := distanceFromAnchor;
              currentSegmentDistance := mag currentLineSegment;
              pathVertices := pathVertices w ++ [previousVertex];
              currentLineSegment := Some currentLineSegment;
              walkCache := cache |}
    else
      (* Calculate the offset for this section *)
      let prevToCurrent := sub currentVertex previousVertex in
      let '(prevToCurrentOffsetNormal, cache) :=
        if neqb (mag prevToCurrent) (Fin 0) then
          (* We are starting with our anchor point directly on the vertex *)
          let '(nextVertex, cache) :=
            projectVertexToViewport (currentIndex + direction) syntheticVertexArgs cache in
          (transformToOffsetNormal (sub nextVertex currentVertex) lineOffsetY direction,
           cache)
        else
          (transformToOffsetNormal prevToCurrent lineOffsetY direction, cache) in
      (* Initialize offsetPrev on our first iteration *)
      let offsetPreviousVertex :=
        match offsetPreviousVertex with
        | Some v => v
        | None => add previousVertex prevToCurrentOffsetNormal
        end in
      let '(offsetIntersectionPoint, cache) :=
        findOffsetIntersectionPoint currentIndex prevToCurrentOffsetNormal currentVertex
          lineStartIndex lineEndIndex offsetPreviousVertex lineOffsetY
          syntheticVertexArgs cache in
      let currentLineSegment := sub offsetIntersectionPoint offsetPreviousVertex in
      Some {| currentIndex := currentIndex;
              currentVertex := currentVertex;
              walkPreviousVertex := previousVertex;
              offsetIntersectionPoint := Some offsetIntersectionPoint;
              offsetPreviousVertex := Some offsetPreviousVertex;
              walkDistanceFromAnchor := distanceFromAnchor;
              currentSegmentDistance := mag currentLineSegment;
              pathVertices := pathVertices w ++ [offsetPreviousVertex];
              currentLineSegment := Some currentLineSegment;
              walkCache := cache |}.

(** [distanceFromAnchor + currentSegmentDistance <= absOffsetX] *)
Definition walkOn (absOffsetX : R) (w : Walk) : bool :=
  nleb (walkDistanceFromAnchor w + currentSegmentDistance w) (Fin absOffsetX).

(** What follows the loop: the point is on the current segment. *)
Definition walkEnd (angle absOffsetX : R) (rotateToLine : bool) (w : Walk)
    : Completion (option PlacedGlyph * ProjectionCache) :=
  match currentLineSegment w with
  | None => TypeError
  | Some currentLineSegment =>
      let segmentInterpolationT :=
        ((Fin absOffsetX - walkDistanceFromAnchor w) / currentSegmentDistance w)%num in
      let p :=
        add (_mult currentLineSegment segmentInterpolationT)
            (match offsetPreviousVertex w with
             | Some v => v
             | None => walkPreviousVertex w
             end) in
      let segmentAngle :=
        (Fin angle + atan2 (y (currentVertex w) - y (walkPreviousVertex w))
                           (x (currentVertex w) - x (walkPreviousVertex w)))%num in
      Normal (Some {| glyphPoint := p;
                      glyphAngle := if rotateToLine then segmentAngle else Fin 0;
                      path := pathVertices w ++ [p] |},
              walkCache w)
  end.

(** The loop [while (distanceFromAnchor + currentSegmentDistance <= absOffsetX)]
    and what follows it. *)
Fixpoint walkLoop (fuel : nat) (direction : Z) (angle absOffsetX lineOffsetY : R)
    (lineStartIndex lineEndIndex : Z) (rotateToLine : bool) (w : Walk)
    : Completion (option PlacedGlyph * ProjectionCache) :=
  if walkOn absOffsetX w then
    match fuel with
    | O => OutOfFuel
    | S fuel =>
        match walkStep direction absOffsetX lineOffsetY lineStartIndex lineEndIndex w with
        | None => Normal (None, walkCache w)
        | Some w =>
            walkLoop fuel direction angle absOffsetX lineOffsetY
                     lineStartIndex lineEndIndex rotateToLine w
        end
    end
  else walkEnd angle absOffsetX rotateToLine w.

(** The direction of the walk for a combined offset. *)
Definition walkDirection (combinedOffsetX : R) (flip : bool) : Z :=
  let direction := if Rlt_dec 0 combinedOffsetX then 1%Z else (-1)%Z in
  if flip then (direction * -1)%Z else direction.

Definition combinedOffset (offsetX lineOffsetX : R) (flip : bool) : R :=
  if flip then offsetX - lineOffsetX else offsetX + lineOffsetX.

(** The anchor point in the label plane, projected once and cached. *)
Definition anchorPointOf (cache : ProjectionCache) : Point * ProjectionCache :=
  match cachedAnchorPoint cache with
  | Some anchorPoint => (anchorPoint, cache)
  | None =>
      let anchorPoint :=
        point (projectTileCoordinatesToViewport (x (tileAnchorPoint projectionArgs))
                                                (y (tileAnchorPoint projectionArgs))) in
      (anchorPoint,
       {| projections := projections cache;
          offsets := offsets cache;
          cachedAnchorPoint := Some anchorPoint |})
  end.

(** The state of the walk before the loop. *)
Definition walkStart (direction : Z) (anchorSegment lineStartIndex : Z)
    (anchorPoint : Point) (cache : ProjectionCache) : Walk :=
  {| currentIndex :=
       if (0 <? direction)%Z then (lineStartIndex + anchorSegment)%Z
       else (lineStartIndex + anchorSegment + 1)%Z;
     currentVertex := anchorPoint;
     walkPreviousVertex := anchorPoint;
     offsetIntersectionPoint := None;
     offsetPreviousVertex := None;
     walkDistanceFromAnchor := Fin 0;
     currentSegmentDistance := Fin 0;
     pathVertices := [];
     currentLineSegment := None;
     walkCache := cache |}.

(** Turns of the loop that suffice: one for each vertex of the line, and
    the one that leaves it. *)
Definition walkFuel (lineStartIndex lineEndIndex : Z) : nat :=
  S (Z.to_nat (lineEndIndex - lineStartIndex)).

Definition placeGlyphAlongLine (offsetX lineOffsetX lineOffsetY : R) (flip : bool)
    (anchorSegment lineStartIndex lineEndIndex : Z) (rotateToLine : bool)
    (cache : ProjectionCache) : Completion (option PlacedGlyph * ProjectionCache) :=
  let combinedOffsetX := combinedOffset offsetX lineOffsetX flip in
  let direction := walkDirection combinedOffsetX flip in
  let angle := if flip then PI else 0 in
  let angle := if (direction <? 0)%Z then angle + PI else angle in
  (* Project anchor point to proper label plane and cache it *)
  let '(anchorPoint, cache) := anchorPointOf cache in
  let absOffsetX := Rabs combinedOffsetX in
  walkLoop (walkFuel lineStartIndex lineEndIndex) direction angle absOffsetX lineOffsetY
           lineStartIndex lineEndIndex rotateToLine
           (walkStart direction anchorSegment lineStartIndex anchorPoint cache).

(** ** Labels of several glyphs *)

Inductive WritingMode := horizontal | vertical | horizontalOnly.

Definition WritingMode_eqb (a b : WritingMode) : bool :=
  match a, b with
  | horizontal, horizontal | vertical, vertical | horizontalOnly, horizontalOnly => true
  | _, _ => false
  end.

(** The fields of a placed symbol that the placement reads. *)
Record PlacedSymbol := {
  anchorX : R;
  anchorY : R;
  glyphStartIndex : Z;
  numGlyphs : Z;
  lineStartIndex : Z;
  lineLength : Z;
  segment : Z;
  lineOffsetX : R;
  lineOffsetY : R;
  writingMode : WritingMode;
  hidden : bool
}.

(** What [placeGlyphsAlongLine] returns: [{notEnoughRoom: true}],
    [{useVertical: true}], [{needsFlipping: true}], or [{}] after the glyphs
    have been added to the dynamic layout array. *)
Inductive Placement :=
| NotEnoughRoom
| UseVertical
| NeedsFlipping
| Placed (glyphs : list PlacedGlyph).

Definition bind {A B : Type} (c : Completion A) (k : A -> Completion B) : Completion B :=
  match c with
  | Normal a => k a
  | TypeError => TypeError
  | OutOfFuel => OutOfFuel
  end.

Definition placeFirstAndLastGlyph (fontScale : R) (glyphOffsetArray : Z -> R)
    (lineOffsetX lineOffsetY : R) (flip : bool) (symbol : PlacedSymbol)
    (rotateToLine : bool) (cache : ProjectionCache)
    : Completion (option (PlacedGlyph * PlacedGlyph) * ProjectionCache) :=
  let glyphEndIndex := (glyphStartIndex symbol + numGlyphs symbol)%Z in
  let lineStartIndex := lineStartIndex symbol in
  let lineEndIndex := (lineStartIndex + lineLength symbol)%Z in
  let firstGlyphOffset := glyphOffsetArray (glyphStartIndex symbol) in
  let lastGlyphOffset := glyphOffsetArray (glyphEndIndex - 1)%Z in
  bind (placeGlyphAlongLine (fontScale * firstGlyphOffset) lineOffsetX lineOffsetY flip
          (segment symbol) lineStartIndex lineEndIndex rotateToLine cache)
    (fun '(firstPlacedGlyph, cache) =>
       match firstPlacedGlyph with
       | None => Normal (None, cache)
       | Some firstPlacedGlyph =>
           bind (placeGlyphAlongLine (fontScale * lastGlyphOffset) lineOffsetX lineOffsetY
                   flip (segment symbol) lineStartIndex lineEndIndex rotateToLine cache)
             (fun '(lastPlacedGlyph, cache) =>
                match lastPlacedGlyph with
                | None => Normal (None, cache)
                | Some lastPlacedGlyph =>
                    Normal (Some (firstPlacedGlyph, lastPlacedGlyph), cache)
                end)
       end).

Definition requiresOrientationChange (writingMode : WritingMode)
    (firstPoint lastPoint : Point) (aspectRatio : R) : option Placement :=
  let useVertical :=
    if WritingMode_eqb writingMode horizontal then
      let rise := nabs (y lastPoint - y firstPoint) in
      let run := (nabs (x lastPoint - x firstPoint) * Fin aspectRatio)%num in
      nltb run rise
    else false in
  if useVertical then Some UseVertical
  else if (if WritingMode_eqb writingMode vertical
           then nltb (y firstPoint) (y lastPoint)
           else nltb (x lastPoint) (x firstPoint))
  then Some NeedsFlipping
  else None.

Definition projectTruncatedLineSegment (previousTilePoint currentTilePoint
    previousProjectedPoint : Point) (minimumLength : R) (projectionMatrix : mat4)
    (getElevation : option (Num -> Num -> Num)) : Point :=
  let unitVertextoBeProjected :=
    add previousTilePoint (_unit (sub previousTilePoint currentTilePoint)) in
  let projectedUnitVertex :=
    point (projectRaw unitVertextoBeProjected projectionMatrix getElevation) in
  let projectedUnitSegment := sub previousProjectedPoint projectedUnitVertex in
  add previousProjectedPoint
      (_mult projectedUnitSegment (Fin minimumLength / mag projectedUnitSegment)).

(** The glyphs between the first and the last, placed in order; a glyph
    that cannot be placed is pushed as [null]. *)
Fixpoint placeInteriorGlyphs (count : nat) (glyphIndex : Z) (fontScale : R)
    (glyphOffsetArray : Z -> R) (lineOffsetX lineOffsetY : R) (flip : bool)
    (symbol : PlacedSymbol) (rotateToLine : bool) (cache : ProjectionCache)
    : Completion (list (option PlacedGlyph) * ProjectionCache) :=
  match count with
  | O => Normal ([], cache)
  | S count =>
      bind (placeGlyphAlongLine (fontScale * glyphOffsetArray glyphIndex) lineOffsetX
              lineOffsetY flip (segment symbol) (lineStartIndex symbol)
              (lineStartIndex symbol + lineLength symbol)%Z rotateToLine cache)
        (fun '(glyph, cache) =>
           bind (placeInteriorGlyphs count (glyphIndex + 1)%Z fontScale glyphOffsetArray
                   lineOffsetX lineOffsetY flip symbol rotateToLine cache)
             (fun '(glyphs, cache) => Normal (glyph :: glyphs, cache)))
  end.

(** [addDynamicAttributes(dynamicLayoutVertexArray, glyph.point, glyph.angle)]
    for each placed glyph: reading [point] of a [null] glyph throws. *)
Fixpoint addAllDynamicAttributes (placedGlyphs : list (option PlacedGlyph))
    : Completion (list PlacedGlyph) :=
  match placedGlyphs with
  | [] => Normal []
  | None :: _ => TypeError
  | Some glyph :: rest =>
      bind (addAllDynamicAttributes rest) (fun added => Normal (glyph :: added))
  end.

Definition placeGlyphsAlongLine (symbol : PlacedSymbol) (fontSize : R)
    (flip keepUpright : bool) (posMatrix glCoordMatrix : mat4)
    (glyphOffsetArray : Z -> R) (aspectRatio : R) (rotateToLine : bool)
    (cache : ProjectionCache) : Completion (Placement * ProjectionCache) :=
  let fontScale := fontSize / 24 in
  let lineOffsetX := lineOffsetX symbol * fontScale in
  let lineOffsetY := lineOffsetY symbol * fontScale in
  if (1 <? numGlyphs symbol)%Z then
    let glyphEndIndex := (glyphStartIndex symbol + numGlyphs symbol)%Z in
    (* Place the first and the last glyph in the label first *)
    bind (placeFirstAndLastGlyph fontScale glyphOffsetArray lineOffsetX lineOffsetY flip
            symbol rotateToLine cache)
      (fun '(firstAndLastGlyph, cache) =>
         match firstAndLastGlyph with
         | None => Normal (NotEnoughRoom, cache)
         | Some (first, last) =>
             let firstPoint :=
               point (projectRaw (glyphPoint first) glCoordMatrix
                        (getElevation projectionArgs)) in
             let lastPoint :=
               point (projectRaw (glyphPoint last) glCoordMatrix
                        (getElevation projectionArgs)) in
             match (if keepUpright && negb flip
                    then requiresOrientationChange (writingMode symbol) firstPoint
                           lastPoint aspectRatio
                    else None) with
             | Some orientationChange => Normal (orientationChange, cache)
             | None =>
                 bind (placeInteriorGlyphs (Z.to_nat (numGlyphs symbol - 2))
                         (glyphStartIndex symbol + 1)%Z fontScale glyphOffsetArray
                         lineOffsetX lineOffsetY flip symbol rotateToLine cache)
                   (fun '(interior, cache) =>
                      bind (addAllDynamicAttributes
                              ([Some first] ++ interior ++ [Some last]))
                        (fun added => Normal (Placed added, cache)))
             end
         end)
  else
    (* Only a single glyph to place *)
    match (if keepUpright && negb flip then
             let a :=
               point (projectFromMapToScreen (tileAnchorPoint projectionArgs) posMatrix
                        (getElevation projectionArgs)) in
             let tileVertexIndex :=
               (lineStartIndex symbol + segment symbol + 1)%Z in
             let tileSegmentEnd := lineVertexArray projectionArgs tileVertexIndex in
             let projectedVertex :=
               projectFromMapToScreen tileSegmentEnd posMatrix
                 (getElevation projectionArgs) in
             let b :=
               if nltb (Fin 0) (signedDistanceFromCamera projectedVertex)
               then point projectedVertex
               else projectTruncatedLineSegment (tileAnchorPoint projectionArgs)
                      tileSegmentEnd a 1 posMatrix (getElevation projectionArgs) in
             requiresOrientationChange (writingMode symbol) a b aspectRatio
           else None) with
    | Some orientationChange => Normal (orientationChange, cache)
    | None =>
        bind (placeGlyphAlongLine (fontScale * glyphOffsetArray (glyphStartIndex symbol))
                lineOffsetX lineOffsetY flip (segment symbol) (lineStartIndex symbol)
                (lineStartIndex symbol + lineLength symbol)%Z rotateToLine cache)
          (fun '(singleGlyph, cache) =>
             match singleGlyph with
             | None => Normal (NotEnoughRoom, cache)
             | Some singleGlyph => Normal (Placed [singleGlyph], cache)
             end)
    end.

(** ** What the properties speak of *)

(** The segment along which [projectVertexToViewport] lays the substitute
    for a vertex behind the camera. *)
Definition projectedUnitSegmentOf (index : Z)
    (syntheticVertexArgs : ProjectionSyntheticVertexArgs) : Point :=
  let currentVertex := lineVertexArray projectionArgs index in
  let previousLineVertexIndex := (index - direction syntheticVertexArgs)%Z in
  let previousTilePoint :=
    if neqb (distanceFromAnchor syntheticVertexArgs) (Fin 0)
    then tileAnchorPoint projectionArgs
    else lineVertexArray projectionArgs previousLineVertexIndex in
  let unitVertextoBeProjected :=
    add previousTilePoint (_unit (sub previousTilePoint currentVertex)) in
  let projectedUnitVertex :=
    point (managerProject (projectionManager projectionArgs)
             (x unitVertextoBeProjected) (y unitVertextoBeProjected)
             (unwrappedTileID projectionArgs)) in
  let projectedUnitVertex :=
    {| x := (x projectedUnitVertex * Fin 0.5 + Fin 0.5) * Fin (width projectionArgs);
       y := (- y projectedUnitVertex * Fin 0.5 + Fin 0.5) * Fin (height projectionArgs) |} in
  sub (previousVertex syntheticVertexArgs) projectedUnitVertex.

(** The per-glyph offsets of a symbol do not decrease. *)
Definition monotoneOffsets (glyphOffsetArray : Z -> R) (symbol : PlacedSymbol) : Prop :=
  forall i j,
    (glyphStartIndex symbol <= i)%Z -> (i <= j)%Z ->
    (j < glyphStartIndex symbol + numGlyphs symbol)%Z ->
    glyphOffsetArray i <= glyphOffsetArray j.

(** The projection of the line vertex at an index. *)
Definition vertexProjection (index : Z) : PointProjection :=
  projectTileCoordinatesToViewport (x (lineVertexArray projectionArgs index))
                                   (y (lineVertexArray projectionArgs index)).

(** Every cached projection is the projection of its vertex, which lies
    in front of the camera. *)
Definition projectionsInFront (cache : ProjectionCache) : Prop :=
  forall index p,
    projections cache !! index = Some p ->
    p = point (vertexProjection index)
    /\ (Fin 0 < signedDistanceFromCamera (vertexProjection index))%num.

(** A cache grows: what it held it still holds, and every projection that
    is new in it is the projection of its vertex, in front of the
    camera. *)
Definition inFront (index : Z) (p : Point) : Prop :=
  p = point (vertexProjection index)
  /\ (Fin 0 < signedDistanceFromCamera (vertexProjection index))%num.

Definition grows (c c' : ProjectionCache) : Prop :=
  (forall i p, projections c !! i = Some p -> projections c' !! i = Some p)
  /\ (forall i p, offsets c !! i = Some p -> offsets c' !! i = Some p)
  /\ (forall a, cachedAnchorPoint c = Some a -> cachedAnchorPoint c' = Some a)
  /\ (forall i p, projections c !! i = None -> projections c' !! i = Some p -> inFront i p).

(** A run of calls of [placeGlyphAlongLine] on one cache, as the
    placement of a symbol makes them. *)
Record Call := {
  callOffsetX : R;
  callLineOffsetX : R;
  callLineOffsetY : R;
  callFlip : bool;
  callAnchorSegment : Z;
  callLineStartIndex : Z;
  callLineEndIndex : Z;
  callRotateToLine : bool
}.

Fixpoint placeAll (calls : list Call) (cache : ProjectionCache)
    : Completion (list (option PlacedGlyph) * ProjectionCache) :=
  match calls with
  | [] => Normal ([], cache)
  | c :: rest =>
      bind (placeGlyphAlongLine (callOffsetX c) (callLineOffsetX c) (callLineOffsetY c)
              (callFlip c) (callAnchorSegment c) (callLineStartIndex c)
              (callLineEndIndex c) (callRotateToLine c) cache)
        (fun '(glyph, cache) =>
           bind (placeAll rest cache)
             (fun '(glyphs, cache) => Normal (glyph :: glyphs, cache)))
  end.

(** [n] turns of the loop from a state of the walk: each finds the
    distance not yet reached and the next vertex on the line. *)
Fixpoint walkTurns (n : nat) (d : Z) (absOffset lineOffsetY : R)
    (lineStart lineEnd : Z) (w : Walk) : option Walk :=
  match n with
  | O => Some w
  | S n =>
      if walkOn absOffset w then
        match walkStep d absOffset lineOffsetY lineStart lineEnd w with
        | Some w => walkTurns n d absOffset lineOffsetY lineStart lineEnd w
        | None => None
        end
      else None
  end.

(** The walk of a call, before its loop. *)
Definition walkOfCall (offsetX lineOffsetX : R) (flip : bool)
    (anchorSegment lineStart : Z) (cache : ProjectionCache) : Walk :=
  let '(anchorPoint, cache) := anchorPointOf cache in
  walkStart (walkDirection (combinedOffset offsetX lineOffsetX flip) flip)
            anchorSegment lineStart anchorPoint cache.

(** The walk leaves the vertex range of the line before the accumulated
    distance reaches the offset. *)
Definition leavesLine (d : Z) (absOffset lineOffsetY : R) (lineStart lineEnd : Z)
    (start : Walk) : Prop :=
  exists n w,
    walkTurns n d absOffset lineOffsetY lineStart lineEnd start = Some w
    /\ (walkDistanceFromAnchor w + currentSegmentDistance w <= Fin absOffset)%num
    /\ ~ (lineStart <= currentIndex w + d < lineEnd)%Z.

(** The accumulated distance passes the offset at a vertex of the line. *)
Definition reachesOffset (d : Z) (absOffset lineOffsetY : R) (lineStart lineEnd : Z)
    (start : Walk) : Prop :=
  exists n w,
    walkTurns (S n) d absOffset lineOffsetY lineStart lineEnd start = Some w
    /\ (Fin absOffset < walkDistanceFromAnchor w + currentSegmentDistance w)%num
    /\ (lineStart <= currentIndex w < lineEnd)%Z.

(** At a vertex of the line the accumulated distance is not a number any
    more. *)
Definition losesDistance (d : Z) (absOffset lineOffsetY : R) (lineStart lineEnd : Z)
    (start : Walk) : Prop :=
  exists n w,
    walkTurns (S n) d absOffset lineOffsetY lineStart lineEnd start = Some w
    /\ (walkDistanceFromAnchor w + currentSegmentDistance w)%num = NaN
    /\ (lineStart <= currentIndex w < lineEnd)%Z.

(** The vertices the walk can still visit from an index. *)
Definition stepsLeft (d lineStart lineEnd index : Z) : nat :=
  if ((index + d <? lineStart) || (lineEnd <=? index + d))%Z%bool then O
  else if (0 <? d)%Z then Z.to_nat (lineEnd - (index + d))
  else Z.to_nat (index + d - lineStart + 1).

(** The length of the polyline from a point through a list of points. *)
Fixpoint polylineLength (from : Point) (points : list Point) : Num :=
  match points with
  | [] => Fin 0
  | p :: rest => mag (sub p from) + polylineLength p rest
  end.

(** The indices of the [n] vertices after [index] in the direction [d]. *)
Fixpoint indicesAhead (d index : Z) (n : nat) : list Z :=
  match n with
  | O => []
  | S n => (index + d)%Z :: indicesAhead d (index + d)%Z n
  end.

(** The length, in the label plane, of the line from the anchor to its
    end in the direction of the walk. *)
Definition remainingLength (anchorPoint : Point) (d anchorSegment lineStart lineEnd : Z)
    : Num :=
  let index := currentIndex (walkStart d anchorSegment lineStart anchorPoint emptyCache) in
  polylineLength anchorPoint
    (map (fun i => point (vertexProjection i))
         (indicesAhead d index (stepsLeft d lineStart lineEnd index))).

(** ** The cache only grows *)

Lemma grows_refl (c : ProjectionCache) : grows c c.
Proof.
  split; [|split; [|split]]; auto. intros i p H1 H2. congruence.
Qed.

Lemma grows_trans (c1 c2 c3 : ProjectionCache) :
  grows c1 c2 -> grows c2 c3 -> grows c1 c3.
Proof.
  intros (Hp & Ho & Ha & Hn) (Hp' & Ho' & Ha' & Hn').
  split; [|split; [|split]]; auto.
  intros i p H1 H3.
  destruct (projections c2 !! i) as [q|] eqn:E2.
  - pose proof (Hp' _ _ E2) as E3. rewrite E3 in H3. injection H3 as <-.
    eapply Hn; eauto.
  - eapply Hn'; eauto.
Qed.

Lemma grows_projectionsInFront (c c' : ProjectionCache) :
  projectionsInFront c -> grows c c' -> projectionsInFront c'.
Proof.
  intros Hc (Hp & _ & _ & Hn) i p Hi.
  destruct (projections c !! i) as [q|] eqn:E.
  - pose proof (Hp _ _ E) as E'. rewrite E' in Hi. injection Hi as <-. now apply Hc.
  - now apply (Hn i p).
Qed.

Lemma projectionsInFront_empty : projectionsInFront emptyCache.
Proof.
  intros i p H. unfold emptyCache in H. simpl in H.
  rewrite lookup_empty in H. discriminate.
Qed.

(** What [projectVertexToViewport] returns and does to the cache: a hit,
    a projection in front of the camera which it caches, or a substitute
    for a vertex behind the camera which it does not cache. *)
Lemma projectVertexToViewport_cases (index : Z) (syn : ProjectionSyntheticVertexArgs)
    (c : ProjectionCache) :
  let '(p, c') := projectVertexToViewport index syn c in
  (projections c !! index = Some p /\ c' = c)
  \/ (projections c !! index = None /\ inFront index p
      /\ projections c' = <[index := p]> (projections c)
      /\ offsets c' = offsets c /\ cachedAnchorPoint c' = cachedAnchorPoint c)
  \/ (projections c !! index = None
      /\ ~ (Fin 0 < signedDistanceFromCamera (vertexProjection index))%num
      /\ c' = c
      /\ p = substitute (previousVertex syn) (projectedUnitSegmentOf index syn)
                        (Fin (absOffsetX syn) - distanceFromAnchor syn + Fin 1)).
Proof.
  unfold projectVertexToViewport.
  destruct (projections c !! index) as [q|] eqn:E; [left; auto|].
  fold (vertexProjection index).
  unfold nlt.
  destruct (nltb (Fin 0) (signedDistanceFromCamera (vertexProjection index))) eqn:Hd.
  - right. left. repeat split; auto.
  - right. right. split; [reflexivity | split; [discriminate | split; reflexivity]].
Qed.

Lemma projectVertexToViewport_grows (index : Z) (syn : ProjectionSyntheticVertexArgs)
    (c : ProjectionCache) :
  grows c (snd (projectVertexToViewport index syn c)).
Proof.
  pose proof (projectVertexToViewport_cases index syn c) as H.
  destruct (projectVertexToViewport index syn c) as [p c']. simpl.
  destruct H as [[_ ->] | [(Hnone & Hfront & Hp & Ho & Ha) | (_ & _ & -> & _)]];
    try apply grows_refl.
  split; [|split; [|split]].
  - intros i q Hi. rewrite Hp.
    destruct (decide (index = i)) as [->|Hne]; [congruence|].
    now rewrite lookup_insert_ne.
  - intros i q Hi. now rewrite Ho.
  - intros a Hanchor. now rewrite Ha.
  - intros i q Hi Hi'. rewrite Hp in Hi'.
    destruct (decide (index = i)) as [->|Hne].
    + rewrite lookup_insert_eq in Hi'. injection Hi' as <-. exact Hfront.
    + rewrite lookup_insert_ne in Hi' by assumption. congruence.
Qed.

Lemma findOffsetIntersectionPoint_grows (index : Z) (normal vertex : Point)
    (lineStart lineEnd : Z) (offsetPrevious : Point) (lineOffsetY : R)
    (syn : ProjectionSyntheticVertexArgs) (c : ProjectionCache) :
  let '(p, c') :=
    findOffsetIntersectionPoint index normal vertex lineStart lineEnd offsetPrevious
      lineOffsetY syn c in
  grows c c' /\ offsets c' !! index = Some p.
Proof.
  unfold findOffsetIntersectionPoint.
  destruct (offsets c !! index) as [q|] eqn:E; [split; [apply grows_refl | assumption]|].
  destruct (_ || _)%bool.
  - split; [|simpl; apply lookup_insert_eq].
    split; [|split; [|split]]; simpl; auto.
    + intros i q Hi. destruct (decide (index = i)) as [->|Hne]; [congruence|].
      now rewrite lookup_insert_ne.
    + intros i q Hi Hi'. congruence.
  - pose proof (projectVertexToViewport_grows (index + direction syn) syn c) as Hg.
    destruct (projectVertexToViewport (index + direction syn) syn c) as [next c1].
    simpl in Hg. destruct Hg as (Hp & Ho & Ha & Hn).
    split; [|simpl; apply lookup_insert_eq].
    split; [|split; [|split]]; simpl; auto.
    intros i q Hi. destruct (decide (index = i)) as [->|Hne]; [congruence|].
    rewrite lookup_insert_ne by assumption. auto.
Qed.

Lemma anchorPointOf_grows (c : ProjectionCache) :
  let '(a, c') := anchorPointOf c in
  grows c c' /\ cachedAnchorPoint c' = Some a.
Proof.
  unfold anchorPointOf.
  destruct (cachedAnchorPoint c) as [a|] eqn:E; [split; [apply grows_refl | assumption]|].
  split; [|reflexivity].
  split; [|split; [|split]]; simpl; auto; congruence.
Qed.

Lemma walkStep_grows (d : Z) (absOffset lineOffsetY : R) (lineStart lineEnd : Z)
    (w w' : Walk) :
  walkStep d absOffset lineOffsetY lineStart lineEnd w = Some w' ->
  grows (walkCache w) (walkCache w').
Proof.
  unfold walkStep. intros H.
  destruct (_ || _)%bool; [discriminate|].
  match type of H with context [projectVertexToViewport ?i ?syn ?c] =>
    pose proof (projectVertexToViewport_grows i syn c) as Hg1;
    destruct (projectVertexToViewport i syn c) as [vertex c1] end.
  simpl in Hg1.
  destruct (Req_dec_T lineOffsetY 0).
  - injection H as <-. exact Hg1.
  - match type of H with context [neqb (mag ?v) (Fin 0)] =>
      destruct (neqb (mag v) (Fin 0)) end.
    + match type of H with context [projectVertexToViewport ?i ?syn c1] =>
        pose proof (projectVertexToViewport_grows i syn c1) as Hg2;
        destruct (projectVertexToViewport i syn c1) as [next c2] end.
      simpl in Hg2.
      match type of H with
        context [findOffsetIntersectionPoint ?i ?n ?v ?a ?b ?o ?l ?syn c2] =>
        pose proof (findOffsetIntersectionPoint_grows i n v a b o l syn c2) as Hg3;
        destruct (findOffsetIntersectionPoint i n v a b o l syn c2) as [inter c3] end.
      destruct Hg3 as [Hg3 _]. injection H as <-. simpl.
      eapply grows_trans; [exact Hg1|]. eapply grows_trans; eassumption.
    + match type of H with
        context [findOffsetIntersectionPoint ?i ?n ?v ?a ?b ?o ?l ?syn c1] =>
        pose proof (findOffsetIntersectionPoint_grows i n v a b o l syn c1) as Hg3;
        destruct (findOffsetIntersectionPoint i n v a b o l syn c1) as [inter c3] end.
      destruct Hg3 as [Hg3 _]. injection H as <-. simpl.
      eapply grows_trans; eassumption.
Qed.

Lemma walkLoop_grows (fuel : nat) (d : Z) (angle absOffset lineOffsetY : R)
    (lineStart lineEnd : Z) (rotateToLine : bool) :
  forall (w : Walk) (r : option PlacedGlyph) (c' : ProjectionCache),
  walkLoop fuel d angle absOffset lineOffsetY lineStart lineEnd rotateToLine w
    = Normal (r, c') ->
  grows (walkCache w) c'.
Proof.
  induction fuel as [|fuel IH]; intros w r c' H; simpl in H.
  - destruct (walkOn absOffset w); [discriminate|].
    unfold walkEnd in H. destruct (currentLineSegment w); [|discriminate].
    injection H as _ <-. apply grows_refl.
  - destruct (walkOn absOffset w).
    + destruct (walkStep d absOffset lineOffsetY lineStart lineEnd w) as [w1|] eqn:E.
      * eapply grows_trans; [eapply walkStep_grows; exact E | eapply IH; exact H].
      * injection H as _ <-. apply grows_refl.
    + unfold walkEnd in H. destruct (currentLineSegment w); [|discriminate].
      injection H as _ <-. apply grows_refl.
Qed.

Lemma placeGlyphAlongLine_grows (offsetX lineOffsetX lineOffsetY : R) (flip : bool)
    (anchorSegment lineStart lineEnd : Z) (rotateToLine : bool)
    (c c' : ProjectionCache) (r : option PlacedGlyph) :
  placeGlyphAlongLine offsetX lineOffsetX lineOffsetY flip anchorSegment lineStart
    lineEnd rotateToLine c = Normal (r, c') ->
  grows c c' /\ exists a, cachedAnchorPoint c' = Some a.
Proof.
  unfold placeGlyphAlongLine. intros H.
  pose proof (anchorPointOf_grows c) as Ha.
  destruct (anchorPointOf c) as [a c1]. destruct Ha as [Hg Ha].
  apply walkLoop_grows in H. simpl in H.
  split; [eapply grows_trans; eassumption|].
  exists a. destruct H as (_ & _ & H & _). now apply H.
Qed.

Lemma placeAll_grows (calls : list Call) :
  forall (c c' : ProjectionCache) (glyphs : list (option PlacedGlyph)),
  placeAll calls c = Normal (glyphs, c') -> grows c c'.
Proof.
  induction calls as [|call rest IH]; intros c c' glyphs H; simpl in H.
  - injection H as _ <-. apply grows_refl.
  - destruct (placeGlyphAlongLine _ _ _ _ _ _ _ _ c) as [[g c1]| |] eqn:E;
      simpl in H; try discriminate.
    destruct (placeAll rest c1) as [[gs c2]| |] eqn:E2; simpl in H; try discriminate.
    injection H as _ <-.
    apply placeGlyphAlongLine_grows in E as [Hg _].
    eapply grows_trans; [exact Hg | eapply IH; exact E2].
Qed.

(** ** The walk ends *)

Lemma walkStep_index (d : Z) (absOffset lineOffsetY : R) (lineStart lineEnd : Z)
    (w w' : Walk) :
  walkStep d absOffset lineOffsetY lineStart lineEnd w = Some w' ->
  currentIndex w' = (currentIndex w + d)%Z
  /\ (lineStart <= currentIndex w' < lineEnd)%Z
  /\ currentLineSegment w' <> None
  /\ walkDistanceFromAnchor w'
     = (walkDistanceFromAnchor w + currentSegmentDistance w)%num.
Proof.
  unfold walkStep. intros H.
  destruct (_ || _)%bool eqn:Erange; [discriminate|].
  apply orb_false_elim in Erange as [E1 E2].
  apply Z.ltb_ge in E1. apply Z.leb_gt in E2.
  destruct (projectVertexToViewport _ _ _) as [vertex c1].
  destruct (Req_dec_T lineOffsetY 0).
  - injection H as <-. simpl. repeat split; auto; lia || discriminate.
  - destruct (neqb _ (Fin 0)).
    + destruct (projectVertexToViewport _ _ c1) as [next c2].
      destruct (findOffsetIntersectionPoint _ _ _ _ _ _ _ _ c2) as [inter c3].
      injection H as <-. simpl. repeat split; auto; lia || discriminate.
    + destruct (findOffsetIntersectionPoint _ _ _ _ _ _ _ _ c1) as [inter c3].
      injection H as <-. simpl. repeat split; auto; lia || discriminate.
Qed.

Lemma walkLoop_total (d : Z) (angle absOffset lineOffsetY : R)
    (lineStart lineEnd : Z) (rotateToLine : bool) :
  (d = 1 \/ d = -1)%Z ->
  forall (fuel : nat) (w : Walk),
  (stepsLeft d lineStart lineEnd (currentIndex w) < fuel)%nat ->
  (currentLineSegment w = None -> walkOn absOffset w = true) ->
  exists r c',
    walkLoop fuel d angle absOffset lineOffsetY lineStart lineEnd rotateToLine w
      = Normal (r, c').
Proof.
  intros Hd. induction fuel as [|fuel IH]; intros w Hfuel Hseg; [lia|].
  simpl. destruct (walkOn absOffset w) eqn:Eon.
  - destruct (walkStep d absOffset lineOffsetY lineStart lineEnd w) as [w1|] eqn:E;
      [|eauto].
    apply walkStep_index in E as (Hi & Hrange & Hls & _).
    apply IH; [|intros; contradiction].
    unfold stepsLeft in *. rewrite Hi in *.
    destruct ((currentIndex w + d <? lineStart) || (lineEnd <=? currentIndex w + d))%Z%bool
      eqn:E1.
    { apply orb_true_iff in E1 as [E1|E1]; [apply Z.ltb_lt in E1 | apply Z.leb_le in E1]; lia. }
    destruct ((currentIndex w + d + d <? lineStart)
              || (lineEnd <=? currentIndex w + d + d))%Z%bool eqn:E2.
    { destruct (0 <? d)%Z; lia. }
    apply orb_false_elim in E2 as [E2 E3].
    apply Z.ltb_ge in E2. apply Z.leb_gt in E3.
    destruct Hd as [-> | ->]; simpl in *; lia.
  - unfold walkEnd. destruct (currentLineSegment w) eqn:Els; [eauto|].
    specialize (Hseg eq_refl). congruence.
Qed.

Lemma walkDirection_unit (combined : R) (flip : bool) :
  (walkDirection combined flip = 1 \/ walkDirection combined flip = -1)%Z.
Proof.
  unfold walkDirection. destruct (Rlt_dec 0 combined), flip; auto.
Qed.

Lemma walkOn_start (d anchorSegment lineStart : Z) (a : Point) (c : ProjectionCache)
    (combined : R) :
  walkOn (Rabs combined) (walkStart d anchorSegment lineStart a c) = true.
Proof.
  unfold walkOn, walkStart. simpl.
  destruct (Rle_dec (0 + 0) (Rabs combined)) as [|Hn]; [reflexivity|].
  exfalso. apply Hn. pose proof (Rabs_pos combined). lra.
Qed.

(** [placeGlyphAlongLine] returns: it neither throws nor runs on. *)
Lemma placeGlyphAlongLine_total (offsetX lineOffsetX lineOffsetY : R) (flip : bool)
    (anchorSegment lineStart lineEnd : Z) (rotateToLine : bool) (c : ProjectionCache) :
  exists r c',
    placeGlyphAlongLine offsetX lineOffsetX lineOffsetY flip anchorSegment lineStart
      lineEnd rotateToLine c = Normal (r, c').
Proof.
  unfold placeGlyphAlongLine.
  destruct (anchorPointOf c) as [a c1].
  apply walkLoop_total.
  - apply walkDirection_unit.
  - unfold stepsLeft, walkFuel, walkStart. simpl.
    destruct (walkDirection_unit (combinedOffset offsetX lineOffsetX flip) flip)
      as [-> | ->]; simpl;
      match goal with |- context [if ?b then _ else _] => destruct b eqn:E end;
      try lia;
      apply orb_false_elim in E as [E1 E2];
      apply Z.ltb_ge in E1; apply Z.leb_gt in E2; lia.
  - intros _. apply walkOn_start.
Qed.

Lemma placeAll_total (calls : list Call) (c : ProjectionCache) :
  exists glyphs c', placeAll calls c = Normal (glyphs, c').
Proof.
  revert c. induction calls as [|call rest IH]; intros c; simpl; [eauto|].
  destruct (placeGlyphAlongLine_total (callOffsetX call) (callLineOffsetX call)
              (callLineOffsetY call) (callFlip call) (callAnchorSegment call)
              (callLineStartIndex call) (callLineEndIndex call)
              (callRotateToLine call) c) as (g & c1 & ->).
  simpl. destruct (IH c1) as (gs & c2 & ->). simpl. eauto.
Qed.

(** ** What the cache holds *)

Lemma placeFirstAndLastGlyph_grows (fontScale : R) (glyphOffsetArray : Z -> R)
    (lineOffsetX lineOffsetY : R) (flip : bool) (symbol : PlacedSymbol)
    (rotateToLine : bool) (c c' : ProjectionCache)
    (r : option (PlacedGlyph * PlacedGlyph)) :
  placeFirstAndLastGlyph fontScale glyphOffsetArray lineOffsetX lineOffsetY flip symbol
    rotateToLine c = Normal (r, c') ->
  grows c c'.
Proof.
  unfold placeFirstAndLastGlyph. intros H.
  destruct (placeGlyphAlongLine _ _ _ _ _ _ _ _ c) as [[g1 c1]| |] eqn:E1;
    simpl in H; try discriminate.
  apply placeGlyphAlongLine_grows in E1 as [Hg1 _].
  destruct g1 as [g1|]; [|injection H as _ <-; exact Hg1].
  destruct (placeGlyphAlongLine _ _ _ _ _ _ _ _ c1) as [[g2 c2]| |] eqn:E2;
    simpl in H; try discriminate.
  apply placeGlyphAlongLine_grows in E2 as [Hg2 _].
  destruct g2 as [g2|]; injection H as _ <-; eapply grows_trans; eassumption.
Qed.

Lemma placeInteriorGlyphs_grows (count : nat) (fontScale : R)
    (glyphOffsetArray : Z -> R) (lineOffsetX lineOffsetY : R) (flip : bool)
    (symbol : PlacedSymbol) (rotateToLine : bool) :
  forall (glyphIndex : Z) (c c' : ProjectionCache) (glyphs : list (option PlacedGlyph)),
  placeInteriorGlyphs count glyphIndex fontScale glyphOffsetArray lineOffsetX lineOffsetY
    flip symbol rotateToLine c = Normal (glyphs, c') ->
  grows c c'.
Proof.
  induction count as [|count IH]; intros glyphIndex c c' glyphs H; simpl in H.
  - injection H as _ <-. apply grows_refl.
  - destruct (placeGlyphAlongLine _ _ _ _ _ _ _ _ c) as [[g c1]| |] eqn:E;
      simpl in H; try discriminate.
    destruct (placeInteriorGlyphs count _ _ _ _ _ _ _ _ c1) as [[gs c2]| |] eqn:E2;
      simpl in H; try discriminate.
    injection H as _ <-.
    apply placeGlyphAlongLine_grows in E as [Hg _].
    eapply grows_trans; [exact Hg | eapply IH; exact E2].
Qed.

Lemma placeGlyphsAlongLine_grows (symbol : PlacedSymbol) (fontSize : R)
    (flip keepUpright : bool) (posMatrix glCoordMatrix : mat4)
    (glyphOffsetArray : Z -> R) (aspectRatio : R) (rotateToLine : bool)
    (c c' : ProjectionCache) (r : Placement) :
  placeGlyphsAlongLine symbol fontSize flip keepUpright posMatrix glCoordMatrix
    glyphOffsetArray aspectRatio rotateToLine c = Normal (r, c') ->
  grows c c'.
Proof.
  unfold placeGlyphsAlongLine. intros H.
  destruct (1 <? numGlyphs symbol)%Z.
  - destruct (placeFirstAndLastGlyph _ _ _ _ _ _ _ c) as [[fl c1]| |] eqn:E1;
      simpl in H; try discriminate.
    apply placeFirstAndLastGlyph_grows in E1.
    destruct fl as [[first last]|]; [|injection H as _ <-; exact E1].
    destruct (if (keepUpright && negb flip)%bool then _ else None);
      [injection H as _ <-; exact E1|].
    destruct (placeInteriorGlyphs _ _ _ _ _ _ _ _ _ c1) as [[gs c2]| |] eqn:E2;
      simpl in H; try discriminate.
    apply placeInteriorGlyphs_grows in E2.
    destruct (addAllDynamicAttributes _); simpl in H; try discriminate.
    injection H as _ <-. eapply grows_trans; eassumption.
  - destruct (if (keepUpright && negb flip)%bool then _ else None);
      [injection H as _ <-; apply grows_refl|].
    destruct (placeGlyphAlongLine _ _ _ _ _ _ _ _ c) as [[g c1]| |] eqn:E;
      simpl in H; try discriminate.
    apply placeGlyphAlongLine_grows in E as [Hg _].
    destruct g; injection H as _ <-; exact Hg.
Qed.

(** C9: through every run of placements on the cache of a symbol, which
    starts empty, every cached projection is the projection of its vertex
    and lies in front of the camera; [placeGlyphsAlongLine] keeps that; and
    for a vertex that is not cached and projects with non-positive depth
    [projectVertexToViewport] leaves the cache as it was. *)
Theorem cache_holds_front_projections :
  (forall calls,
     exists glyphs cache,
       placeAll calls emptyCache = Normal (glyphs, cache)
       /\ projectionsInFront cache)
  /\ (forall symbol fontSize flip keepUpright posMatrix glCoordMatrix glyphOffsetArray
             aspectRatio rotateToLine cache placement cache',
        projectionsInFront cache ->
        placeGlyphsAlongLine symbol fontSize flip keepUpright posMatrix glCoordMatrix
          glyphOffsetArray aspectRatio rotateToLine cache = Normal (placement, cache') ->
        projectionsInFront cache')
  /\ (forall index syntheticVertexArgs cache,
        projections cache !! index = None ->
        ~ (Fin 0 < signedDistanceFromCamera (vertexProjection index))%num ->
        snd (projectVertexToViewport index syntheticVertexArgs cache) = cache).
Proof.
  split; [|split].
  - intros calls.
    destruct (placeAll_total calls emptyCache) as (glyphs & cache & H).
    exists glyphs, cache. split; [exact H|].
    eapply grows_projectionsInFront; [apply projectionsInFront_empty|].
    eapply placeAll_grows; exact H.
  - intros symbol fontSize flip keepUpright posMatrix glCoordMatrix glyphOffsetArray
           aspectRatio rotateToLine cache placement cache' Hc H.
    eapply grows_projectionsInFront; [exact Hc|].
    eapply placeGlyphsAlongLine_grows; exact H.
  - intros index syn cache Hnone Hbehind.
    pose proof (projectVertexToViewport_cases index syn cache) as H.
    destruct (projectVertexToViewport index syn cache) as [p c']. simpl.
    destruct H as [[H _] | [(_ & [_ H] & _) | (_ & _ & H & _)]];
      [congruence | contradiction | exact H].
Qed.

(** ** When the walk leaves the line *)

Lemma walkOn_false (absOffset : R) (w : Walk) :
  walkOn absOffset w = false
  <-> (Fin absOffset < walkDistanceFromAnchor w + currentSegmentDistance w)%num
      \/ (walkDistanceFromAnchor w + currentSegmentDistance w)%num = NaN.
Proof.
  unfold walkOn. apply nleb_false.
Qed.

Lemma walkStep_None (d : Z) (absOffset lineOffsetY : R) (lineStart lineEnd : Z)
    (w : Walk) :
  walkStep d absOffset lineOffsetY lineStart lineEnd w = None
  <-> ~ (lineStart <= currentIndex w + d < lineEnd)%Z.
Proof.
  unfold walkStep.
  destruct (_ || _)%bool eqn:E.
  - split; [|reflexivity]. intros _.
    apply orb_true_iff in E as [E|E]; [apply Z.ltb_lt in E | apply Z.leb_le in E]; lia.
  - apply orb_false_elim in E as [E1 E2]. apply Z.ltb_ge in E1. apply Z.leb_gt in E2.
    split; [|lia]. intros H. exfalso.
    destruct (projectVertexToViewport _ _ _) as [vertex c1].
    destruct (Req_dec_T lineOffsetY 0); [discriminate|].
    destruct (neqb _ (Fin 0)).
    + destruct (projectVertexToViewport _ _ c1) as [next c2].
      destruct (findOffsetIntersectionPoint _ _ _ _ _ _ _ _ c2). discriminate.
    + destruct (findOffsetIntersectionPoint _ _ _ _ _ _ _ _ c1). discriminate.
Qed.

Lemma walkTurns_last (d : Z) (absOffset lineOffsetY : R) (lineStart lineEnd : Z)
    (n : nat) :
  forall w w',
  walkTurns (S n) d absOffset lineOffsetY lineStart lineEnd w = Some w' ->
  (lineStart <= currentIndex w' < lineEnd)%Z /\ currentLineSegment w' <> None.
Proof.
  induction n as [|n IH]; intros w w' H; simpl in H.
  - destruct (walkOn absOffset w); [|discriminate].
    destruct (walkStep d absOffset lineOffsetY lineStart lineEnd w) as [w1|] eqn:E;
      [|discriminate].
    injection H as <-. apply walkStep_index in E. tauto.
  - destruct (walkOn absOffset w); [|discriminate].
    destruct (walkStep d absOffset lineOffsetY lineStart lineEnd w) as [w1|] eqn:E;
      [|discriminate].
    apply (IH w1 w'). exact H.
Qed.

(** How the loop ends, in turns of the walk. *)
Lemma walkLoop_result (d : Z) (angle absOffset lineOffsetY : R)
    (lineStart lineEnd : Z) (rotateToLine : bool) (fuel : nat) :
  forall w r c',
  walkLoop fuel d angle absOffset lineOffsetY lineStart lineEnd rotateToLine w
    = Normal (r, c') ->
  exists n w',
    walkTurns n d absOffset lineOffsetY lineStart lineEnd w = Some w'
    /\ match r with
       | None =>
           walkOn absOffset w' = true
           /\ ~ (lineStart <= currentIndex w' + d < lineEnd)%Z
       | Some g =>
           walkOn absOffset w' = false
           /\ walkEnd angle absOffset rotateToLine w' = Normal (Some g, c')
       end.
Proof.
  induction fuel as [|fuel IH]; intros w r c' H; simpl in H.
  - destruct (walkOn absOffset w) eqn:Eon; [discriminate|].
    exists O, w. split; [reflexivity|].
    unfold walkEnd in *. destruct (currentLineSegment w); [|discriminate].
    injection H as <- <-. auto.
  - destruct (walkOn absOffset w) eqn:Eon.
    + destruct (walkStep d absOffset lineOffsetY lineStart lineEnd w) as [w1|] eqn:E.
      * destruct (IH _ _ _ H) as (n & w' & Hn & Hr).
        exists (S n), w'. split; [|exact Hr]. simpl. now rewrite Eon, E.
      * injection H as <- <-. exists O, w. split; [reflexivity|].
        split; [exact Eon | now apply walkStep_None in E].
    + exists O, w. split; [reflexivity|].
      unfold walkEnd in *. destruct (currentLineSegment w); [|discriminate].
      injection H as <- <-. auto.
Qed.

Lemma walkTurns_exclusive (d : Z) (absOffset lineOffsetY : R) (lineStart lineEnd : Z)
    (n : nat) :
  forall m w w1 w2,
  walkTurns n d absOffset lineOffsetY lineStart lineEnd w = Some w1 ->
  walkOn absOffset w1 = true ->
  ~ (lineStart <= currentIndex w1 + d < lineEnd)%Z ->
  walkTurns m d absOffset lineOffsetY lineStart lineEnd w = Some w2 ->
  walkOn absOffset w2 = false ->
  False.
Proof.
  induction n as [|n IH]; intros m w w1 w2 H1 Hle Hout H2 Hlt.
  - injection H1 as <-. destruct m as [|m]; simpl in H2.
    + injection H2 as <-. congruence.
    + destruct (walkOn absOffset w); [|discriminate].
      pose proof (proj2 (walkStep_None d absOffset lineOffsetY lineStart lineEnd w) Hout)
        as Hnone.
      rewrite Hnone in H2. discriminate.
  - simpl in H1. destruct (walkOn absOffset w) eqn:Eon; [|discriminate].
    destruct (walkStep d absOffset lineOffsetY lineStart lineEnd w) as [w'|] eqn:E;
      [|discriminate].
    destruct m as [|m]; simpl in H2.
    + injection H2 as <-. congruence.
    + rewrite Eon, E in H2. eapply IH; eauto.
Qed.

(** ** The remaining length of the line *)

Lemma polylineLength_isLength (points : list Point) :
  forall from, isLength (polylineLength from points).
Proof.
  induction points as [|p rest IH]; intros from; simpl; [lra|].
  apply isLength_nadd; [apply mag_isLength | apply IH].
Qed.

(** A distance that has passed the offset stays past it, whatever length
    is added. *)
Lemma nleb_false_nadd (a c : Num) (bound : R) :
  nleb a (Fin bound) = false -> isLength c -> nleb (a + c) (Fin bound) = false.
Proof.
  destruct a as [r| | |], c as [s| | |]; simpl; try discriminate; try reflexivity;
    try contradiction.
  destruct (Rle_dec r bound), (Rle_dec (r + s) bound); try discriminate; try reflexivity.
  intros _ Hs. lra.
Qed.

Lemma stepsLeft_S (d lineStart lineEnd index : Z) (n : nat) :
  (d = 1 \/ d = -1)%Z ->
  stepsLeft d lineStart lineEnd index = S n ->
  (lineStart <= index + d < lineEnd)%Z
  /\ stepsLeft d lineStart lineEnd (index + d) = n.
Proof.
  intros Hd. unfold stepsLeft.
  destruct ((index + d <? lineStart) || (lineEnd <=? index + d))%Z%bool eqn:E1;
    [discriminate|].
  apply orb_false_elim in E1 as [E1 E2]. apply Z.ltb_ge in E1. apply Z.leb_gt in E2.
  intros H. split; [lia|].
  destruct ((index + d + d <? lineStart) || (lineEnd <=? index + d + d))%Z%bool eqn:E3.
  - apply orb_true_iff in E3 as [E3|E3];
      [apply Z.ltb_lt in E3 | apply Z.leb_le in E3];
      destruct Hd as [-> | ->]; simpl in *; lia.
  - apply orb_false_elim in E3 as [E3 E4]. apply Z.ltb_ge in E3. apply Z.leb_gt in E4.
    destruct Hd as [-> | ->]; simpl in *; lia.
Qed.

Lemma stepsLeft_O (d lineStart lineEnd index : Z) :
  (d = 1 \/ d = -1)%Z ->
  stepsLeft d lineStart lineEnd index = O ->
  ~ (lineStart <= index + d < lineEnd)%Z.
Proof.
  intros Hd. unfold stepsLeft.
  destruct ((index + d <? lineStart) || (lineEnd <=? index + d))%Z%bool eqn:E1.
  - intros _. apply orb_true_iff in E1 as [E1|E1];
      [apply Z.ltb_lt in E1 | apply Z.leb_le in E1]; lia.
  - apply orb_false_elim in E1 as [E1 E2]. apply Z.ltb_ge in E1. apply Z.leb_gt in E2.
    destruct Hd as [-> | ->]; simpl; lia.
Qed.

Lemma stepsLeft_start (d anchorSegment lineStart lineEnd : Z) (a : Point)
    (c : ProjectionCache) :
  (d = 1 \/ d = -1)%Z ->
  (stepsLeft d lineStart lineEnd (currentIndex (walkStart d anchorSegment lineStart a c))
   < walkFuel lineStart lineEnd)%nat.
Proof.
  intros Hd. unfold stepsLeft, walkFuel, walkStart. simpl.
  destruct Hd as [-> | ->]; simpl;
    match goal with |- context [if ?b then _ else _] => destruct b eqn:E end;
    try lia;
    apply orb_false_elim in E as [E1 E2];
    apply Z.ltb_ge in E1; apply Z.leb_gt in E2; lia.
Qed.

(** A turn of the walk along the line itself, to a vertex in front of the
    camera. *)
Lemma walkStep_front (d : Z) (absOffset : R) (lineStart lineEnd : Z) (w : Walk) :
  (lineStart <= currentIndex w + d < lineEnd)%Z ->
  (Fin 0 < signedDistanceFromCamera (vertexProjection (currentIndex w + d)))%num ->
  projectionsInFront (walkCache w) ->
  exists w',
    walkStep d absOffset 0 lineStart lineEnd w = Some w'
    /\ currentIndex w' = (currentIndex w + d)%Z
    /\ currentVertex w' = point (vertexProjection (currentIndex w + d))
    /\ walkDistanceFromAnchor w'
       = (walkDistanceFromAnchor w + currentSegmentDistance w)%num
    /\ currentSegmentDistance w'
       = mag (sub (point (vertexProjection (currentIndex w + d))) (currentVertex w))
    /\ currentLineSegment w' <> None
    /\ projectionsInFront (walkCache w').
Proof.
  intros Hrange Hfront Hcache. unfold walkStep.
  replace ((currentIndex w + d <? lineStart) || (lineEnd <=? currentIndex w + d))%Z%bool
    with false.
  2:{ symmetry. apply orb_false_intro; [apply Z.ltb_ge | apply Z.leb_gt]; lia. }
  match goal with |- context [projectVertexToViewport ?i ?syn ?c] =>
    pose proof (projectVertexToViewport_cases i syn c) as Hcases;
    pose proof (projectVertexToViewport_grows i syn c) as Hgrows;
    destruct (projectVertexToViewport i syn c) as [vertex c1] end.
  simpl in Hgrows.
  assert (Hv : vertex = point (vertexProjection (currentIndex w + d))).
  { destruct Hcases as [[Hhit _] | [(_ & [Hp _] & _) | (_ & Hbehind & _ & _)]].
    - now apply Hcache in Hhit.
    - exact Hp.
    - contradiction. }
  assert (Hc1 : projectionsInFront c1)
    by (eapply grows_projectionsInFront; eassumption).
  destruct (Req_dec_T 0 0) as [_|Hne]; [|contradiction].
  eexists. split; [reflexivity|]. simpl. subst vertex.
  repeat (split; [reflexivity || discriminate|]). exact Hc1.
Qed.

Lemma walkLoop_remaining (d : Z) (angle absOffset : R) (lineStart lineEnd : Z)
    (rotateToLine : bool) :
  (d = 1 \/ d = -1)%Z ->
  (forall i, (lineStart <= i < lineEnd)%Z ->
             (Fin 0 < signedDistanceFromCamera (vertexProjection i))%num) ->
  forall (n fuel : nat) (w : Walk),
  stepsLeft d lineStart lineEnd (currentIndex w) = n ->
  (n < fuel)%nat ->
  projectionsInFront (walkCache w) ->
  isLength (walkDistanceFromAnchor w + currentSegmentDistance w) ->
  (currentLineSegment w = None -> walkOn absOffset w = true) ->
  exists r c',
    walkLoop fuel d angle absOffset 0 lineStart lineEnd rotateToLine w = Normal (r, c')
    /\ (r = None
        <-> (walkDistanceFromAnchor w + currentSegmentDistance w
             + polylineLength (currentVertex w)
                 (map (fun i => point (vertexProjection i))
                      (indicesAhead d (currentIndex w) n))
             <= Fin absOffset)%num).
Proof.
  intros Hd Hfront. induction n as [|n IH]; intros fuel w Hn Hfuel Hcache Hlen Hseg.
  - destruct fuel as [|fuel]; [lia|]. simpl.
    destruct (walkOn absOffset w) eqn:Eon.
    + pose proof (stepsLeft_O _ _ _ _ Hd Hn) as Hout.
      rewrite (proj2 (walkStep_None d absOffset 0 lineStart lineEnd w) Hout).
      do 2 eexists. split; [reflexivity|].
      split; [intros _ | reflexivity].
      unfold walkOn in Eon.
      destruct (nleb_length _ _ Hlen Eon) as (v & -> & Hv).
      apply nleb_Fin_Fin. lra.
    + unfold walkEnd. destruct (currentLineSegment w) eqn:Els.
      * do 2 eexists. split; [reflexivity|]. split; [discriminate|].
        unfold nle. rewrite nleb_false_nadd; [discriminate | exact Eon | simpl; lra].
      * specialize (Hseg eq_refl). congruence.
  - destruct fuel as [|fuel]; [lia|]. simpl.
    destruct (stepsLeft_S _ _ _ _ _ Hd Hn) as [Hrange Hn'].
    destruct (walkOn absOffset w) eqn:Eon.
    + destruct (walkStep_front d absOffset lineStart lineEnd w Hrange
                  (Hfront _ Hrange) Hcache)
        as (w' & Hstep & Hi & Hv & Hdist & Hsd & Hls & Hcache').
      rewrite Hstep.
      destruct (IH fuel w') as (r & c' & Hloop & Hiff).
      * now rewrite Hi.
      * lia.
      * exact Hcache'.
      * rewrite Hdist, Hsd. apply isLength_nadd; [exact Hlen | apply mag_isLength].
      * intros; contradiction.
      * exists r, c'. split; [exact Hloop|].
        rewrite Hiff, Hi, Hv, Hdist, Hsd.
        unfold walkOn in Eon.
        destruct (nleb_length _ _ Hlen Eon) as (v & -> & Hv').
        rewrite nadd_Fin_assoc. reflexivity.
    + unfold walkEnd. destruct (currentLineSegment w) eqn:Els.
      * do 2 eexists. split; [reflexivity|]. split; [discriminate|].
        unfold nle. rewrite nleb_false_nadd; [discriminate | exact Eon |].
        apply (polylineLength_isLength (_ :: _)).
      * specialize (Hseg eq_refl). congruence.
Qed.

(** C1, amended: a call of [placeGlyphAlongLine] returns.  It returns
    null exactly when the walk from the anchor's segment leaves the vertex
    range of the line while the accumulated distance has not passed the
    absolute combined offset, and a glyph exactly when, at a vertex of the
    range, the distance has passed the offset or is not a number any
    more.  When the line is walked itself (no perpendicular offset) and
    its vertices are in front of the camera, null is returned exactly for
    the offsets that are not below the remaining length of the line from
    the anchor. *)
Theorem placeGlyphAlongLine_null_iff (offsetX lineOffsetX lineOffsetY : R) (flip : bool)
    (anchorSegment lineStart lineEnd : Z) (rotateToLine : bool)
    (cache : ProjectionCache) :
  let absOffsetX := Rabs (combinedOffset offsetX lineOffsetX flip) in
  let d := walkDirection (combinedOffset offsetX lineOffsetX flip) flip in
  let start := walkOfCall offsetX lineOffsetX flip anchorSegment lineStart cache in
  exists r cache',
    placeGlyphAlongLine offsetX lineOffsetX lineOffsetY flip anchorSegment lineStart
      lineEnd rotateToLine cache = Normal (r, cache')
    /\ (r = None <-> leavesLine d absOffsetX lineOffsetY lineStart lineEnd start)
    /\ (r <> None
        <-> reachesOffset d absOffsetX lineOffsetY lineStart lineEnd start
            \/ losesDistance d absOffsetX lineOffsetY lineStart lineEnd start)
    /\ (lineOffsetY = 0 ->
        projectionsInFront cache ->
        (forall i, (lineStart <= i < lineEnd)%Z ->
                   (Fin 0 < signedDistanceFromCamera (vertexProjection i))%num) ->
        (r = None
         <-> (remainingLength (currentVertex start) d anchorSegment lineStart lineEnd
              <= Fin absOffsetX)%num)).
Proof.
  cbv zeta.
  destruct (placeGlyphAlongLine_total offsetX lineOffsetX lineOffsetY flip anchorSegment
              lineStart lineEnd rotateToLine cache) as (r & cache' & Hplace).
  exists r, cache'. split; [exact Hplace|].
  unfold placeGlyphAlongLine, walkOfCall in *.
  pose proof (anchorPointOf_grows cache) as Hanchor.
  destruct (anchorPointOf cache) as [a c1]. destruct Hanchor as [Hgrow _].
  set (combined := combinedOffset offsetX lineOffsetX flip) in *.
  set (d := walkDirection combined flip) in *.
  set (start := walkStart d anchorSegment lineStart a c1) in *.
  pose proof (walkDirection_unit combined flip) as Hd. fold d in Hd.
  destruct (walkLoop_result _ _ _ _ _ _ _ _ _ _ _ Hplace) as (n & w' & Hturns & Hr).
  split; [|split].
  - split.
    + intros ->. exists n, w'. tauto.
    + intros (n1 & w1 & Hturns1 & Hle1 & Hout1).
      destruct r as [g|]; [|reflexivity]. exfalso.
      destruct Hr as [Hlt _].
      eapply walkTurns_exclusive; [exact Hturns1 | | | exact Hturns |]; eassumption.
  - split.
    + intros Hsome. destruct r as [g|]; [|congruence]. destruct Hr as [Hoff _].
      destruct n as [|n].
      * injection Hturns as <-. unfold start in Hoff.
        rewrite walkOn_start in Hoff. discriminate.
      * pose proof (walkTurns_last _ _ _ _ _ _ _ _ Hturns) as [Hrange _].
        apply walkOn_false in Hoff as [Hlt | Hnan].
        -- left. exists n, w'. auto.
        -- right. exists n, w'. auto.
    + intros Hends ->. destruct Hr as [Hon Hout].
      assert (Hoff : exists n1 w1,
                walkTurns n1 d (Rabs combined) lineOffsetY lineStart lineEnd start = Some w1
                /\ walkOn (Rabs combined) w1 = false).
      { destruct Hends as [(n1 & w1 & Hturns1 & Hlt1 & _) | (n1 & w1 & Hturns1 & Hnan & _)];
          exists (S n1), w1; (split; [exact Hturns1|]); apply walkOn_false; auto. }
      destruct Hoff as (n1 & w1 & Hturns1 & Hoff).
      eapply walkTurns_exclusive; [exact Hturns | | | exact Hturns1 |]; eassumption.
  - intros -> Hcache Hfront.
    destruct (walkLoop_remaining d
                (if (d <? 0)%Z then (if flip then PI else 0) + PI
                 else if flip then PI else 0)
                (Rabs combined) lineStart lineEnd rotateToLine Hd Hfront
                (stepsLeft d lineStart lineEnd (currentIndex start))
                (walkFuel lineStart lineEnd) start eq_refl)
      as (r2 & c2 & Hloop & Hiff).
    + apply stepsLeft_start, Hd.
    + eapply grows_projectionsInFront; eassumption.
    + unfold start, walkStart. simpl. lra.
    + intros _. apply walkOn_start.
    + rewrite Hplace in Hloop. injection Hloop as <- <-.
      rewrite Hiff. unfold remainingLength.
      replace (walkDistanceFromAnchor start + currentSegmentDistance start)%num
        with (Fin 0)
        by (unfold start, walkStart; simpl; f_equal; lra).
      unfold start at 1. unfold walkStart at 1. cbn [currentVertex].
      replace (currentIndex (walkStart d anchorSegment lineStart a emptyCache))
        with (currentIndex start) by reflexivity.
      rewrite nadd_Fin_0. reflexivity.
Qed.

(** ** A shorter walk on a cache that has seen a longer one *)

(** A vertex looked up by two walks, the second on a cache grown from the
    final cache of the first: they see the same point, or each the
    substitute for its own offset along the same segment. *)
Lemma lookup_agrees (index : Z) (synE synM : ProjectionSyntheticVertexArgs)
    (ce cm final : ProjectionCache) :
  direction synE = direction synM ->
  previousVertex synE = previousVertex synM ->
  distanceFromAnchor synE = distanceFromAnchor synM ->
  grows (snd (projectVertexToViewport index synE ce)) final ->
  grows final cm ->
  grows final (snd (projectVertexToViewport index synM cm))
  /\ (fst (projectVertexToViewport index synE ce)
        = fst (projectVertexToViewport index synM cm)
      \/ exists u,
           fst (projectVertexToViewport index synE ce)
             = substitute (previousVertex synE) u
                 (Fin (absOffsetX synE) - distanceFromAnchor synE + Fin 1)
           /\ fst (projectVertexToViewport index synM cm)
             = substitute (previousVertex synE) u
                 (Fin (absOffsetX synM) - distanceFromAnchor synE + Fin 1)).
Proof.
  intros Hdir Hprev Hdist Hfinal Hcm.
  pose proof (projectVertexToViewport_grows index synM cm) as HgM.
  split; [eapply grows_trans; eassumption|].
  pose proof (projectVertexToViewport_grows index synE ce) as HgE.
  pose proof (projectVertexToViewport_cases index synE ce) as HE.
  pose proof (projectVertexToViewport_cases index synM cm) as HM.
  destruct (projectVertexToViewport index synE ce) as [pe ce'].
  destruct (projectVertexToViewport index synM cm) as [pm cm'].
  simpl in *.
  assert (Hseen : forall q, projections ce' !! index = Some q ->
                            projections cm !! index = Some q).
  { intros q Hq. apply Hcm. now apply Hfinal. }
  destruct HE as [[Hhit ->] | [(Hnone & Hfront & Hp & _) | (Hnone & Hbehind & -> & Hpe)]].
  - left. apply Hseen in Hhit.
    destruct HM as [[HhitM _] | [(HnoneM & _) | (HnoneM & _)]]; congruence.
  - left.
    assert (Hin : projections ce' !! index = Some pe)
      by (rewrite Hp; apply lookup_insert_eq).
    apply Hseen in Hin.
    destruct HM as [[HhitM _] | [(HnoneM & _) | (HnoneM & _)]]; congruence.
  - right.
    assert (HnoneF : projections final !! index = None).
    { destruct (projections final !! index) as [q|] eqn:E; [|reflexivity].
      destruct Hfinal as (_ & _ & _ & Hnew).
      destruct (Hnew _ _ Hnone E) as [_ Hq]. contradiction. }
    destruct HM as [[HhitM _] | [(_ & [_ HfrontM] & _) | (_ & _ & _ & Hpm)]].
    + destruct Hcm as (_ & _ & _ & Hnew).
      destruct (Hnew _ _ HnoneF HhitM) as [_ Hq]. contradiction.
    + contradiction.
    + exists (projectedUnitSegmentOf index synE). split; [exact Hpe|].
      rewrite Hpm. unfold projectedUnitSegmentOf.
      rewrite <- Hdir, <- Hprev, <- Hdist. reflexivity.
Qed.

(** The offset normal of a segment of the walk (the look-ahead included),
    with the cache after it. *)
Definition offsetNormalOf (index d : Z) (lineOffsetY : R)
    (syn : ProjectionSyntheticVertexArgs) (current previous : Point)
    (c : ProjectionCache) : Point * ProjectionCache :=
  if neqb (mag (sub current previous)) (Fin 0) then
    (transformToOffsetNormal
       (sub (fst (projectVertexToViewport (index + d) syn c)) current) lineOffsetY d,
     snd (projectVertexToViewport (index + d) syn c))
  else (transformToOffsetNormal (sub current previous) lineOffsetY d, c).

Definition synOf (d : Z) (absOffset : R) (w : Walk) : ProjectionSyntheticVertexArgs :=
  {| absOffsetX := absOffset;
     direction := d;
     distanceFromAnchor := (walkDistanceFromAnchor w + currentSegmentDistance w)%num;
     previousVertex := currentVertex w |}.

(** A turn of the walk along the line itself, and along an offset line,
    in steps. *)
Lemma walkStep_plain (d : Z) (absOffset : R) (lineStart lineEnd : Z) (w : Walk) :
  (lineStart <= currentIndex w + d < lineEnd)%Z ->
  walkStep d absOffset 0 lineStart lineEnd w =
  let r1 := projectVertexToViewport (currentIndex w + d) (synOf d absOffset w)
              (walkCache w) in
  Some {| currentIndex := currentIndex w + d;
          currentVertex := fst r1;
          walkPreviousVertex := currentVertex w;
          offsetIntersectionPoint := offsetIntersectionPoint w;
          offsetPreviousVertex := offsetIntersectionPoint w;
          walkDistanceFromAnchor :=
            (walkDistanceFromAnchor w + currentSegmentDistance w)%num;
          currentSegmentDistance := mag (sub (fst r1) (currentVertex w));
          pathVertices := pathVertices w ++ [currentVertex w];
          currentLineSegment := Some (sub (fst r1) (currentVertex w));
          walkCache := snd r1 |}.
Proof.
  intros Hrange. unfold walkStep, synOf.
  replace ((currentIndex w + d <? lineStart) || (lineEnd <=? currentIndex w + d))%Z%bool
    with false
    by (symmetry; apply orb_false_intro; [apply Z.ltb_ge | apply Z.leb_gt]; lia).
  destruct (projectVertexToViewport _ _ _) as [vertex c1].
  destruct (Req_dec_T 0 0) as [_|Hne]; [reflexivity | contradiction].
Qed.

Lemma walkStep_offset (d : Z) (absOffset lineOffsetY : R) (lineStart lineEnd : Z)
    (w : Walk) :
  lineOffsetY <> 0 ->
  (lineStart <= currentIndex w + d < lineEnd)%Z ->
  walkStep d absOffset lineOffsetY lineStart lineEnd w =
  let index := (currentIndex w + d)%Z in
  let syn := synOf d absOffset w in
  let r1 := projectVertexToViewport index syn (walkCache w) in
  let r2 := offsetNormalOf index d lineOffsetY syn (fst r1) (currentVertex w) (snd r1) in
  let offsetPrevious :=
    match offsetIntersectionPoint w with
    | Some v => v
    | None => add (currentVertex w) (fst r2)
    end in
  let r3 := findOffsetIntersectionPoint index (fst r2) (fst r1) lineStart lineEnd
              offsetPrevious lineOffsetY syn (snd r2) in
  Some {| currentIndex := index;
          currentVertex := fst r1;
          walkPreviousVertex := currentVertex w;
          offsetIntersectionPoint := Some (fst r3);
          offsetPreviousVertex := Some offsetPrevious;
          walkDistanceFromAnchor :=
            (walkDistanceFromAnchor w + currentSegmentDistance w)%num;
          currentSegmentDistance := mag (sub (fst r3) offsetPrevious);
          pathVertices := pathVertices w ++ [offsetPrevious];
          currentLineSegment := Some (sub (fst r3) offsetPrevious);
          walkCache := snd r3 |}.
Proof.
  intros Hoff Hrange. unfold walkStep, synOf, offsetNormalOf.
  replace ((currentIndex w + d <? lineStart) || (lineEnd <=? currentIndex w + d))%Z%bool
    with false
    by (symmetry; apply orb_false_intro; [apply Z.ltb_ge | apply Z.leb_gt]; lia).
  destruct (projectVertexToViewport _ _ _) as [vertex c1].
  destruct (Req_dec_T lineOffsetY 0) as [|_]; [contradiction|].
  cbn [fst snd].
  destruct (neqb (mag (sub vertex (currentVertex w))) (Fin 0)).
  - destruct (projectVertexToViewport _ _ c1) as [next c2]. cbn [fst snd].
    destruct (findOffsetIntersectionPoint _ _ _ _ _ _ _ _ c2) as [inter c3].
    reflexivity.
  - cbn [fst snd].
    destruct (findOffsetIntersectionPoint _ _ _ _ _ _ _ _ c1) as [inter c3].
    reflexivity.
Qed.

Lemma offsetNormalOf_grows (index d : Z) (lineOffsetY : R)
    (syn : ProjectionSyntheticVertexArgs) (current previous : Point)
    (c : ProjectionCache) :
  grows c (snd (offsetNormalOf index d lineOffsetY syn current previous c)).
Proof.
  unfold offsetNormalOf. destruct (neqb _ (Fin 0)); simpl.
  - apply projectVertexToViewport_grows.
  - apply grows_refl.
Qed.

Lemma findOffsetIntersectionPoint_hit (index : Z) (normal vertex : Point)
    (lineStart lineEnd : Z) (offsetPrevious : Point) (lineOffsetY : R)
    (syn : ProjectionSyntheticVertexArgs) (c : ProjectionCache) (p : Point) :
  offsets c !! index = Some p ->
  findOffsetIntersectionPoint index normal vertex lineStart lineEnd offsetPrevious
    lineOffsetY syn c = (p, c).
Proof.
  intros H. unfold findOffsetIntersectionPoint. now rewrite H.
Qed.

(** Two looked-up points agree up to the length of the substitute. *)
Definition agree (previous : Point) (le lm : Num) (pe pm : Point) : Prop :=
  pe = pm
  \/ exists u, pe = substitute previous u le /\ pm = substitute previous u lm.

(** On the first turn both walks compute the same offset normal. *)
Lemma offsetNormalOf_agrees (index d : Z) (lineOffsetY absE absM v : R) (w : Walk)
    (pe pm : Point) (ce cm final : ProjectionCache) :
  let synE := synOf d absE w in
  let synM := synOf d absM w in
  (walkDistanceFromAnchor w + currentSegmentDistance w)%num = Fin v ->
  v <= absM -> absM <= absE ->
  agree (currentVertex w) (Fin absE - Fin v + Fin 1) (Fin absM - Fin v + Fin 1) pe pm ->
  grows (snd (offsetNormalOf index d lineOffsetY synE pe (currentVertex w) ce)) final ->
  grows final cm ->
  fst (offsetNormalOf index d lineOffsetY synE pe (currentVertex w) ce)
    = fst (offsetNormalOf index d lineOffsetY synM pm (currentVertex w) cm)
  /\ grows final (snd (offsetNormalOf index d lineOffsetY synM pm (currentVertex w) cm)).
Proof.
  intros synE synM Ht HvM HME Hagree Hfinal Hcm.
  split; [|eapply grows_trans; [exact Hcm | apply offsetNormalOf_grows]].
  unfold offsetNormalOf in *.
  destruct Hagree as [<- | (u & -> & ->)].
  - destruct (neqb (mag (sub pe (currentVertex w))) (Fin 0)) eqn:Hz;
      [|reflexivity].
    cbn [fst snd] in *.
    destruct (lookup_agrees (index + d) synE synM ce cm final
                eq_refl eq_refl eq_refl Hfinal Hcm) as [_ Hnext].
    destruct Hnext as [-> | (u & -> & ->)]; [reflexivity|].
    apply mag_0, sub_finitePoint_0 in Hz as (a & b & Hpe & Hcur).
    rewrite Hpe, <- Hcur.
    cbn [synE synM synOf absOffsetX distanceFromAnchor previousVertex].
    rewrite Ht. cbn [nsub nneg nadd].
    unfold transformToOffsetNormal.
    destruct (substitute_unit (currentVertex w) u (absE + - v + 1) (absM + - v + 1))
      as (_ & _ & ->); [lra | lra | reflexivity].
  - cbn [nsub nneg nadd].
    destruct (substitute_unit (currentVertex w) u (absE + - v + 1) (absM + - v + 1))
      as (-> & -> & Hunit); [lra | lra |].
    cbn [fst]. unfold transformToOffsetNormal. now rewrite Hunit.
Qed.

(** ** Two walks in step *)

(** The walk [we] for an offset and the walk [wm] for a shorter one are in
    step: same vertex index, same distances, same point on the offset
    line; the same vertex where the next turn reads it. *)
Definition inStep (lineOffsetY : R) (we wm : Walk) : Prop :=
  currentIndex we = currentIndex wm
  /\ walkDistanceFromAnchor we = walkDistanceFromAnchor wm
  /\ currentSegmentDistance we = currentSegmentDistance wm
  /\ offsetIntersectionPoint we = offsetIntersectionPoint wm
  /\ isLength (walkDistanceFromAnchor we + currentSegmentDistance we)
  /\ (lineOffsetY = 0 \/ offsetIntersectionPoint we = None
      -> currentVertex we = currentVertex wm).

Lemma synOf_inStep (d : Z) (absOffset : R) (we wm : Walk) :
  walkDistanceFromAnchor we = walkDistanceFromAnchor wm ->
  currentSegmentDistance we = currentSegmentDistance wm ->
  currentVertex we = currentVertex wm ->
  synOf d absOffset wm = synOf d absOffset we.
Proof.
  intros Hd Hs Hc. unfold synOf. now rewrite Hd, Hs, Hc.
Qed.

Lemma grows_offsets (c c' : ProjectionCache) (i : Z) (p : Point) :
  grows c c' -> offsets c !! i = Some p -> offsets c' !! i = Some p.
Proof.
  intros (_ & H & _). apply H.
Qed.

Lemma walkStep_shorter_plain (d : Z) (absE absM : R) (lineStart lineEnd : Z)
    (we we' wm : Walk) (final : ProjectionCache) :
  absM <= absE ->
  inStep 0 we wm ->
  walkOn absM wm = true ->
  walkStep d absE 0 lineStart lineEnd we = Some we' ->
  grows (walkCache we') final ->
  grows final (walkCache wm) ->
  exists wm',
    walkStep d absM 0 lineStart lineEnd wm = Some wm'
    /\ grows final (walkCache wm')
    /\ currentLineSegment wm' <> None
    /\ (walkOn absM wm' = false \/ inStep 0 we' wm').
Proof.
  intros Habs (Hi & Hd & Hs & Ho & Hlen & Hc) Hon Hstep Hfinal Hcm.
  specialize (Hc (or_introl eq_refl)).
  pose proof (walkStep_index _ _ _ _ _ _ _ Hstep) as (Hi' & Hrange & _).
  rewrite Hi' in Hrange.
  rewrite walkStep_plain in Hstep by exact Hrange.
  cbv zeta in Hstep. injection Hstep as <-. cbn [walkCache] in Hfinal.
  rewrite walkStep_plain by (rewrite <- Hi; exact Hrange).
  cbv zeta. eexists. split; [reflexivity|]. cbn [walkCache currentLineSegment].
  rewrite (synOf_inStep d absM we wm Hd Hs Hc). rewrite <- Hi, <- Hc.
  destruct (lookup_agrees (currentIndex we + d) (synOf d absE we) (synOf d absM we)
              (walkCache we) (walkCache wm) final eq_refl eq_refl eq_refl Hfinal Hcm)
    as [Hg Hv].
  split; [exact Hg|]. split; [discriminate|].
  destruct Hv as [Heq | (u & Hpe & Hpm)].
  - right. unfold inStep. cbn. rewrite Heq, Hd, Hs.
    repeat (split; [reflexivity || assumption|]). split; [|intros _; reflexivity].
    rewrite <- Hd, <- Hs. apply isLength_nadd; [exact Hlen | apply mag_isLength].
  - left. unfold walkOn in *. cbn. rewrite <- Hd, <- Hs in *.
    rewrite Hpm. cbn [synOf absOffsetX distanceFromAnchor previousVertex].
    now apply substitute_ends.
Qed.

Lemma walkStep_shorter_offset (d : Z) (absE absM lineOffsetY : R)
    (lineStart lineEnd : Z) (we we' wm : Walk) (final : ProjectionCache) :
  lineOffsetY <> 0 ->
  absM <= absE ->
  inStep lineOffsetY we wm ->
  walkOn absM wm = true ->
  walkStep d absE lineOffsetY lineStart lineEnd we = Some we' ->
  grows (walkCache we') final ->
  grows final (walkCache wm) ->
  exists wm',
    walkStep d absM lineOffsetY lineStart lineEnd wm = Some wm'
    /\ grows final (walkCache wm')
    /\ currentLineSegment wm' <> None
    /\ inStep lineOffsetY we' wm'.
Proof.
  intros Hoff Habs (Hi & Hd & Hs & Ho & Hlen & Hc) Hon Hstep Hfinal Hcm.
  pose proof (walkStep_index _ _ _ _ _ _ _ Hstep) as (Hi' & Hrange & _).
  rewrite Hi' in Hrange.
  rewrite walkStep_offset in Hstep by assumption.
  cbv zeta in Hstep. injection Hstep as <-. cbn [walkCache] in Hfinal.
  rewrite walkStep_offset by (rewrite <- ?Hi; assumption).
  cbv zeta. eexists. split; [reflexivity|]. cbn [walkCache currentLineSegment].
  rewrite <- Hi, <- Ho.
  (* the caches of the longer walk, in the order it makes them *)
  set (r1e := projectVertexToViewport (currentIndex we + d) (synOf d absE we)
                (walkCache we)) in *.
  set (r2e := offsetNormalOf (currentIndex we + d) d lineOffsetY (synOf d absE we)
                (fst r1e) (currentVertex we) (snd r1e)) in *.
  set (ope := match offsetIntersectionPoint we with
              | Some v => v
              | None => add (currentVertex we) (fst r2e)
              end) in *.
  pose proof (findOffsetIntersectionPoint_grows (currentIndex we + d) (fst r2e) (fst r1e)
                lineStart lineEnd ope lineOffsetY (synOf d absE we) (snd r2e)) as H3.
  set (r3e := findOffsetIntersectionPoint (currentIndex we + d) (fst r2e) (fst r1e)
                lineStart lineEnd ope lineOffsetY (synOf d absE we) (snd r2e)) in *.
  destruct r3e as [inter c3] eqn:E3. destruct H3 as [Hg3 Hinter].
  cbn [fst snd] in *.
  assert (Hg2 : grows (snd r2e) final) by (eapply grows_trans; eassumption).
  assert (Hg1 : grows (snd r1e) final).
  { eapply grows_trans; [|exact Hg2]. apply offsetNormalOf_grows. }
  apply (grows_offsets _ _ _ _ Hfinal) in Hinter.
  (* the shorter walk *)
  set (r1m := projectVertexToViewport (currentIndex we + d) (synOf d absM wm)
                (walkCache wm)).
  set (r2m := offsetNormalOf (currentIndex we + d) d lineOffsetY (synOf d absM wm)
                (fst r1m) (currentVertex wm) (snd r1m)).
  set (opm := match offsetIntersectionPoint we with
              | Some v => v
              | None => add (currentVertex wm) (fst r2m)
              end).
  assert (Hm : grows final (snd r2m) /\ opm = ope).
  { destruct (offsetIntersectionPoint we) as [o|] eqn:Eo.
    - split; [|reflexivity].
      eapply grows_trans; [exact Hcm|].
      eapply grows_trans; [apply projectVertexToViewport_grows|].
      apply offsetNormalOf_grows.
    - specialize (Hc (or_intror eq_refl)).
      subst r2m r1m opm. rewrite (synOf_inStep d absM we wm Hd Hs Hc). rewrite <- Hc.
      destruct (lookup_agrees (currentIndex we + d) (synOf d absE we)
                  (synOf d absM we) (walkCache we) (walkCache wm) final
                  eq_refl eq_refl eq_refl Hg1 Hcm) as [Hgm Hv].
      unfold walkOn in Hon. rewrite <- Hd, <- Hs in Hon.
      destruct (nleb_length _ _ Hlen Hon) as (v & Ht & Hv0 & HvM).
      destruct (offsetNormalOf_agrees (currentIndex we + d) d lineOffsetY absE absM v we
                  (fst r1e)
                  (fst (projectVertexToViewport (currentIndex we + d) (synOf d absM we)
                          (walkCache wm)))
                  (snd r1e)
                  (snd (projectVertexToViewport (currentIndex we + d) (synOf d absM we)
                          (walkCache wm)))
                  final) as [Hn Hgn];
        [exact Ht | exact HvM | exact Habs | | exact Hg2 | exact Hgm |].
      { cbn [synOf absOffsetX distanceFromAnchor previousVertex] in Hv.
        rewrite Ht in Hv. exact Hv. }
      split; [exact Hgn|]. subst ope. fold r1e in Hn. fold r2e in Hn.
      now rewrite <- Hn. }
  destruct Hm as [Hgm ->].
  rewrite (findOffsetIntersectionPoint_hit _ _ _ _ _ _ _ _ _ inter)
    by (eapply grows_offsets; eassumption).
  cbn [fst snd].
  split; [exact Hgm|]. split; [discriminate|].
  unfold inStep. cbn. rewrite Hd, Hs.
  repeat (split; [reflexivity|]).
  split; [|intros [H|H]; [contradiction | discriminate]].
  rewrite <- Hd, <- Hs. apply isLength_nadd; [exact Hlen | apply mag_isLength].
Qed.

Lemma walkStep_shorter (d : Z) (absE absM lineOffsetY : R)
    (lineStart lineEnd : Z) (we we' wm : Walk) (final : ProjectionCache) :
  absM <= absE ->
  inStep lineOffsetY we wm ->
  walkOn absM wm = true ->
  walkStep d absE lineOffsetY lineStart lineEnd we = Some we' ->
  grows (walkCache we') final ->
  grows final (walkCache wm) ->
  exists wm',
    walkStep d absM lineOffsetY lineStart lineEnd wm = Some wm'
    /\ grows final (walkCache wm')
    /\ currentLineSegment wm' <> None
    /\ (walkOn absM wm' = false \/ inStep lineOffsetY we' wm').
Proof.
  intros Habs Hin Hon Hstep Hfinal Hcm.
  destruct (Req_dec_T lineOffsetY 0) as [-> | Hoff].
  - eapply walkStep_shorter_plain; eassumption.
  - destruct (walkStep_shorter_offset d absE absM lineOffsetY lineStart lineEnd
                we we' wm final Hoff Habs Hin Hon Hstep Hfinal Hcm)
      as (wm' & H1 & H2 & H3 & H4).
    exists wm'. auto.
Qed.

Lemma walkLoop_done (fuel : nat) (d : Z) (angle absOffset lineOffsetY : R)
    (lineStart lineEnd : Z) (rotateToLine : bool) (w : Walk) :
  walkOn absOffset w = false ->
  currentLineSegment w <> None ->
  exists g,
    walkLoop fuel d angle absOffset lineOffsetY lineStart lineEnd rotateToLine w
      = Normal (Some g, walkCache w).
Proof.
  intros Hoff Hseg. destruct fuel; simpl; rewrite Hoff; unfold walkEnd;
    (destruct (currentLineSegment w); [eauto | congruence]).
Qed.

(** A walk for a shorter offset, on a cache that holds what a walk for a
    longer offset has left, ends on the line if the longer one did. *)
Lemma walkLoop_shorter (d : Z) (angleE angleM absE absM lineOffsetY : R)
    (lineStart lineEnd : Z) (rotateE rotateM : bool) (g : PlacedGlyph)
    (final : ProjectionCache) :
  absM <= absE ->
  forall (fuel : nat) (we wm : Walk),
  walkLoop fuel d angleE absE lineOffsetY lineStart lineEnd rotateE we
    = Normal (Some g, final) ->
  grows final (walkCache wm) ->
  inStep lineOffsetY we wm ->
  (currentLineSegment wm = None -> walkOn absM wm = true) ->
  exists g' c',
    walkLoop fuel d angleM absM lineOffsetY lineStart lineEnd rotateM wm
      = Normal (Some g', c').
Proof.
  intros Habs. induction fuel as [|fuel IH]; intros we wm H Hcm Hin Hseg.
  - destruct (walkOn absM wm) eqn:Eon.
    + exfalso. simpl in H.
      assert (Hone : walkOn absE we = true).
      { destruct Hin as (_ & Hd & Hs & _). unfold walkOn in *.
        rewrite Hd, Hs. eapply nleb_mono; eassumption. }
      rewrite Hone in H. discriminate.
    + destruct (walkLoop_done 0 d angleM absM lineOffsetY lineStart lineEnd rotateM wm Eon)
        as [g' Hg']; [|eauto].
      intros Hnone. specialize (Hseg Hnone). congruence.
  - destruct (walkOn absM wm) eqn:Eon.
    + assert (Hone : walkOn absE we = true).
      { destruct Hin as (_ & Hd & Hs & _). unfold walkOn in *.
        rewrite Hd, Hs. eapply nleb_mono; eassumption. }
      simpl in H. rewrite Hone in H.
      destruct (walkStep d absE lineOffsetY lineStart lineEnd we) as [we'|] eqn:Estep;
        [|discriminate].
      pose proof (walkLoop_grows _ _ _ _ _ _ _ _ _ _ _ H) as Hg.
      destruct (walkStep_shorter d absE absM lineOffsetY lineStart lineEnd we we' wm final
                  Habs Hin Eon Estep Hg Hcm) as (wm' & Hm & Hgm & Hls & Hor).
      simpl. rewrite Eon, Hm.
      destruct Hor as [Hdone | Hin'].
      * destruct (walkLoop_done fuel d angleM absM lineOffsetY lineStart lineEnd rotateM
                    wm' Hdone Hls) as [g' Hg'].
        eauto.
      * eapply IH; [exact H | exact Hgm | exact Hin' |].
        intros Hnone. contradiction.
    + destruct (walkLoop_done (S fuel) d angleM absM lineOffsetY lineStart lineEnd
                  rotateM wm Eon) as [g' Hg']; [|eauto].
      intros Hnone. specialize (Hseg Hnone). congruence.
Qed.

Lemma placeGlyphAlongLine_shorter (offE offM lineOffsetX lineOffsetY : R) (flip : bool)
    (anchorSegment lineStart lineEnd : Z) (rotateToLine : bool)
    (ce final cm : ProjectionCache) (g : PlacedGlyph) :
  placeGlyphAlongLine offE lineOffsetX lineOffsetY flip anchorSegment lineStart lineEnd
    rotateToLine ce = Normal (Some g, final) ->
  grows final cm ->
  walkDirection (combinedOffset offM lineOffsetX flip) flip
    = walkDirection (combinedOffset offE lineOffsetX flip) flip ->
  Rabs (combinedOffset offM lineOffsetX flip)
    <= Rabs (combinedOffset offE lineOffsetX flip) ->
  exists g' c',
    placeGlyphAlongLine offM lineOffsetX lineOffsetY flip anchorSegment lineStart lineEnd
      rotateToLine cm = Normal (Some g', c').
Proof.
  unfold placeGlyphAlongLine. intros H Hcm Hdir Habs. rewrite Hdir.
  pose proof (anchorPointOf_grows ce) as Ha.
  destruct (anchorPointOf ce) as [a ce1]. destruct Ha as [_ Ha].
  pose proof (walkLoop_grows _ _ _ _ _ _ _ _ _ _ _ H) as Hg. simpl in Hg.
  assert (Hacm : cachedAnchorPoint cm = Some a).
  { destruct Hcm as (_ & _ & Hcm & _). apply Hcm.
    destruct Hg as (_ & _ & Hg & _). now apply Hg. }
  unfold anchorPointOf at 1. rewrite Hacm.
  eapply walkLoop_shorter; [exact Habs | exact H | exact Hcm | |].
  - unfold inStep, walkStart. simpl. repeat (split; [reflexivity|]).
    split; [lra | reflexivity].
  - intros _. apply walkOn_start.
Qed.

(** An offset between two offsets walks the way one of them does, and not
    farther. *)
Lemma offset_between (a i b lineOffsetX : R) (flip : bool) :
  a <= i <= b \/ b <= i <= a ->
  (walkDirection (combinedOffset i lineOffsetX flip) flip
     = walkDirection (combinedOffset a lineOffsetX flip) flip
   /\ Rabs (combinedOffset i lineOffsetX flip)
        <= Rabs (combinedOffset a lineOffsetX flip))
  \/ (walkDirection (combinedOffset i lineOffsetX flip) flip
        = walkDirection (combinedOffset b lineOffsetX flip) flip
      /\ Rabs (combinedOffset i lineOffsetX flip)
           <= Rabs (combinedOffset b lineOffsetX flip)).
Proof.
  intros H. unfold walkDirection, combinedOffset.
  destruct H as [H | H]; destruct flip;
    repeat match goal with
           | |- context [Rlt_dec ?u ?v] => destruct (Rlt_dec u v)
           end;
    unfold Rabs;
    repeat match goal with
           | |- context [Rcase_abs ?u] => destruct (Rcase_abs u)
           end;
    try (left; split; [reflexivity | lra]);
    try (right; split; [reflexivity | lra]);
    exfalso; lra.
Qed.

Lemma scaled_between (k a i b : R) :
  a <= i -> i <= b -> k * a <= k * i <= k * b \/ k * b <= k * i <= k * a.
Proof.
  intros H1 H2. destruct (Rle_dec 0 k).
  - left. split; apply Rmult_le_compat_l; assumption.
  - right. split; nra.
Qed.

(** ** Between the first glyph and the last *)

Lemma placeGlyphAlongLine_between (fontScale offA off offB lineOffsetX lineOffsetY : R)
    (flip : bool) (anchorSegment lineStart lineEnd : Z) (rotateToLine : bool)
    (cA cA' cB cB' c : ProjectionCache) (gA gB : PlacedGlyph) :
  placeGlyphAlongLine (fontScale * offA) lineOffsetX lineOffsetY flip anchorSegment
    lineStart lineEnd rotateToLine cA = Normal (Some gA, cA') ->
  placeGlyphAlongLine (fontScale * offB) lineOffsetX lineOffsetY flip anchorSegment
    lineStart lineEnd rotateToLine cB = Normal (Some gB, cB') ->
  grows cA' c -> grows cB' c ->
  offA <= off -> off <= offB ->
  exists g c',
    placeGlyphAlongLine (fontScale * off) lineOffsetX lineOffsetY flip anchorSegment
      lineStart lineEnd rotateToLine c = Normal (Some g, c').
Proof.
  intros HA HB HgA HgB H1 H2.
  destruct (offset_between (fontScale * offA) (fontScale * off) (fontScale * offB)
              lineOffsetX flip (scaled_between fontScale offA off offB H1 H2))
    as [[Hd Ha] | [Hd Ha]].
  - eapply placeGlyphAlongLine_shorter; [exact HA | exact HgA | exact Hd | exact Ha].
  - eapply placeGlyphAlongLine_shorter; [exact HB | exact HgB | exact Hd | exact Ha].
Qed.

Lemma placeInteriorGlyphs_placed (fontScale offA offB lineOffsetX lineOffsetY : R)
    (glyphOffsetArray : Z -> R) (flip : bool) (symbol : PlacedSymbol)
    (rotateToLine : bool) (cA cA' cB cB' : ProjectionCache) (gA gB : PlacedGlyph) :
  placeGlyphAlongLine (fontScale * offA) lineOffsetX lineOffsetY flip (segment symbol)
    (lineStartIndex symbol) (lineStartIndex symbol + lineLength symbol) rotateToLine cA
    = Normal (Some gA, cA') ->
  placeGlyphAlongLine (fontScale * offB) lineOffsetX lineOffsetY flip (segment symbol)
    (lineStartIndex symbol) (lineStartIndex symbol + lineLength symbol) rotateToLine cB
    = Normal (Some gB, cB') ->
  forall (count : nat) (glyphIndex : Z) (c : ProjectionCache),
  grows cA' c -> grows cB' c ->
  (forall k, (glyphIndex <= k < glyphIndex + Z.of_nat count)%Z ->
             offA <= glyphOffsetArray k <= offB) ->
  exists glyphs c',
    placeInteriorGlyphs count glyphIndex fontScale glyphOffsetArray lineOffsetX
      lineOffsetY flip symbol rotateToLine c = Normal (map Some glyphs, c')
    /\ length glyphs = count.
Proof.
  intros HA HB. induction count as [|count IH]; intros glyphIndex c HgA HgB Hoff.
  - exists [], c. split; reflexivity.
  - destruct (placeGlyphAlongLine_between fontScale offA (glyphOffsetArray glyphIndex)
                offB lineOffsetX lineOffsetY flip (segment symbol)
                (lineStartIndex symbol) (lineStartIndex symbol + lineLength symbol)%Z
                rotateToLine cA cA' cB cB' c gA gB HA HB HgA HgB)
      as (g & c1 & Hg); [apply Hoff; lia | apply Hoff; lia |].
    pose proof (placeGlyphAlongLine_grows _ _ _ _ _ _ _ _ _ _ _ Hg) as [Hgc _].
    destruct (IH (glyphIndex + 1)%Z c1) as (glyphs & c2 & Hrest & Hlen).
    + eapply grows_trans; eassumption.
    + eapply grows_trans; eassumption.
    + intros k Hk. apply Hoff. lia.
    + exists (g :: glyphs), c2. simpl. rewrite Hg. simpl. rewrite Hrest. simpl.
      split; [reflexivity | now rewrite Hlen].
Qed.

(** C2: for a label whose glyph offsets do not decrease, once
    [placeFirstAndLastGlyph] has placed the first and the last glyph,
    [placeGlyphAlongLine] places the glyph of every offset of the label, on
    the cache those two calls left and on any cache grown from it, with the
    same line, anchor segment and flip; so the loop over the interior
    glyphs pushes no [null]. *)
Theorem interior_glyphs_placed (symbol : PlacedSymbol) (fontScale : R)
    (glyphOffsetArray : Z -> R) (lineOffsetX lineOffsetY : R) (flip rotateToLine : bool)
    (cache cache1 : ProjectionCache) (first last : PlacedGlyph) :
  monotoneOffsets glyphOffsetArray symbol ->
  placeFirstAndLastGlyph fontScale glyphOffsetArray lineOffsetX lineOffsetY flip symbol
    rotateToLine cache = Normal (Some (first, last), cache1) ->
  (forall i c,
     (glyphStartIndex symbol <= i < glyphStartIndex symbol + numGlyphs symbol)%Z ->
     grows cache1 c ->
     exists glyph c',
       placeGlyphAlongLine (fontScale * glyphOffsetArray i) lineOffsetX lineOffsetY flip
         (segment symbol) (lineStartIndex symbol)
         (lineStartIndex symbol + lineLength symbol) rotateToLine c
       = Normal (Some glyph, c'))
  /\ exists glyphs cache2,
       placeInteriorGlyphs (Z.to_nat (numGlyphs symbol - 2)) (glyphStartIndex symbol + 1)
         fontScale glyphOffsetArray lineOffsetX lineOffsetY flip symbol rotateToLine cache1
       = Normal (map Some glyphs, cache2)
       /\ length glyphs = Z.to_nat (numGlyphs symbol - 2).
Proof.
  intros Hmono H. unfold placeFirstAndLastGlyph in H.
  destruct (placeGlyphAlongLine _ _ _ _ _ _ _ _ cache) as [[[gA|] cA]| |] eqn:EA;
    simpl in H; try discriminate.
  destruct (placeGlyphAlongLine _ _ _ _ _ _ _ _ cA) as [[[gB|] cB]| |] eqn:EB;
    simpl in H; try discriminate.
  injection H as _ _ <-.
  pose proof (placeGlyphAlongLine_grows _ _ _ _ _ _ _ _ _ _ _ EB) as [HgB _].
  split.
  - intros i c Hi Hc.
    eapply (placeGlyphAlongLine_between fontScale _ (glyphOffsetArray i) _);
      [exact EA | exact EB | | exact Hc | |].
    + eapply grows_trans; eassumption.
    + apply Hmono; lia.
    + apply Hmono; lia.
  - eapply (placeInteriorGlyphs_placed fontScale _ _ lineOffsetX lineOffsetY
              glyphOffsetArray flip symbol rotateToLine);
      [exact EA | exact EB | exact HgB | apply grows_refl |].
    intros k Hk. split; apply Hmono; lia.
Qed.

(** ** A label that fits *)

(** The anchor of the symbol in the label plane. *)
Definition labelAnchor : Point :=
  point (projectTileCoordinatesToViewport (x (tileAnchorPoint projectionArgs))
                                          (y (tileAnchorPoint projectionArgs))).

(** The cached anchor point, if there is one, is the projected anchor. *)
Definition anchorProjected (c : ProjectionCache) : Prop :=
  forall a, cachedAnchorPoint c = Some a -> a = labelAnchor.

Lemma anchorPointOf_projected (c : ProjectionCache) :
  anchorProjected c -> fst (anchorPointOf c) = labelAnchor.
Proof.
  intros H. unfold anchorPointOf.
  destruct (cachedAnchorPoint c) as [a|] eqn:E; simpl; [now apply H | reflexivity].
Qed.

(** On a line in front of the camera, walked itself, an offset below the
    remaining length of the line is placed. *)
Lemma placeGlyphAlongLine_fits (offsetX lineOffsetX : R) (flip : bool)
    (anchorSegment lineStart lineEnd : Z) (rotateToLine : bool) (c : ProjectionCache) :
  projectionsInFront c ->
  anchorProjected c ->
  (forall i, (lineStart <= i < lineEnd)%Z ->
             (Fin 0 < signedDistanceFromCamera (vertexProjection i))%num) ->
  (Fin (Rabs (combinedOffset offsetX lineOffsetX flip))
   < remainingLength labelAnchor
       (walkDirection (combinedOffset offsetX lineOffsetX flip) flip)
       anchorSegment lineStart lineEnd)%num ->
  exists g c',
    placeGlyphAlongLine offsetX lineOffsetX 0 flip anchorSegment lineStart lineEnd
      rotateToLine c = Normal (Some g, c')
    /\ projectionsInFront c' /\ anchorProjected c'.
Proof.
  intros Hcache Hanchor Hfront Hfits. unfold placeGlyphAlongLine.
  pose proof (anchorPointOf_projected c Hanchor) as Ha.
  pose proof (anchorPointOf_grows c) as Hg.
  destruct (anchorPointOf c) as [a c1]. simpl in Ha. subst a.
  destruct Hg as [Hg Hsome].
  set (combined := combinedOffset offsetX lineOffsetX flip) in *.
  set (d := walkDirection combined flip) in *.
  set (start := walkStart d anchorSegment lineStart labelAnchor c1).
  pose proof (walkDirection_unit combined flip) as Hd. fold d in Hd.
  destruct (walkLoop_remaining d
              (if (d <? 0)%Z then (if flip then PI else 0) + PI
               else if flip then PI else 0)
              (Rabs combined) lineStart lineEnd rotateToLine Hd Hfront
              (stepsLeft d lineStart lineEnd (currentIndex start))
              (walkFuel lineStart lineEnd) start eq_refl)
    as (r & c' & Hloop & Hiff).
  - apply stepsLeft_start, Hd.
  - eapply grows_projectionsInFront; eassumption.
  - unfold start, walkStart. simpl. lra.
  - intros _. apply walkOn_start.
  - fold start. rewrite Hloop.
    pose proof (walkLoop_grows _ _ _ _ _ _ _ _ _ _ _ Hloop) as Hg'.
    destruct r as [g|].
    + exists g, c'. split; [reflexivity|]. split.
      * eapply grows_projectionsInFront; [|exact Hg'].
        eapply grows_projectionsInFront; eassumption.
      * intros a' Ha'. destruct Hg' as (_ & _ & Hg' & _).
        specialize (Hg' _ Hsome). simpl in Ha'. congruence.
    + exfalso. destruct Hiff as [Hiff _]. specialize (Hiff eq_refl).
      unfold remainingLength in Hfits. apply nltb_nleb in Hfits.
      unfold start, walkStart in Hiff. cbn [walkDistanceFromAnchor currentSegmentDistance
        currentVertex currentIndex] in Hiff.
      unfold walkStart in Hfits. cbn [currentIndex] in Hfits.
      replace (Fin 0 + Fin 0)%num with (Fin 0) in Hiff by (simpl; f_equal; lra).
      rewrite nadd_Fin_0 in Hiff. unfold nle in Hiff. congruence.
Qed.

(** ** A walk onto a substitute *)

(** On a line walked itself, a first vertex behind the camera is replaced
    by a substitute far enough out, and the glyph is placed on the way to
    it, whatever its offset. *)
Lemma placeGlyphAlongLine_behind (offsetX lineOffsetX : R) (flip : bool)
    (anchorSegment lineStart lineEnd : Z) (rotateToLine : bool) (c : ProjectionCache) :
  let d := walkDirection (combinedOffset offsetX lineOffsetX flip) flip in
  let first :=
    ((if (0 <? d)%Z then lineStart + anchorSegment else lineStart + anchorSegment + 1)
     + d)%Z in
  (lineStart <= first < lineEnd)%Z ->
  projections c !! first = None ->
  ~ (Fin 0 < signedDistanceFromCamera (vertexProjection first))%num ->
  exists g c',
    placeGlyphAlongLine offsetX lineOffsetX 0 flip anchorSegment lineStart lineEnd
      rotateToLine c = Normal (Some g, c').
Proof.
  intros d first Hrange Hnone Hbehind. unfold placeGlyphAlongLine.
  destruct (anchorPointOf c) as [a c1] eqn:Ea.
  assert (Hc1 : projections c1 = projections c).
  { unfold anchorPointOf in Ea. destruct (cachedAnchorPoint c); injection Ea as _ <-;
      reflexivity. }
  fold d.
  set (absOffsetX := Rabs (combinedOffset offsetX lineOffsetX flip)).
  set (start := walkStart d anchorSegment lineStart a c1).
  assert (Hfirst : (currentIndex start + d)%Z = first) by reflexivity.
  unfold walkFuel. cbn [walkLoop]. unfold absOffsetX at 1, start at 1.
  rewrite walkOn_start. fold absOffsetX start.
  rewrite walkStep_plain by (rewrite Hfirst; exact Hrange).
  cbv zeta. rewrite Hfirst.
  pose proof (projectVertexToViewport_cases first (synOf d absOffsetX start) (walkCache start))
    as Hcases.
  destruct (projectVertexToViewport first (synOf d absOffsetX start) (walkCache start))
    as [vertex c2].
  cbn [fst snd].
  destruct Hcases as [[Hhit _] | [(_ & [_ Hfront] & _) | (_ & _ & _ & Hvertex)]].
  - unfold start, walkStart in Hhit. cbn [walkCache] in Hhit. rewrite Hc1 in Hhit.
    congruence.
  - contradiction.
  - match goal with |- exists g c', walkLoop ?fuel _ ?angle _ _ _ _ _ ?w = _ =>
      destruct (walkLoop_done fuel d angle absOffsetX 0 lineStart lineEnd rotateToLine w)
        as [g Hg] end.
    + unfold walkOn. cbn [walkDistanceFromAnchor currentSegmentDistance].
      rewrite Hvertex. cbn [synOf absOffsetX distanceFromAnchor previousVertex].
      apply substitute_ends.
      * unfold start, walkStart. simpl. lra.
      * apply (walkOn_start d anchorSegment lineStart a c1).
    + discriminate.
    + eauto.
Qed.

(** ** Coincident vertices *)

Lemma add_nanPoint (p : Point) : add p nanPoint = nanPoint.
Proof.
  destruct p as [[a| | |] [b| | |]]; reflexivity.
Qed.

Lemma mult_nanPoint (k : Num) : _mult nanPoint k = nanPoint.
Proof. reflexivity. Qed.

(** The unit vector of the zero vector is lost, and with it the offset
    normal of a segment between two points that coincide. *)
Lemma unit_zero (a b : R) :
  _unit (sub (finitePoint a b) (finitePoint a b)) = nanPoint.
Proof.
  unfold sub, finitePoint. cbn [x y nsub nneg nadd].
  fold (finitePoint (a + - a) (b + - b)). unfold _unit.
  rewrite mag_finitePoint.
  replace (sqrt ((a + - a) * (a + - a) + (b + - b) * (b + - b))) with 0.
  - unfold _div, finitePoint, nanPoint. cbn [x y]. f_equal; decide_reals; reflexivity.
  - replace ((a + - a) * (a + - a) + (b + - b) * (b + - b)) with 0 by ring.
    now rewrite sqrt_0.
Qed.

Lemma transformToOffsetNormal_zero (a b offset : R) (direction : Z) :
  transformToOffsetNormal (sub (finitePoint a b) (finitePoint a b)) offset direction
  = nanPoint.
Proof.
  unfold transformToOffsetNormal. rewrite unit_zero. reflexivity.
Qed.

Lemma mag_sub_same (a b : R) :
  mag (sub (finitePoint a b) (finitePoint a b)) = Fin 0.
Proof.
  unfold sub, finitePoint. cbn [x y nsub nneg nadd].
  fold (finitePoint (a + - a) (b + - b)). rewrite mag_finitePoint. f_equal.
  replace ((a + - a) * (a + - a) + (b + - b) * (b + - b)) with 0 by ring.
  apply sqrt_0.
Qed.

Lemma projectVertexToViewport_offsets (index : Z) (syn : ProjectionSyntheticVertexArgs)
    (c : ProjectionCache) :
  offsets (snd (projectVertexToViewport index syn c)) = offsets c.
Proof.
  pose proof (projectVertexToViewport_cases index syn c) as H.
  destruct (projectVertexToViewport index syn c) as [p c']. simpl.
  destruct H as [[_ ->] | [(_ & _ & _ & H & _) | (_ & _ & -> & _)]];
    [reflexivity | exact H | reflexivity].
Qed.

(** A vertex in front of the camera is looked up as its projection, on a
    cache that holds projections in front. *)
Lemma projectVertexToViewport_front (index : Z) (syn : ProjectionSyntheticVertexArgs)
    (c : ProjectionCache) :
  projectionsInFront c ->
  (Fin 0 < signedDistanceFromCamera (vertexProjection index))%num ->
  fst (projectVertexToViewport index syn c) = point (vertexProjection index).
Proof.
  intros Hc Hfront.
  pose proof (projectVertexToViewport_cases index syn c) as H.
  destruct (projectVertexToViewport index syn c) as [p c']. simpl.
  destruct H as [[Hhit _] | [(_ & [Hp _] & _) | (_ & Hbehind & _)]].
  - now apply Hc in Hhit.
  - exact Hp.
  - contradiction.
Qed.

(** With a perpendicular offset, where the anchor and the next two
    vertices project to one point and the line ends there, the first turn
    loses the distance, the loop ends, and the glyph is placed nowhere. *)
Lemma placeGlyphAlongLine_coincident (offsetX lineOffsetX lineOffsetY a b : R)
    (flip : bool) (anchorSegment lineStart lineEnd : Z) (rotateToLine : bool)
    (c : ProjectionCache) :
  let d := walkDirection (combinedOffset offsetX lineOffsetX flip) flip in
  let first :=
    ((if (0 <? d)%Z then lineStart + anchorSegment else lineStart + anchorSegment + 1)
     + d)%Z in
  lineOffsetY <> 0 ->
  (lineStart <= first < lineEnd)%Z ->
  ~ (lineStart <= first + d < lineEnd)%Z ->
  projectionsInFront c -> anchorProjected c -> offsets c !! first = None ->
  labelAnchor = finitePoint a b ->
  (Fin 0 < signedDistanceFromCamera (vertexProjection first))%num ->
  point (vertexProjection first) = finitePoint a b ->
  (Fin 0 < signedDistanceFromCamera (vertexProjection (first + d)))%num ->
  point (vertexProjection (first + d)) = finitePoint a b ->
  exists g c',
    placeGlyphAlongLine offsetX lineOffsetX lineOffsetY flip anchorSegment lineStart
      lineEnd rotateToLine c = Normal (Some g, c')
    /\ glyphPoint g = nanPoint
    /\ ~ reachesOffset d (Rabs (combinedOffset offsetX lineOffsetX flip)) lineOffsetY
           lineStart lineEnd
           (walkOfCall offsetX lineOffsetX flip anchorSegment lineStart c).
Proof.
  intros d first Hoff Hrange Hend Hcache Hanchor Hoffsets Ha Hfront1 Hp1 Hfront2 Hp2.
  unfold placeGlyphAlongLine, walkOfCall. fold d.
  pose proof (anchorPointOf_projected c Hanchor) as Hanchor'.
  pose proof (anchorPointOf_grows c) as Hgrows.
  destruct (anchorPointOf c) as [anchor c1] eqn:Ea.
  assert (Ho1 : offsets c1 = offsets c).
  { unfold anchorPointOf in Ea. destruct (cachedAnchorPoint c); injection Ea as _ <-;
      reflexivity. }
  simpl in Hanchor'. subst anchor.
  destruct Hgrows as [Hgrows _].
  assert (Hc1 : projectionsInFront c1) by (eapply grows_projectionsInFront; eassumption).
  set (absOffsetX := Rabs (combinedOffset offsetX lineOffsetX flip)).
  set (start := walkStart d anchorSegment lineStart labelAnchor c1).
  assert (Hfirst : (currentIndex start + d)%Z = first) by reflexivity.
  (* the first turn *)
  pose proof (walkStep_offset d absOffsetX lineOffsetY lineStart lineEnd start Hoff)
    as Hstep.
  rewrite Hfirst in Hstep. specialize (Hstep Hrange). cbv zeta in Hstep.
  set (syn := synOf d absOffsetX start) in *.
  set (r1 := projectVertexToViewport first syn (walkCache start)) in *.
  assert (Hr1 : fst r1 = finitePoint a b).
  { unfold r1. rewrite projectVertexToViewport_front; assumption. }
  assert (Hg1 : projectionsInFront (snd r1)).
  { eapply grows_projectionsInFront; [exact Hc1|].
    apply projectVertexToViewport_grows. }
  set (r2 := offsetNormalOf first d lineOffsetY syn (fst r1) (currentVertex start) (snd r1))
    in *.
  assert (Hr2 : fst r2 = nanPoint /\ offsets (snd r2) = offsets c).
  { unfold r2, offsetNormalOf. cbn [start walkStart currentVertex].
    rewrite Hr1, Ha, mag_sub_same.
    replace (neqb (Fin 0) (Fin 0)) with true
      by (symmetry; now apply neqb_Fin).
    cbn [fst snd]. rewrite projectVertexToViewport_front by assumption.
    rewrite Hp2, transformToOffsetNormal_zero.
    split; [reflexivity|].
    rewrite projectVertexToViewport_offsets. unfold r1.
    rewrite projectVertexToViewport_offsets. exact Ho1. }
  destruct Hr2 as [Hr2 Ho2].
  cbn [start walkStart offsetIntersectionPoint currentVertex] in Hstep.
  fold start in Hstep. rewrite Hr2, add_nanPoint in Hstep.
  set (r3 := findOffsetIntersectionPoint first nanPoint (fst r1) lineStart lineEnd
               nanPoint lineOffsetY syn (snd r2)) in *.
  assert (Hr3 : fst r3 = nanPoint).
  { unfold r3, findOffsetIntersectionPoint. rewrite Ho2, Hoffsets.
    cbn [syn synOf direction].
    replace ((first + d <? lineStart) || (lineEnd <=? first + d))%Z%bool with true.
    - cbn [fst]. apply add_nanPoint.
    - symmetry. apply orb_true_iff.
      destruct (Z.ltb_spec (first + d) lineStart); [now left|].
      right. apply Z.leb_le. lia. }
  rewrite Hr3 in Hstep.
  change (mag (sub nanPoint nanPoint)) with NaN in Hstep.
  change (sub nanPoint nanPoint) with nanPoint in Hstep.
  (* the loop *)
  unfold walkFuel. cbn [walkLoop]. fold absOffsetX start.
  unfold absOffsetX at 1, start at 1. rewrite walkOn_start. fold absOffsetX start.
  rewrite Hstep.
  match goal with |- context [walkLoop ?fuel _ ?angle _ _ _ _ _ ?w] =>
    set (w1 := w) in *;
    assert (Hw1 : walkOn absOffsetX w1 = false) by reflexivity;
    assert (Hloop : walkLoop fuel d angle absOffsetX lineOffsetY lineStart lineEnd
                      rotateToLine w1
                    = walkEnd angle absOffsetX rotateToLine w1)
      by (destruct fuel; cbn [walkLoop]; rewrite Hw1; reflexivity);
    rewrite Hloop
  end.
  unfold walkEnd. cbn [w1 currentLineSegment offsetPreviousVertex].
  eexists. eexists. split; [reflexivity|]. split.
  - cbn [glyphPoint]. rewrite mult_nanPoint. apply add_nanPoint.
  - intros (n & w & Hturns & Hreach & _).
    cbn [walkTurns] in Hturns. fold absOffsetX start in Hturns.
    unfold absOffsetX at 1, start at 1 in Hturns.
    rewrite walkOn_start in Hturns. fold absOffsetX start in Hturns.
    rewrite Hstep in Hturns. fold w1 in Hturns.
    destruct n as [|n].
    + injection Hturns as <-. unfold nlt in Hreach. simpl in Hreach. discriminate.
    + cbn [walkTurns] in Hturns. rewrite Hw1 in Hturns. discriminate.
Qed.

End Placement.

(** ** A label of three glyphs on a straight line *)

Definition identity : mat4 :=
  fun i => match i with
           | 0%nat | 5%nat | 10%nat | 15%nat => 1
           | _ => 0
           end.

(** A line along the x axis with a vertex at every integer, seen through
    the identity matrix; the anchor is half way between two vertices. *)
Definition straightLine : ProjectionArgs unit :=
  {| getElevation := None;
     labelPlaneMatrix := identity;
     lineVertexArray := fun i => finitePoint (IZR i) 0;
     pitchWithMap := true;
     projectionManager :=
       {| useSpecialProjectionForSymbols := false;
          managerProject := fun x y _ =>
            {| point := {| x := x; y := y |}; signedDistanceFromCamera := Fin 1 |} |};
     tileAnchorPoint := finitePoint (1 / 2) 0;
     unwrappedTileID := tt;
     width := 1;
     height := 1 |}.

Definition threeGlyphs : PlacedSymbol :=
  {| anchorX := 1 / 2;
     anchorY := 0;
     glyphStartIndex := 0;
     numGlyphs := 3;
     lineStartIndex := 0;
     lineLength := 2;
     segment := 0;
     lineOffsetX := 0;
     lineOffsetY := 0;
     writingMode := horizontal;
     hidden := false |}.

(** Glyph offsets -1/4, 0, 1/4. *)
Definition quarterOffsets (i : Z) : R := (IZR i - 1) / 4.

Definition noIntersection (_ _ _ _ : Point) : option Point := None.
Definition flatAtan2 (_ _ : Num) : Num := Fin 0.

Lemma quarterOffsets_monotone : monotoneOffsets quarterOffsets threeGlyphs.
Proof.
  intros i j _ Hij _. unfold quarterOffsets. apply IZR_le in Hij. lra.
Qed.

(** A point of real coordinates seen through a matrix that maps it to a
    point with a depth that is not zero. *)
Lemma project_finite (a b : R) (m : mat4) :
  m 3%nat * a + m 7%nat * b + m 15%nat <> 0 ->
  project (finitePoint a b) m None
  = {| point :=
         finitePoint ((m 0%nat * a + m 4%nat * b + m 12%nat)
                      / (m 3%nat * a + m 7%nat * b + m 15%nat))
                     ((m 1%nat * a + m 5%nat * b + m 13%nat)
                      / (m 3%nat * a + m 7%nat * b + m 15%nat));
       signedDistanceFromCamera := Fin (m 3%nat * a + m 7%nat * b + m 15%nat) |}.
Proof.
  intros Hw. unfold project, xyTransformMat4, finitePoint. cbn [x y nmul nadd].
  rewrite !ndiv_Fin by exact Hw. reflexivity.
Qed.

Lemma straightLine_projection (a : R) :
  projectTileCoordinatesToViewport unit straightLine (Fin a) (Fin 0)
  = {| point := finitePoint a 0; signedDistanceFromCamera := Fin 1 |}.
Proof.
  unfold projectTileCoordinatesToViewport, projectFromMapToLabelPlane. simpl.
  fold (finitePoint a 0). rewrite project_finite by (simpl; lra).
  simpl. unfold finitePoint. f_equal; [f_equal|]; f_equal; field.
Qed.

Lemma straightLine_vertex (i : Z) :
  vertexProjection unit straightLine i
  = {| point := finitePoint (IZR i) 0; signedDistanceFromCamera := Fin 1 |}.
Proof. exact (straightLine_projection (IZR i)). Qed.

Lemma straightLine_anchor : labelAnchor unit straightLine = finitePoint (1 / 2) 0.
Proof.
  unfold labelAnchor.
  exact (f_equal point (straightLine_projection (1 / 2))).
Qed.

Lemma straightLine_front (i : Z) :
  (Fin 0 < signedDistanceFromCamera (vertexProjection unit straightLine i))%num.
Proof.
  rewrite straightLine_vertex. apply nltb_Fin. lra.
Qed.

(** The distance between two points of the x axis. *)
Lemma mag_horizontal (a b : R) :
  mag (sub (finitePoint a 0) (finitePoint b 0)) = Fin (Rabs (a - b)).
Proof.
  unfold sub, finitePoint. cbn [x y nsub nneg nadd].
  fold (finitePoint (a + - b) (0 + - 0)). rewrite mag_finitePoint. f_equal.
  replace ((a + - b) * (a + - b) + (0 + - 0) * (0 + - 0)) with (Rsqr (a - b))
    by (unfold Rsqr; ring).
  apply sqrt_Rsqr_abs.
Qed.

Lemma straightLine_remaining (d : Z) :
  (d = 1 \/ d = -1)%Z ->
  remainingLength unit straightLine (labelAnchor unit straightLine) d 0 0 2
  = Fin (1 / 2).
Proof.
  intros [-> | ->]; unfold remainingLength; rewrite straightLine_anchor;
    cbn [walkStart currentIndex Z.ltb Z.compare stepsLeft];
    simpl indicesAhead; cbn [map polylineLength];
    rewrite straightLine_vertex; cbn [point]; rewrite mag_horizontal;
    simpl; f_equal.
  - change (0 + 0 + 1)%Z with 1%Z. replace (1 - 1 / 2) with (1 / 2) by field.
    rewrite Rabs_right; lra.
  - change (0 + 0 + 1 + -1)%Z with 0%Z. replace (0 - 1 / 2) with (- (1 / 2)) by field.
    rewrite Rabs_left; lra.
Qed.

Lemma threeGlyphs_ends :
  exists first last cache1,
    placeFirstAndLastGlyph unit noIntersection flatAtan2 straightLine 1 quarterOffsets
      0 0 false threeGlyphs false emptyCache
    = Normal (Some (first, last), cache1).
Proof.
  unfold placeFirstAndLastGlyph.
  destruct (placeGlyphAlongLine_fits unit noIntersection flatAtan2 straightLine
              (1 * quarterOffsets (glyphStartIndex threeGlyphs)) 0 false
              (segment threeGlyphs) (lineStartIndex threeGlyphs)
              (lineStartIndex threeGlyphs + lineLength threeGlyphs) false emptyCache)
    as (first & c1 & H1 & Hfront1 & Hanchor1).
  - apply projectionsInFront_empty.
  - intros a Ha. discriminate.
  - intros i _. apply straightLine_front.
  - cbn [glyphStartIndex segment lineStartIndex lineLength threeGlyphs].
    change (0 + 2)%Z with 2%Z.
    rewrite straightLine_remaining by apply walkDirection_unit.
    apply nltb_Fin. unfold combinedOffset, quarterOffsets. simpl.
    rewrite Rabs_left; lra.
  - rewrite H1. simpl.
    destruct (placeGlyphAlongLine_fits unit noIntersection flatAtan2 straightLine
                (1 * quarterOffsets
                       (glyphStartIndex threeGlyphs + numGlyphs threeGlyphs - 1)) 0 false
                (segment threeGlyphs) (lineStartIndex threeGlyphs)
                (lineStartIndex threeGlyphs + lineLength threeGlyphs) false c1)
      as (last & c2 & H2 & _ & _).
    + exact Hfront1.
    + exact Hanchor1.
    + intros i _. apply straightLine_front.
    + cbn [glyphStartIndex numGlyphs segment lineStartIndex lineLength threeGlyphs].
      change (0 + 2)%Z with 2%Z.
      rewrite straightLine_remaining by apply walkDirection_unit.
      apply nltb_Fin. unfold combinedOffset, quarterOffsets. simpl.
      change (0 + 3 - 1)%Z with 2%Z.
      rewrite Rabs_right; lra.
    + simpl in H2. rewrite H2. simpl. eauto.
Qed.

Lemma interior_glyphs_placed_witness :
  monotoneOffsets quarterOffsets threeGlyphs
  /\ exists cache1 glyphs cache2,
       placeInteriorGlyphs unit noIntersection flatAtan2 straightLine
         (Z.to_nat (numGlyphs threeGlyphs - 2)) (glyphStartIndex threeGlyphs + 1)
         1 quarterOffsets 0 0 false threeGlyphs false cache1
       = Normal (map Some glyphs, cache2)
       /\ length glyphs = Z.to_nat (numGlyphs threeGlyphs - 2).
Proof.
  split; [exact quarterOffsets_monotone|].
  destruct threeGlyphs_ends as (first & last & cache1 & Hends).
  exists cache1.
  exact (proj2 (interior_glyphs_placed unit noIntersection flatAtan2 straightLine
                  threeGlyphs 1 quarterOffsets 0 0 false false emptyCache cache1
                  first last quarterOffsets_monotone Hends)).
Defined.

(** ** The straight line walked to its end, and a line behind the camera *)

Lemma placeGlyphAlongLine_null_iff_witness :
  exists cache',
    placeGlyphAlongLine unit noIntersection flatAtan2 straightLine 2 0 0 false 0 0 2 false
      emptyCache = Normal (None, cache').
Proof.
  destruct (placeGlyphAlongLine_null_iff unit noIntersection flatAtan2 straightLine
              2 0 0 false 0 0 2 false emptyCache)
    as (r & cache' & Hplace & _ & _ & Hlength).
  specialize (Hlength eq_refl (projectionsInFront_empty unit straightLine)
                (fun i _ => straightLine_front i)).
  exists cache'. rewrite Hplace. f_equal. f_equal. apply Hlength.
  assert (Hd : walkDirection (combinedOffset 2 0 false) false = 1%Z).
  { unfold walkDirection, combinedOffset.
    destruct (Rlt_dec 0 (2 + 0)); [reflexivity | lra]. }
  rewrite Hd.
  change (currentVertex (walkOfCall unit straightLine 2 0 false 0 0 emptyCache))
    with (labelAnchor unit straightLine).
  rewrite straightLine_remaining by now left.
  apply nleb_Fin_Fin. unfold combinedOffset. rewrite Rabs_right; lra.
Defined.

(** A line whose vertices all project behind the camera, onto one point. *)
Definition behindLine : ProjectionArgs unit :=
  {| getElevation := None;
     labelPlaneMatrix := fun i => match i with 15%nat => -1 | _ => 0 end;
     lineVertexArray := fun i => finitePoint (IZR i) 0;
     pitchWithMap := true;
     projectionManager := projectionManager straightLine;
     tileAnchorPoint := finitePoint (1 / 2) 0;
     unwrappedTileID := tt;
     width := 1;
     height := 1 |}.

Definition firstTurn : ProjectionSyntheticVertexArgs :=
  {| distanceFromAnchor := Fin 0;
     previousVertex := finitePoint (1 / 2) 0;
     direction := 1;
     absOffsetX := 1 |}.

Lemma behindLine_projection (a : R) :
  projectTileCoordinatesToViewport unit behindLine (Fin a) (Fin 0)
  = {| point := finitePoint 0 0; signedDistanceFromCamera := Fin (-1) |}.
Proof.
  unfold projectTileCoordinatesToViewport, projectFromMapToLabelPlane. simpl.
  fold (finitePoint a 0). rewrite project_finite by (simpl; lra).
  simpl. unfold finitePoint. f_equal; [f_equal|]; f_equal; field.
Qed.

Lemma behindLine_vertex (i : Z) :
  vertexProjection unit behindLine i
  = {| point := finitePoint 0 0; signedDistanceFromCamera := Fin (-1) |}.
Proof. exact (behindLine_projection (IZR i)). Qed.

Lemma behindLine_anchor : labelAnchor unit behindLine = finitePoint 0 0.
Proof.
  unfold labelAnchor.
  exact (f_equal point (behindLine_projection (1 / 2))).
Qed.

Lemma behindLine_behind (i : Z) :
  ~ (Fin 0 < signedDistanceFromCamera (vertexProjection unit behindLine i))%num.
Proof.
  rewrite behindLine_vertex. intros H. apply nltb_Fin in H. lra.
Qed.

Lemma cache_holds_front_projections_witness :
  snd (projectVertexToViewport unit behindLine 1 firstTurn emptyCache) = emptyCache
  /\ exists glyphs cache,
       placeAll unit noIntersection flatAtan2 behindLine
         [ {| callOffsetX := 1; callLineOffsetX := 0; callLineOffsetY := 0;
              callFlip := false; callAnchorSegment := 0; callLineStartIndex := 0;
              callLineEndIndex := 2; callRotateToLine := false |} ] emptyCache
       = Normal (glyphs, cache)
       /\ projectionsInFront unit behindLine cache.
Proof.
  destruct (cache_holds_front_projections unit noIntersection flatAtan2 behindLine)
    as (Hruns & _ & Hbehind).
  split.
  - apply Hbehind; [reflexivity | apply behindLine_behind].
  - apply Hruns.
Defined.

(** The line behind the camera has no length in the label plane, and a
    glyph at offset 1 from its anchor is placed all the same. *)
Lemma behindLine_placed :
  remainingLength unit behindLine (labelAnchor unit behindLine) 1 0 0 2 = Fin 0
  /\ exists glyph cache',
       placeGlyphAlongLine unit noIntersection flatAtan2 behindLine 1 0 0 false 0 0 2 false
         emptyCache = Normal (Some glyph, cache').
Proof.
  split.
  - unfold remainingLength. rewrite behindLine_anchor.
    cbn [walkStart currentIndex Z.ltb Z.compare stepsLeft].
    simpl indicesAhead. cbn [map polylineLength].
    rewrite behindLine_vertex. cbn [point]. rewrite mag_horizontal.
    simpl. f_equal. replace (0 - 0) with 0 by ring. rewrite Rabs_R0. ring.
  - assert (Hd : walkDirection (combinedOffset 1 0 false) false = 1%Z).
    { unfold walkDirection, combinedOffset.
      destruct (Rlt_dec 0 (1 + 0)); [reflexivity | lra]. }
    apply placeGlyphAlongLine_behind; rewrite Hd; simpl.
    + lia.
    + reflexivity.
    + apply behindLine_behind.
Qed.

(** A line whose vertices all project onto one point in front of the
    camera. *)
Definition pointLine : ProjectionArgs unit :=
  {| getElevation := None;
     labelPlaneMatrix := fun i => match i with 15%nat => 1 | _ => 0 end;
     lineVertexArray := fun i => finitePoint (IZR i) 0;
     pitchWithMap := true;
     projectionManager := projectionManager straightLine;
     tileAnchorPoint := finitePoint (1 / 2) 0;
     unwrappedTileID := tt;
     width := 1;
     height := 1 |}.

Lemma pointLine_projection (a : R) :
  projectTileCoordinatesToViewport unit pointLine (Fin a) (Fin 0)
  = {| point := finitePoint 0 0; signedDistanceFromCamera := Fin 1 |}.
Proof.
  unfold projectTileCoordinatesToViewport, projectFromMapToLabelPlane. simpl.
  fold (finitePoint a 0). rewrite project_finite by (simpl; lra).
  simpl. unfold finitePoint. f_equal; [f_equal|]; f_equal; field.
Qed.

Lemma pointLine_vertex (i : Z) :
  vertexProjection unit pointLine i
  = {| point := finitePoint 0 0; signedDistanceFromCamera := Fin 1 |}.
Proof. exact (pointLine_projection (IZR i)). Qed.

(** With a perpendicular offset, the glyph at offset 1 along it is placed
    at once, at a point whose coordinates are [NaN], though the distance
    never passes the offset. *)
Lemma pointLine_placed (findLineIntersection : Point -> Point -> Point -> Point -> option Point)
    (atan2 : Num -> Num -> Num) :
  exists glyph cache',
    placeGlyphAlongLine unit findLineIntersection atan2 pointLine 1 0 1 false 0 0 2 false
      emptyCache = Normal (Some glyph, cache')
    /\ glyphPoint glyph = nanPoint
    /\ ~ reachesOffset unit findLineIntersection pointLine 1
           (Rabs (combinedOffset 1 0 false)) 1 0 2
           (walkOfCall unit pointLine 1 0 false 0 0 emptyCache).
Proof.
  assert (Hd : walkDirection (combinedOffset 1 0 false) false = 1%Z).
  { unfold walkDirection, combinedOffset.
    destruct (Rlt_dec 0 (1 + 0)); [reflexivity | lra]. }
  pose proof (placeGlyphAlongLine_coincident unit findLineIntersection atan2 pointLine
                1 0 1 0 0 false 0 0 2 false emptyCache) as H.
  cbv zeta in H. rewrite Hd in H. apply H.
  - lra.
  - simpl. lia.
  - simpl. lia.
  - apply projectionsInFront_empty.
  - intros a Ha. discriminate.
  - reflexivity.
  - unfold labelAnchor. exact (f_equal point (pointLine_projection (1 / 2))).
  - rewrite pointLine_vertex. apply nltb_Fin. lra.
  - now rewrite pointLine_vertex.
  - rewrite pointLine_vertex. apply nltb_Fin. lra.
  - now rewrite pointLine_vertex.
Qed.

(** Off the line and placed: behind the camera a glyph is placed at an
    offset beyond the remaining length of the line, and on coincident
    vertices one is placed though the distance never passes the offset. *)
Lemma placed_off_the_line :
  ((remainingLength unit behindLine (labelAnchor unit behindLine) 1 0 0 2
    <= Fin (Rabs (combinedOffset 1 0 false)))%num
   /\ exists glyph cache',
        placeGlyphAlongLine unit noIntersection flatAtan2 behindLine 1 0 0 false 0 0 2
          false emptyCache = Normal (Some glyph, cache'))
  /\ (exists glyph cache',
        placeGlyphAlongLine unit noIntersection flatAtan2 pointLine 1 0 1 false 0 0 2
          false emptyCache = Normal (Some glyph, cache')
        /\ ~ reachesOffset unit noIntersection pointLine 1
               (Rabs (combinedOffset 1 0 false)) 1 0 2
               (walkOfCall unit pointLine 1 0 false 0 0 emptyCache)).
Proof.
  split.
  - destruct behindLine_placed as [Hlength Hplaced]. split; [|exact Hplaced].
    rewrite Hlength. apply nleb_Fin_Fin. apply Rabs_pos.
  - destruct (pointLine_placed noIntersection flatAtan2) as (g & c' & Hplaced & _ & Hnot).
    exists g, c'. split; assumption.
Qed.

End SymbolProjection.

